(** * Open-system scheduler (scheduler_open.cc): shallow embedding and properties

    The development follows [src/common/scheduler/scheduler_open.cc].
    Integers of type [int] are modelled as [Z]; the [UInt64] timestamps are
    [Z] with the wrap-around modulo 2^64 written out where the code does
    arithmetic on them.  Vectors are lists, indexed with stdpp's lookup and
    updated with stdpp's insert; an access outside a vector, a division by
    zero or an uncaught exception is the outcome [Fault], a call of
    [exit (1)] is the outcome [Exit] with the message that was printed. *)

From Stdlib Require Import ZArith String Ascii List Lia Zdivisibility.
From stdpp Require Import base tactics option list.

Local Open Scope Z_scope.

(** ** Outcomes of fallible code *)

Inductive fatal : Type :=
  | InvalidSystemSize
  | UnknownDistribution
  | UnknownMappingAlgorithm
  | UnknownQueuingPolicy
  | ParallelismBelowOne
  | UnknownSuite
  | ProfileMissing
  | TaskZeroNotMapped
  | NonInitialThreadWithoutCore
  | NextArrivalTimeZero
  | CapacityMismatch
  | TaskStateMismatch.

Inductive outcome (A : Type) : Type :=
  | Ok (a : A)
  | Exit (e : fatal)
  | Fault.

Arguments Ok {A} a.
Arguments Exit {A} e.
Arguments Fault {A}.

#[global] Instance outcome_ret : MRet outcome := fun A a => Ok a.

#[global] Instance outcome_bind : MBind outcome := fun A B f m =>
  match m with
  | Ok a => f a
  | Exit e => Exit e
  | Fault => Fault
  end.

(** ** Machine arithmetic *)

Definition two64 : Z := 2 ^ 64.

(** Conversion to [UInt64]. *)
Definition u64 (z : Z) : Z := z mod two64.

Definition INVALID_CORE_ID : Z := -1.

(** ** Data model: the two state arrays *)

Record openTask : Type := mkTask {
  taskID : Z;
  taskName : string;
  waitingToSchedule : bool;
  waitingInQueue : bool;
  active : bool;
  completed : bool;
  taskCoreRequirement : Z;
  taskArrivalTime : Z;
  taskStartTime : Z;
  taskDepartureTime : Z
}.

Record systemCore : Type := mkCore {
  coreID : Z;
  assignedTaskID : Z;
  assignedThreadID : Z
}.

(** Modelled from the spec: the constructors [openTask (id, name, requirement)]
    and [systemCore (id)] are declared in scheduler_open.h, which is not part
    of the sources at hand.  A new task is in phase WaitingToSchedule with its
    times unset (0); a new core is unassigned and unattached (sentinel -1). *)
Definition newTask (id : Z) (name : string) (requirement : Z) : openTask :=
  mkTask id name true false false false requirement 0 0 0.

Definition newCore (id : Z) : systemCore := mkCore id (-1) (-1).

(** [numberOfTasks] is the [int] the constructor reads from the
    configuration (line 42).  The constructor then pushes one task record
    for each index below it, none when it is negative, and nothing changes
    the member or the size of [openTasks] afterwards: the loops
    [for (i = 0; i < numberOfTasks; i++)] over [openTasks] visit the whole
    vector, while the comparisons with [numberOfTasks] and the division by
    it see the configured number. *)
Record SchedulerOpen : Type := mkSched {
  m_core_mask : list bool;
  mappingEpoch : Z;
  queuePolicy : string;
  numberOfTasks : Z;
  openTasks : list openTask;
  systemCores : list systemCore
}.

(** [numberOfCores] is set once by the constructor, which then fills
    [systemCores] with that many records (at least one, or the constructor
    does not return); no later code changes either, so it is the length of
    the vector. *)
Definition numberOfCores (s : SchedulerOpen) : Z := Z.of_nat (length (systemCores s)).

Definition withTasks (s : SchedulerOpen) (ts : list openTask) : SchedulerOpen :=
  mkSched (m_core_mask s) (mappingEpoch s) (queuePolicy s) (numberOfTasks s) ts
          (systemCores s).

Definition withCores (s : SchedulerOpen) (cs : list systemCore) : SchedulerOpen :=
  mkSched (m_core_mask s) (mappingEpoch s) (queuePolicy s) (numberOfTasks s)
          (openTasks s) cs.

Definition setAssignedTaskID (c : systemCore) (t : Z) : systemCore :=
  mkCore (coreID c) t (assignedThreadID c).

Definition setAssignedThreadID (c : systemCore) (t : Z) : systemCore :=
  mkCore (coreID c) (assignedTaskID c) t.

(** [waitingInQueue = true; waitingToSchedule = false;] *)
Definition putIntoQueue (t : openTask) : openTask :=
  mkTask (taskID t) (taskName t) false true (active t) (completed t)
         (taskCoreRequirement t) (taskArrivalTime t) (taskStartTime t)
         (taskDepartureTime t).

(** The four assignments of [schedule] after a successful mapping. *)
Definition markStarted (t : openTask) (now : Z) : openTask :=
  mkTask (taskID t) (taskName t) false false true (completed t)
         (taskCoreRequirement t) (taskArrivalTime t) now (taskDepartureTime t).

(** The three assignments of [threadExit] for a finished task. *)
Definition markDeparted (t : openTask) (now : Z) : openTask :=
  mkTask (taskID t) (taskName t) (waitingToSchedule t) (waitingInQueue t) false true
         (taskCoreRequirement t) (taskArrivalTime t) (taskStartTime t) now.

Definition setArrivalTime (t : openTask) (a : Z) : openTask :=
  mkTask (taskID t) (taskName t) (waitingToSchedule t) (waitingInQueue t) (active t)
         (completed t) (taskCoreRequirement t) a (taskStartTime t)
         (taskDepartureTime t).

(** [v[i]] for an [int] index: outside the vector the behaviour is undefined. *)
Definition at_index {A : Type} (l : list A) (i : Z) : outcome A :=
  if i <? 0 then Fault
  else match l !! Z.to_nat i with
       | Some x => Ok x
       | None => Fault
       end.

(** A counting or summing loop over a vector:
    [for (i = 0; i < n; i++) counter += f (v[i]);] *)
Fixpoint sumOver {A : Type} (f : A -> Z) (l : list A) : Z :=
  match l with
  | [] => 0
  | x :: l' => f x + sumOver f l'
  end.

Definition b2z (b : bool) : Z := if b then 1 else 0.

Definition isAssignedToTask (c : systemCore) : bool := negb (assignedTaskID c =? -1).
Definition isAssignedToThread (c : systemCore) : bool := negb (assignedThreadID c =? -1).

Definition numberOfFreeCores (s : SchedulerOpen) : Z :=
  sumOver (fun c => b2z (assignedTaskID c =? -1)) (systemCores s).

Definition numberOfTasksInQueue (s : SchedulerOpen) : Z :=
  sumOver (fun t => b2z (waitingInQueue t)) (openTasks s).

Definition numberOfTasksWaitingToSchedule (s : SchedulerOpen) : Z :=
  sumOver (fun t => b2z (waitingToSchedule t)) (openTasks s).

Definition numberOfTasksCompleted (s : SchedulerOpen) : Z :=
  sumOver (fun t => b2z (completed t)) (openTasks s).

Definition numberOfActiveTasks (s : SchedulerOpen) : Z :=
  sumOver (fun t => b2z (active t)) (openTasks s).

Definition totalCoreRequirementsOfActiveTasks (s : SchedulerOpen) : Z :=
  sumOver (fun t => if active t then taskCoreRequirement t else 0) (openTasks s).

(** Number of cores whose [assignedTaskID] is set (left side of invariant I1). *)
Definition numberOfAssignedCores (s : SchedulerOpen) : Z :=
  sumOver (fun c => b2z (isAssignedToTask c)) (systemCores s).

(** ** Grid construction (constructor, lines 45-53) *)

(** [while ((numberOfCores % coreRows) != 0) coreRows -= 1;] *)
Fixpoint shrinkRows (numberOfCores : Z) (coreRows : nat) : outcome Z :=
  match coreRows with
  | O => Fault
  | S r =>
      if Z.rem numberOfCores (Z.of_nat coreRows) =? 0
      then Ok (Z.of_nat coreRows)
      else shrinkRows numberOfCores r
  end.

(** [(int) sqrt (numberOfCores)] is the integer square root for every [int]:
    the double-precision root of an integer below 2^52 never rounds up to
    the next integer. *)
Definition gridSetup (numberOfCores : Z) : outcome (Z * Z) :=
  coreRows ← shrinkRows numberOfCores (Z.to_nat (Z.sqrt numberOfCores));
  let coreColumns := numberOfCores ÷ coreRows in
  if coreRows * coreColumns =? numberOfCores
  then Ok (coreRows, coreColumns)
  else Exit InvalidSystemSize.

(** ** Core coordinates ([getCoreNb], lines 343-349) *)

(** [getCoreNb (y, x)] on the grid of [coreRows] by [coreColumns] cells;
    [None] is the exit with the message "Invalid core coordinates". *)
Definition getCoreNb (coreRows coreColumns y x : Z) : option Z :=
  if (y <? 0) || (y >=? coreRows) || (x <? 0) || (x >=? coreColumns) then None
  else Some (y * coreColumns + x).

(** ** Round-robin core selection ([getNextCore], lines 616-630) *)

(** The loop body of [getNextCore] before the mask is read.  [m_interleaving]
    belongs to the base class and is passed in.  The wrap-around branch is
    taken for a [core_id] that is at least the (nonnegative) number of
    cores, so both [%] work on nonnegative left operands; a zero divisor
    is a [Fault]. *)
Definition advanceCore (m_interleaving applicationCores core_id : Z) : outcome Z :=
  let core_id := core_id + m_interleaving in
  if core_id >=? applicationCores then
    if (applicationCores =? 0) || (m_interleaving =? 0) then Fault
    else Ok (Z.rem (Z.rem core_id applicationCores + 1) m_interleaving)
  else Ok core_id.

(** [while (true)]: [None] when the loop is still running after [fuel]
    passes; reading the mask outside its bounds is a [Fault]. *)
Fixpoint getNextCore (fuel : nat) (m_core_mask : list bool)
    (m_interleaving applicationCores core_id : Z) : option (outcome Z) :=
  match fuel with
  | O => None
  | S fuel' =>
      match advanceCore m_interleaving applicationCores core_id with
      | Ok core_id' =>
          match at_index m_core_mask core_id' with
          | Ok true => Some (Ok core_id')
          | Ok false =>
              getNextCore fuel' m_core_mask m_interleaving applicationCores core_id'
          | Exit e => Some (Exit e)
          | Fault => Some Fault
          end
      | Exit e => Some (Exit e)
      | Fault => Some Fault
      end
  end.

(** ** Benchmark profile table ([coreRequirementTranslation], lines 663-759) *)

(** [compositionString.find ('-', pos)] stored in an [int]: [npos] becomes -1. *)
Definition find_dash (s : string) (pos : Z) : Z :=
  match index (Z.to_nat pos) "-" s with
  | Some n => Z.of_nat n
  | None => -1
  end.

(** [s.substr (pos, len)]: the arguments are converted to [size_t], so a
    negative [len] means "up to the end"; [pos] beyond the end throws. *)
Definition substr (s : string) (pos len : Z) : outcome string :=
  if (pos <? 0) || (Z.of_nat (String.length s) <? pos) then Fault
  else Ok (substring (Z.to_nat pos)
                     (if len <? 0 then String.length s else Z.to_nat len) s).

Definition isSpace (c : ascii) : bool :=
  let n := nat_of_ascii c in
  ((n =? 32) || ((9 <=? n) && (n <=? 13)))%nat.

Definition isDigit (c : ascii) : bool :=
  let n := nat_of_ascii c in ((48 <=? n) && (n <=? 57))%nat.

Fixpoint skipSpaces (s : string) : string :=
  match s with
  | String c r => if isSpace c then skipSpaces r else s
  | EmptyString => s
  end.

Fixpoint readDigits (s : string) (acc : Z) : Z :=
  match s with
  | String c r =>
      if isDigit c
      then readDigits r (10 * acc + (Z.of_nat (nat_of_ascii c) - 48))
      else acc
  | EmptyString => acc
  end.

(** The number a text starts with, read as [strtol] and [atoi] read it:
    leading white space, an optional sign, then decimal digits; 0 when
    there is no digit. *)
Definition decimalValue (s : string) : Z :=
  match skipSpaces s with
  | String "-"%char r => - readDigits r 0
  | String "+"%char r => readDigits r 0
  | r => readDigits r 0
  end.

(** The conversion to [int]: the value modulo 2^32, in two's complement. *)
Definition toInt (z : Z) : Z := (z + 2 ^ 31) mod 2 ^ 32 - 2 ^ 31.

(** [strtol] answers [LONG_MIN] or [LONG_MAX] for a number outside [long]. *)
Definition clampLong (z : Z) : Z := Z.max (- 2 ^ 63) (Z.min (2 ^ 63 - 1) z).

(** [atoi] is [(int) strtol (s, NULL, 10)]: the result is an [int], so
    "4294967297" reads as 1 and "3000000000" as -1294967296. *)
Definition atoi (s : string) : Z := toInt (clampLong (decimalValue s)).

Definition upTo16 : list Z := [1; 2; 3; 4; 5; 6; 7; 8; 9; 10; 11; 12; 13; 14; 15; 16].
Definition from2To16 : list Z := [2; 3; 4; 5; 6; 7; 8; 9; 10; 11; 12; 13; 14; 15; 16].
Definition powersOfTwo : list Z := [1; 2; 0; 4; 0; 0; 0; 8; 0; 0; 0; 0; 0; 0; 0; 16].

(** The [requirements] vector selected by the chain of comparisons; it stays
    empty for an unknown benchmark of a known suite. *)
Definition requirementsOf (suite benchmark : string) : outcome (list Z) :=
  if (suite =? "parsec")%string then
    Ok (if (benchmark =? "blackscholes")%string then from2To16
        else if (benchmark =? "bodytrack")%string
             then [3; 4; 5; 6; 7; 8; 9; 10; 11; 12; 13; 14; 15; 16]
        else if (benchmark =? "canneal")%string then from2To16
        else if (benchmark =? "dedup")%string then [4; 7; 10; 13; 16]
        else if (benchmark =? "ferret")%string then [7; 11; 15]
        else if (benchmark =? "fluidanimate")%string then [2; 3; 0; 5; 0; 0; 0; 9]
        else if (benchmark =? "streamcluster")%string then from2To16
        else if (benchmark =? "swaptions")%string then from2To16
        else if (benchmark =? "x264")%string then [1; 3; 4; 5; 6; 7; 8; 9]
        else [])
  else if (suite =? "splash2")%string then
    Ok (if (benchmark =? "barnes")%string then upTo16
        else if (benchmark =? "cholesky")%string then upTo16
        else if (benchmark =? "fft")%string then powersOfTwo
        else if (benchmark =? "fmm")%string then upTo16
        else if (benchmark =? "lu.cont")%string then upTo16
        else if (benchmark =? "lu.ncont")%string then upTo16
        else if (benchmark =? "ocean.cont")%string then powersOfTwo
        else if (benchmark =? "ocean.ncont")%string then powersOfTwo
        else if (benchmark =? "radiosity")%string then upTo16
        else if (benchmark =? "radix")%string then powersOfTwo
        else if (benchmark =? "raytrace")%string then upTo16
        else if (benchmark =? "water.nsq")%string then upTo16
        else if (benchmark =? "water.sp")%string then powersOfTwo
        else [])
  else Exit UnknownSuite.

Definition coreRequirementTranslation (compositionString : string) : outcome Z :=
  let del1 := find_dash compositionString 0 in
  let del2 := find_dash compositionString (del1 + 1) in
  let del3 := find_dash compositionString (del2 + 1) in
  suite ← substr compositionString 0 del1;
  benchmark ← substr compositionString (del1 + 1) (del2 - del1 - 1);
  input ← substr compositionString (del2 + 1) (del3 - del2 - 1);
  digits ← substr compositionString (del3 + 1)
             (Z.of_nat (String.length compositionString) - del3 - 1);
  let parallelism := atoi digits in
  if parallelism <? 1 then Exit ParallelismBelowOne
  else
    requirements ← requirementsOf suite benchmark;
    if parallelism - 1 <? Z.of_nat (length requirements)
    then at_index requirements (parallelism - 1)
    else Exit ProfileMissing.

(** ** Arrival-time generator (constructor, lines 70-109) *)

(** The part of [<random>] the constructor uses.  [seed_engine s] is
    [std::mt19937 generator (s)], [next_engine] is one call [generator ()],
    and [exponential i g] is [(UInt64) expdistribution (generator)] for the
    distribution built with [lambda = 1.0 / i]: the sample, truncated to
    [UInt64], and the state the generator is left in. *)
Class RandomLibrary : Type := {
  engine : Type;
  seed_engine : Z -> engine;
  next_engine : engine -> Z * engine;
  exponential : Z -> engine -> Z * engine
}.

(** The configuration entries under [scheduler/open] that the arrival
    times depend on: the rate and the interval are texts, which the
    constructor reads with [atoi] (lines 40-41); the seed is the number
    that [getInt] answers, which line 87 stores in an [int]. *)
Record arrivalConfig : Type := mkArrival {
  distribution : string;
  arrivalRate : string;
  arrivalInterval : string;
  explicitArrivalTimes : list Z;
  distributionSeed : Z
}.

(** [taskIterator % arrivalRate == 0 && taskIterator != 0] *)
Definition advances (arrivalRate taskIterator : Z) : bool :=
  (Z.rem taskIterator arrivalRate =? 0) && negb (taskIterator =? 0).

(** The uniform loop, started at task [taskIterator] with running time
    [time]; it yields the times assigned to the remaining [n] tasks. *)
Fixpoint uniformLoop (arrivalRate arrivalInterval : Z) (n : nat)
    (taskIterator time : Z) : outcome (list Z) :=
  match n with
  | O => Ok []
  | S n' =>
      if arrivalRate =? 0 then Fault
      else
        let time' := if advances arrivalRate taskIterator
                     then u64 (time + arrivalInterval) else time in
        rest ← uniformLoop arrivalRate arrivalInterval n' (taskIterator + 1) time';
        Ok (time' :: rest)
  end.

(** The explicit loop: a missing configuration entry aborts the reader. *)
Fixpoint explicitLoop (times : list Z) (n : nat) (taskIterator : Z) : outcome (list Z) :=
  match n with
  | O => Ok []
  | S n' =>
      time ← at_index times taskIterator;
      rest ← explicitLoop times n' (taskIterator + 1);
      Ok (u64 time :: rest)
  end.

Fixpoint poissonLoop `{RandomLibrary} (arrivalRate arrivalInterval : Z) (n : nat)
    (taskIterator time : Z) (generator : engine) : outcome (list Z) :=
  match n with
  | O => Ok []
  | S n' =>
      if arrivalRate =? 0 then Fault
      else
        let '(time', generator') :=
          if advances arrivalRate taskIterator
          then let '(sample, g) := exponential arrivalInterval generator in
               (u64 (time + sample), g)
          else (time, generator) in
        rest ← poissonLoop arrivalRate arrivalInterval n' (taskIterator + 1) time' generator';
        Ok (time' :: rest)
  end.

(** The seed actually used: [int seed = getInt (...)], the configured
    number as an [int], or [seed = rd ()], a value of the system's random
    device stored in the same [int], when that [int] is 0. *)
Definition effectiveSeed (configured rd : Z) : Z :=
  let seed := toInt configured in
  if seed =? 0 then toInt rd else seed.

Definition poissonArrivalTimes `{RandomLibrary} (cfg : arrivalConfig) (rd : Z)
    (numberOfTasks : nat) : outcome (list Z) :=
  let seed := effectiveSeed (distributionSeed cfg) rd in
  let generator := seed_engine seed in
  let '(_, generator) := next_engine generator in
  poissonLoop (atoi (arrivalRate cfg)) (atoi (arrivalInterval cfg)) numberOfTasks 0 0
    generator.

(** The arrival times of tasks 0 .. numberOfTasks-1, in task order. *)
Definition arrivalTimes `{RandomLibrary} (cfg : arrivalConfig) (rd : Z)
    (numberOfTasks : nat) : outcome (list Z) :=
  if (distribution cfg =? "uniform")%string then
    uniformLoop (atoi (arrivalRate cfg)) (atoi (arrivalInterval cfg)) numberOfTasks 0 0
  else if (distribution cfg =? "explicit")%string then
    explicitLoop (explicitArrivalTimes cfg) numberOfTasks 0
  else if (distribution cfg =? "poisson")%string then
    poissonArrivalTimes cfg rd numberOfTasks
  else Exit UnknownDistribution.

(** [openTasks[taskIterator].taskArrivalTime = time] for every task. *)
Definition assignArrivalTimes (tasks : list openTask) (times : list Z) : list openTask :=
  zip_with setArrivalTime tasks times.

(** A linear congruential generator with a remainder as its "exponential"
    sample: an instance of the interface on which the definitions above can
    be run.  It stands for no particular C++ library. *)
Definition lcgRandom : RandomLibrary := {|
  engine := Z;
  seed_engine := fun s => s mod 2 ^ 32;
  next_engine := fun g => let g' := (1103515245 * g + 12345) mod 2 ^ 31 in (g', g');
  exponential := fun i g =>
    let g' := (1103515245 * g + 12345) mod 2 ^ 31 in (g' mod (2 * Z.abs i + 1), g')
|}.

(** Arrival times are nondecreasing in the task index. *)
Definition nondecreasing (l : list Z) : Prop :=
  forall (i j : nat) (a b : Z), (i <= j)%nat -> l !! i = Some a -> l !! j = Some b -> a <= b.

(** ** Collaborators outside scheduler_open.cc *)

(** The mapping policy object ([mappingPolicy->map (...)]): given the task
    name, the number of cores required, and the vectors of available and of
    active cores, it returns the chosen core indices. *)
Class MappingPolicy : Type := {
  policy_map : string -> Z -> list bool -> list bool -> list Z
}.

(** The host's thread manager:
    [Sim()->getThreadManager()->getThreadFromID (thread_id)->getAppId ()]. *)
Class ThreadManager : Type := {
  getAppId : Z -> Z
}.

(** Modelled from the spec: policies/mapFirstUnused.h is not part of the
    sources at hand.  "Walks a configured list of preferred cores.  Returns
    the first required_count preferred cores that are currently available,
    in preference order.  If fewer are available, returns a short list." *)
Definition isAvailable (available : list bool) (p : Z) : bool :=
  (0 <=? p) && default false (available !! Z.to_nat p).

Definition MapFirstUnused (preferredCoresOrder : list Z) : MappingPolicy := {|
  policy_map := fun _ required available _ =>
    take (Z.to_nat required) (List.filter (isAvailable available) preferredCoresOrder)
|}.

(** The host used in the examples: thread i belongs to application i for the
    first [n] threads (the primary threads); every other thread is a worker
    of application [worker_app]. *)
Definition simpleHost (n worker_app : Z) : ThreadManager := {|
  getAppId := fun thread_id =>
    if (0 <=? thread_id) && (thread_id <? n) then thread_id else worker_app
|}.

(** The contract of the mapping interface (spec, section 4.3), as far as the
    scheduler relies on it: a result that is long enough has exactly the
    required length and consists of distinct indices of available cores. *)
Definition policyContract `{MappingPolicy} : Prop :=
  forall (name : string) (required : Z) (available active : list bool),
    let bestCores := policy_map name required available active in
    0 <= required -> required <= Z.of_nat (length bestCores) ->
    Z.of_nat (length bestCores) = required /\
    NoDup bestCores /\
    forall b, b ∈ bestCores -> 0 <= b /\ available !! Z.to_nat b = Some true.

(** The part of the mapping contract on which I3 relies: every returned
    index is the index of an available core. *)
Definition policyAvailable `{MappingPolicy} : Prop :=
  forall (name : string) (required : Z) (available active : list bool) (b : Z),
    b ∈ policy_map name required available active ->
    0 <= b /\ available !! Z.to_nat b = Some true.

(** ** Admission and dispatch *)

Section Engine.
Context `{MappingPolicy} `{ThreadManager}.

(** The index found by a loop that breaks at the first match, -1 if none. *)
Definition firstIndex {A : Type} (p : A -> bool) (l : list A) : Z :=
  match list_find (fun x => p x = true) l with
  | Some (i, _) => Z.of_nat i
  | None => -1
  end.

Definition taskFrontOfQueue (s : SchedulerOpen) : outcome Z :=
  if (queuePolicy s =? "FIFO")%string
  then Ok (firstIndex waitingInQueue (openTasks s))
  else Exit UnknownQueuingPolicy.

(** [setAffinity]: the calls of [threadSetAffinity] only touch the state
    of the base class (thread affinities, quanta), which is not part of
    this model. *)
Definition setAffinity (s : SchedulerOpen) (thread_id : Z) : Z * SchedulerOpen :=
  let app_id := getAppId thread_id in
  let coreFound :=
    firstIndex (fun c => (assignedTaskID c =? app_id) && (assignedThreadID c =? -1))
               (systemCores s) in
  if coreFound =? -1 then (coreFound, s)
  else (coreFound,
        withCores s (alter (fun c => setAssignedThreadID c thread_id)
                           (Z.to_nat coreFound) (systemCores s))).

(** [m_core_mask] has one entry per core (the constructor resizes it);
    the model reads [false] where an entry is missing. *)
Definition availableCores (s : SchedulerOpen) : list bool :=
  imap (fun i c => default false (m_core_mask s !! i) && negb (isAssignedToTask c))
       (systemCores s).

Definition activeCores (s : SchedulerOpen) : list bool :=
  isAssignedToTask <$> systemCores s.

(** [systemCores[bestCores.at (i)].assignedTaskID = taskID] for every i. *)
Fixpoint assignCores (taskID : Z) (bestCores : list Z) (cores : list systemCore)
    : outcome (list systemCore) :=
  match bestCores with
  | [] => Ok cores
  | b :: rest =>
      c ← at_index cores b;
      assignCores taskID rest (<[Z.to_nat b := setAssignedTaskID c taskID]> cores)
  end.

Definition executeMappingPolicy (s : SchedulerOpen) (taskID : Z) (time : Z)
    : outcome (bool * SchedulerOpen) :=
  task ← at_index (openTasks s) taskID;
  let bestCores :=
    policy_map (taskName task) (taskCoreRequirement task)
               (availableCores s) (activeCores s) in
  if Z.of_nat (length bestCores) <? taskCoreRequirement task then Ok (false, s)
  else
    cores ← assignCores taskID bestCores (systemCores s);
    Ok (true, withCores s cores).

Definition updateTask (s : SchedulerOpen) (taskID : Z) (f : openTask -> openTask)
    : SchedulerOpen :=
  withTasks s (alter f (Z.to_nat taskID) (openTasks s)).

Definition schedule (s : SchedulerOpen) (taskID : Z) (isInitialCall : bool) (time : Z)
    : outcome (bool * SchedulerOpen) :=
  task ← at_index (openTasks s) taskID;
  if taskArrivalTime task >? time then Ok (false, s)
  else
    let s := updateTask s taskID putIntoQueue in
    front ← taskFrontOfQueue s;
    if negb (front =? taskID) then Ok (false, s)
    else if numberOfFreeCores s <? taskCoreRequirement task then Ok (false, s)
    else
      '(mappingSuccesfull, s) ← executeMappingPolicy s taskID time;
      if (mappingSuccesfull : bool) then
        let s := if isInitialCall then s else snd (setAffinity s taskID) in
        Ok (true, updateTask s taskID (fun t => markStarted t time))
      else Ok (false, s).

(** The state after the optional [setAffinity (taskID)] of [schedule]. *)
Definition attach (isInitialCall : bool) (taskID : Z) (s : SchedulerOpen) : SchedulerOpen :=
  if isInitialCall then s else snd (setAffinity s taskID).

(** [threadCreate]: [time] is the global time read from the host and
    [free_core_id] is what the base class's [findFreeCoreForThread]
    answers after the affinity has been set.  That question is asked only
    once [threadSetInitialAffinity] (lines 465-470) has returned, for a
    thread without affinity; its [getFreeCore] and [getNextCore] work on
    the thread table of the base class and change nothing of the state
    kept here, and are modelled on their own ([getNextCore] above).  A
    call in which the loop of [getNextCore] does not end, as when the
    mask allows no core, has no [free_core_id] and is no run of this
    function: a result [Ok] or [Exit] here describes the calls that get
    past line 470, and says nothing on whether the call gets there. *)
Definition threadCreate (s : SchedulerOpen) (thread_id time free_core_id : Z)
    : outcome (Z * SchedulerOpen) :=
  s ← (if thread_id =? 0 then
         '(mapped, s') ← schedule s 0 true time;
         if (mapped : bool) then Ok s' else Exit TaskZeroNotMapped
       else if (0 <? thread_id) && (thread_id <? numberOfTasks s) then
         '(_, s') ← schedule s thread_id true time; Ok s'
       else Ok s);
  let s := snd (setAffinity s thread_id) in
  if negb (free_core_id =? INVALID_CORE_ID) then Ok (free_core_id, s)
  else if thread_id >=? numberOfTasks s then Exit NonInitialThreadWithoutCore
  else Ok (INVALID_CORE_ID, s).

Definition fetchTasksIntoQueue (s : SchedulerOpen) (time : Z) : SchedulerOpen :=
  withTasks s
    ((fun t => if waitingToSchedule t && (taskArrivalTime t <=? time)
               then putIntoQueue t else t)
       <$> openTasks s).

(** The search for [nextArrivalTime] in [threadExit]; 0 means "none yet". *)
Definition nextArrivalTime (tasks : list openTask) : Z :=
  fold_left
    (fun next t =>
       if waitingToSchedule t then
         if next =? 0 then taskArrivalTime t
         else if next >? taskArrivalTime t then taskArrivalTime t
         else next
       else next)
    tasks 0.

(** [openTasks[taskIterator].taskArrivalTime -= timeJump] for waiting tasks. *)
Definition readjust (timeJump : Z) (t : openTask) : openTask :=
  if waitingToSchedule t then setArrivalTime t (u64 (taskArrivalTime t - timeJump))
  else t.

(** The time jump proper (lines 558-588): [Exit] when no arrival time was
    found, else the tasks with readjusted arrival times. *)
Definition timeJumpTasks (tasks : list openTask) (time : Z) : outcome (list openTask) :=
  let next := nextArrivalTime tasks in
  if next =? 0 then Exit NextArrivalTimeZero
  else
    let timeJump := u64 (next - time) in
    Ok (readjust timeJump <$> tasks).

(** The block "System Going Empty ... Prefetching Tasks" of [threadExit]. *)
Definition prefetch (s : SchedulerOpen) (time : Z) : outcome SchedulerOpen :=
  if (numberOfFreeCores s =? numberOfCores s)
     && negb (numberOfTasksWaitingToSchedule s =? 0) then
    if negb (numberOfTasksInQueue s =? 0) then
      front ← taskFrontOfQueue s;
      '(_, s') ← schedule s front false time;
      Ok s'
    else if negb (numberOfTasksWaitingToSchedule s =? 0) then
      tasks ← timeJumpTasks (openTasks s) time;
      let s := fetchTasksIntoQueue (withTasks s tasks) time in
      front ← taskFrontOfQueue s;
      '(_, s') ← schedule s front false time;
      Ok s'
    else Ok s
  else Ok s.

Definition detachThread (thread_id : Z) (c : systemCore) : systemCore :=
  if assignedThreadID c =? thread_id then setAssignedThreadID c (-1) else c.

Definition releaseTask (app_id : Z) (c : systemCore) : systemCore :=
  if assignedTaskID c =? app_id then setAssignedTaskID c (-1) else c.

(** [threadExit]; the reschedule request and the affinity pushed to the
    host belong to the base class, the printed results are not modelled.
    The average at the end divides by [numberOfTasks]. *)
Definition threadExit (s : SchedulerOpen) (thread_id time : Z) : outcome SchedulerOpen :=
  let app_id := getAppId thread_id in
  let s := withCores s (detachThread thread_id <$> systemCores s) in
  s ← (if thread_id <? numberOfTasks s then
         let s := withCores s (releaseTask app_id <$> systemCores s) in
         _ ← at_index (openTasks s) app_id;
         Ok (updateTask s app_id (fun t => markDeparted t time))
       else Ok s);
  s ← prefetch s time;
  if (numberOfTasksCompleted s =? numberOfTasks s) && (numberOfTasks s =? 0)
  then Fault
  else Ok s.

(** [while (numberOfTasksInQueue () != 0)
       if (!schedule (taskFrontOfQueue (), false, time)) break;]
    Every successful pass takes one task out of the queue, so the loop
    body runs at most once per queued task, plus one failing pass; [fuel]
    bounds the number of passes (see [drainQueue_fuel]). *)
Fixpoint drainQueue (fuel : nat) (s : SchedulerOpen) (time : Z) : outcome SchedulerOpen :=
  if numberOfTasksInQueue s =? 0 then Ok s
  else
    match fuel with
    | O => Fault
    | S fuel' =>
        front ← taskFrontOfQueue s;
        '(mapped, s') ← schedule s front false time;
        if (mapped : bool) then drainQueue fuel' s' time else Ok s'
    end.

(** [periodic]: the two consistency checks every millisecond, the queue
    drain every mapping epoch.  The printed map and the quantum
    accounting of the base class are not modelled. *)
Definition periodic (s : SchedulerOpen) (time : Z) : outcome SchedulerOpen :=
  _ ← (if time mod 1000000 =? 0 then
         if negb (numberOfCores s - totalCoreRequirementsOfActiveTasks s
                  =? numberOfFreeCores s)
         then Exit CapacityMismatch
         else if negb (numberOfActiveTasks s + numberOfTasksCompleted s
                       + numberOfTasksInQueue s + numberOfTasksWaitingToSchedule s
                       =? numberOfTasks s)
         then Exit TaskStateMismatch
         else Ok tt
       else Ok tt);
  if u64 (mappingEpoch s) =? 0 then Fault
  else if time mod u64 (mappingEpoch s) =? 0 then
    drainQueue (S (length (openTasks s))) (fetchTasksIntoQueue s time) time
  else Ok s.

(** The calls the host (or the scheduler's own code) makes. *)
Inductive hook : Type :=
  | Schedule (taskID : Z) (isInitialCall : bool) (time : Z)
  | SetAffinity (thread_id : Z)
  | ThreadCreate (thread_id time free_core_id : Z)
  | ThreadExit (thread_id time : Z)
  | Periodic (time : Z).

Definition runHook (s : SchedulerOpen) (h : hook) : outcome SchedulerOpen :=
  match h with
  | Schedule taskID isInitialCall time =>
      '(_, s') ← schedule s taskID isInitialCall time; Ok s'
  | SetAffinity thread_id => Ok (snd (setAffinity s thread_id))
  | ThreadCreate thread_id time free_core_id =>
      '(_, s') ← threadCreate s thread_id time free_core_id; Ok s'
  | ThreadExit thread_id time => threadExit s thread_id time
  | Periodic time => periodic s time
  end.

Fixpoint runHooks (s : SchedulerOpen) (hs : list hook) : outcome SchedulerOpen :=
  match hs with
  | [] => Ok s
  | h :: rest => s' ← runHook s h; runHooks s' rest
  end.

(** States reached from [init] by hooks that return, each of which is
    called in a state where [allowed] permits it. *)
Inductive reachable (allowed : SchedulerOpen -> hook -> Prop) (init : SchedulerOpen)
    : SchedulerOpen -> Prop :=
  | reach_init : reachable allowed init init
  | reach_step (s s' : SchedulerOpen) (h : hook) :
      reachable allowed init s -> allowed s h -> runHook s h = Ok s' ->
      reachable allowed init s'.

(** Number of cores assigned to task [t]. *)
Definition coresOfTask (s : SchedulerOpen) (t : Z) : Z :=
  sumOver (fun c => b2z (assignedTaskID c =? t)) (systemCores s).

(** The state the constructor leaves: every core unassigned and
    unattached, every task waiting to be scheduled, with a core
    requirement taken from the profile table (none is negative). *)
Definition initialState (s : SchedulerOpen) : Prop :=
  Forall (fun c => assignedTaskID c = -1 /\ assignedThreadID c = -1) (systemCores s) /\
  Forall (fun t => waitingToSchedule t = true /\ waitingInQueue t = false /\
                   active t = false /\ completed t = false /\
                   0 <= taskCoreRequirement t) (openTasks s).

(** Invariant I1. *)
Definition capacity (s : SchedulerOpen) : Prop :=
  numberOfAssignedCores s = totalCoreRequirementsOfActiveTasks s.

(** Invariant I3. *)
Definition threadCoreTaskConsistent (s : SchedulerOpen) : Prop :=
  forall (i : nat) (c : systemCore),
    systemCores s !! i = Some c -> assignedThreadID c <> -1 ->
    assignedTaskID c <> -1 /\ getAppId (assignedThreadID c) = assignedTaskID c.

(** The core requirement a task contributes to the right side of I1. *)
Definition activeRequirement (t : openTask) : Z :=
  if active t then taskCoreRequirement t else 0.

(** The inductive strengthening of I1: besides I1 itself, every task holds
    exactly its requirement of cores while Active and none otherwise, and
    an Active task is neither Queued nor WaitingToSchedule; no core
    requirement is negative. *)
Definition capacityInv (s : SchedulerOpen) : Prop :=
  capacity s /\
  (forall (i : nat) (t : openTask),
     openTasks s !! i = Some t -> coresOfTask s (Z.of_nat i) = activeRequirement t) /\
  (forall (i : nat) (t : openTask),
     openTasks s !! i = Some t -> active t = true ->
     waitingInQueue t = false /\ waitingToSchedule t = false) /\
  (forall (i : nat) (t : openTask),
     openTasks s !! i = Some t -> 0 <= taskCoreRequirement t).

(** A function of a core record that looks at [assignedTaskID] only. *)
Definition taskIdOnly (f : systemCore -> Z) : Prop :=
  forall c c', assignedTaskID c = assignedTaskID c' -> f c = f c'.

Definition taskIsActive (s : SchedulerOpen) (taskID : Z) : Prop :=
  exists t, at_index (openTasks s) taskID = Ok t /\ active t = true.

(** The host's protocol on which I1 relies: [schedule] is not called
    (directly or by [threadCreate] of a primary thread) for a task that is
    Active. *)
Definition notRescheduled (s : SchedulerOpen) (h : hook) : Prop :=
  match h with
  | Schedule taskID _ _ => ~ taskIsActive s taskID
  | ThreadCreate thread_id _ _ => ~ taskIsActive s thread_id
  | _ => True
  end.

(** The host's protocol on which I3 relies: when a primary thread exits,
    no other thread is attached to a core of its task. *)
Definition workersGone (s : SchedulerOpen) (h : hook) : Prop :=
  match h with
  | ThreadExit thread_id _ =>
      thread_id < numberOfTasks s ->
      forall (i : nat) (c : systemCore),
        systemCores s !! i = Some c -> assignedTaskID c = getAppId thread_id ->
        assignedThreadID c = -1 \/ assignedThreadID c = thread_id
  | _ => True
  end.

End Engine.

(** ** Phases of a task *)

(** Exactly one of the four phase flags is set. *)
Definition onePhase (t : openTask) : Prop :=
  b2z (waitingToSchedule t) + b2z (waitingInQueue t)
  + b2z (active t) + b2z (completed t) = 1.

(** Every task is in exactly one phase, and an Active task did not start
    before it arrived. *)
Definition lifecycleInv (s : SchedulerOpen) : Prop :=
  forall (i : nat) (t : openTask), openTasks s !! i = Some t ->
    onePhase t /\ (active t = true -> taskArrivalTime t <= taskStartTime t).

(** The task, if there is one with this index, is neither Active nor
    Completed. *)
Definition notStarted (s : SchedulerOpen) (taskID : Z) : Prop :=
  forall t, at_index (openTasks s) taskID = Ok t ->
            active t = false /\ completed t = false.

(** The order in which the host calls the hooks: a task is scheduled, and
    its primary thread is created, before the task is Active or Completed;
    a primary thread exits while its task is Active. *)
Definition hostProtocol `{ThreadManager} (s : SchedulerOpen) (h : hook) : Prop :=
  match h with
  | Schedule taskID _ _ => notStarted s taskID
  | ThreadCreate thread_id _ _ => notStarted s thread_id
  | ThreadExit thread_id _ =>
      thread_id < numberOfTasks s -> taskIsActive s (getAppId thread_id)
  | _ => True
  end.

(** What no operation changes in a task record, the two flags that only
    move one way, and the arrival time, which only the time jump changes,
    and only for a task that is still WaitingToSchedule. *)
Definition taskStep (t t' : openTask) : Prop :=
  taskID t' = taskID t /\ taskName t' = taskName t /\
  taskCoreRequirement t' = taskCoreRequirement t /\
  (waitingToSchedule t = false -> waitingToSchedule t' = false) /\
  (completed t = true -> completed t' = true) /\
  (waitingToSchedule t = false -> taskArrivalTime t' = taskArrivalTime t).

Definition coreStep (c c' : systemCore) : Prop := coreID c' = coreID c.

(** The relation between the state before and after a call. *)
Definition sameFrame (s s' : SchedulerOpen) : Prop :=
  m_core_mask s' = m_core_mask s /\ mappingEpoch s' = mappingEpoch s /\
  queuePolicy s' = queuePolicy s /\
  Forall2 taskStep (openTasks s) (openTasks s') /\
  Forall2 coreStep (systemCores s) (systemCores s') /\
  numberOfTasks s' = numberOfTasks s.

(** No task asks for a negative number of cores (the profile table of
    [coreRequirementTranslation] has none). *)
Definition requirementsNonneg (s : SchedulerOpen) : Prop :=
  forall (i : nat) (t : openTask), openTasks s !! i = Some t -> 0 <= taskCoreRequirement t.

(** ** Admission order *)







(** ** Printing times ([formatLong] and [formatTime], lines 846-861) *)

(** The decimal digit [d] (0 .. 9) as a character. *)
Definition digitChar (d : Z) : ascii := ascii_of_nat (48 + Z.to_nat d).

(** The decimal digits of [n >= 0], most significant first, in front of
    [acc]; a number below 10^fuel is written completely. *)
Fixpoint digitsOf (fuel : nat) (n : Z) (acc : string) : string :=
  match fuel with
  | O => acc
  | S fuel' =>
      let acc' := String (digitChar (n mod 10)) acc in
      if n <? 10 then acc' else digitsOf fuel' (n / 10) acc'
  end.

(** [ss << l] for a [long]: a 64-bit number has at most 19 digits. *)
Definition showLong (l : Z) : string :=
  if l <? 0 then String "-" (digitsOf 19 (- l) "") else digitsOf 19 l "".

(** [std::setfill ('0') << std::setw (3) << curr] *)
Definition padThree (curr : Z) : string :=
  let text := showLong curr in
  match String.length text with
  | 0%nat => String "0" (String "0" (String "0" text))
  | 1%nat => String "0" (String "0" text)
  | 2%nat => String "0" text
  | _ => text
  end.

(** The recursion of [formatLong]; a [long] has at most seven groups of
    three digits, so [fuel] 6 is never used up. *)
Fixpoint formatLongGroups (fuel : nat) (l : Z) : string :=
  if l <? 1000 then showLong l
  else
    match fuel with
    | O => EmptyString
    | S fuel' =>
        (formatLongGroups fuel' (l ÷ 1000) ++ "." ++ padThree (Z.rem l 1000))%string
    end.

Definition formatLong (l : Z) : string := formatLongGroups 6 l.

(** [formatTime] for a time of [ns] nanoseconds. *)
Definition formatTime (ns : Z) : string := (formatLong ns ++ " ns")%string.

(** A text with its dots taken out. *)
Fixpoint withoutDots (s : string) : string :=
  match s with
  | EmptyString => EmptyString
  | String c r => if Ascii.eqb c "." then withoutDots r else String c (withoutDots r)
  end.

(** The cores the mask does not allow are unassigned. *)
Definition maskedFree (s : SchedulerOpen) : Prop :=
  forall (i : nat) (c : systemCore),
    systemCores s !! i = Some c -> m_core_mask s !! i <> Some true -> assignedTaskID c = -1.

(** A task is WaitingToSchedule only if it arrives after [time]. *)
Definition arrivalsFetched (time : Z) (tasks : list openTask) : Prop :=
  forall (i : nat) (t : openTask),
    tasks !! i = Some t -> waitingToSchedule t = true -> time < taskArrivalTime t.

(** ** The constructor *)

(** The configuration entries the constructor reads.  An array entry that
    is missing makes the configuration reader abort, which is a [Fault]
    here. *)
Record configuration : Type := mkConfig {
  cfg_application_cores : Z;
  cfg_core_mask : list bool;
  cfg_epoch : Z;
  cfg_queuePolicy : string;
  cfg_arrival : arrivalConfig;
  cfg_num_apps : Z;
  cfg_benchmarks : string;
  cfg_logic : string;
  cfg_preferred_core : list Z
}.

(** [for (i = 0; i < n; i++) v.push_back (f (i));] for a fallible [f]. *)
Fixpoint tabulate {A : Type} (f : Z -> outcome A) (n : nat) (i : Z) : outcome (list A) :=
  match n with
  | O => Ok []
  | S n' => x ← f i; rest ← tabulate f n' (i + 1); Ok (x :: rest)
  end.

(** The task loop (lines 63-67): the name up to the first "+" is taken and
    erased together with the delimiter; without a delimiter the whole
    string is the name and nothing is erased. *)
Fixpoint initTasks (benchmarks : string) (n : nat) (taskIterator : Z)
    : outcome (list openTask) :=
  match n with
  | O => Ok []
  | S n' =>
      let '(taskName, rest) :=
        match index 0 "+" benchmarks with
        | Some k => (substring 0 k benchmarks,
                     substring (S k) (String.length benchmarks) benchmarks)
        | None => (benchmarks, benchmarks)
        end in
      requirement ← coreRequirementTranslation taskName;
      tasks ← initTasks rest n' (taskIterator + 1);
      Ok (newTask taskIterator taskName requirement :: tasks)
  end.

(** [initMappingPolicy]: the preferred cores are read up to the first -1,
    at most one per core. *)
Fixpoint preferredCores (preferred : list Z) (n : nat) (core_id : Z) : outcome (list Z) :=
  match n with
  | O => Ok []
  | S n' =>
      p ← at_index preferred core_id;
      if p =? -1 then Ok []
      else rest ← preferredCores preferred n' (core_id + 1); Ok (p :: rest)
  end.

Definition initMappingPolicy (cfg : configuration) : outcome MappingPolicy :=
  if (cfg_logic cfg =? "first_unused")%string then
    preferredCoresOrder ← preferredCores (cfg_preferred_core cfg)
                            (Z.to_nat (cfg_application_cores cfg)) 0;
    Ok (MapFirstUnused preferredCoresOrder)
  else Exit UnknownMappingAlgorithm.

(** The constructor: the scheduler's state, the grid and the mapping
    policy; [rd] is the value the random device would give. *)
Definition construct `{RandomLibrary} (cfg : configuration) (rd : Z)
    : outcome (SchedulerOpen * (Z * Z) * MappingPolicy) :=
  let numberOfCores := cfg_application_cores cfg in
  let numberOfTasks := cfg_num_apps cfg in
  m_core_mask ← tabulate (at_index (cfg_core_mask cfg)) (Z.to_nat numberOfCores) 0;
  grid ← gridSetup numberOfCores;
  systemCores ← tabulate (fun i => Ok (newCore i)) (Z.to_nat numberOfCores) 0;
  openTasks ← initTasks (cfg_benchmarks cfg) (Z.to_nat numberOfTasks) 0;
  times ← arrivalTimes (cfg_arrival cfg) rd (Z.to_nat numberOfTasks);
  mappingPolicy ← initMappingPolicy cfg;
  Ok (mkSched m_core_mask (cfg_epoch cfg) (cfg_queuePolicy cfg) numberOfTasks
              (assignArrivalTimes openTasks times) systemCores,
      grid, mappingPolicy).

(** The entry [traceinput/benchmarks] for the descriptors [names] followed
    by [last], joined by "+". *)
Fixpoint joinBenchmarks (names : list string) (last : string) : string :=
  match names with
  | [] => last
  | name :: rest => (name ++ "+" ++ joinBenchmarks rest last)%string
  end.

(** Seven cores (a prime number) and one task. *)
Definition sevenCores : configuration :=
  mkConfig 7 [true; true; true; true; true; true; true] 1000000 "FIFO"
           (mkArrival "uniform" "1" "1000" [] 0)
           1 "splash2-fft-small-2" "first_unused"
           [0; 1; 2; 3; 4; 5; 6].

(** Four cores and two tasks, the second with the descriptor
    parsec-fluidanimate-simsmall-3, whose table entry is 0. *)
Definition zeroProfile : configuration :=
  mkConfig 4 [true; true; true; true] 1000000 "FIFO"
           (mkArrival "uniform" "1" "1000" [] 0)
           2 "splash2-fft-small-2+parsec-fluidanimate-simsmall-3" "first_unused"
           [0; 1; 2; 3].


(** ** Example configurations *)

(** One task that needs two cores, on four cores in preference order. *)
Definition oneTaskFourCores : SchedulerOpen :=
  mkSched [true; true; true; true] 1000000 "FIFO" 1
          [newTask 0 "splash2-fft-small-2" 2]
          [newCore 0; newCore 1; newCore 2; newCore 3].


(** One task that needs two cores on two cores, the second masked out. *)
Definition maskedSecondCore : SchedulerOpen :=
  mkSched [true; false] 1000000 "FIFO" 1
          [newTask 0 "splash2-fft-small-2" 2]
          [newCore 0; newCore 1].

Definition firstFour : MappingPolicy := MapFirstUnused [0; 1; 2; 3].

(** [oneTaskFourCores] after [threadCreate (0)] at time 0. *)
Definition oneTaskStarted : SchedulerOpen :=
  Eval vm_compute in
    match @runHook firstFour (simpleHost 1 0) oneTaskFourCores (ThreadCreate 0 0 0) with
    | Ok s => s
    | _ => oneTaskFourCores
    end.

(** Two tasks that need both cores each, arriving at 0 and at 1000; the
    mapping epoch (1 ms) is later than both. *)
Definition twoTasksTwoCores : SchedulerOpen :=
  mkSched [true; true] 1000000 "FIFO" 2
          (assignArrivalTimes
             [newTask 0 "splash2-fft-small-2" 2; newTask 1 "splash2-fft-small-2" 2]
             [0; 1000])
          [newCore 0; newCore 1].

(** [twoTasksTwoCores] after both primary threads were created at time 0:
    task 0 is Active on both cores, task 1 is still WaitingToSchedule. *)
Definition twoTasksFirstRunning : SchedulerOpen :=
  Eval vm_compute in
    match @runHooks (MapFirstUnused [0; 1]) (simpleHost 2 0) twoTasksTwoCores
            [ThreadCreate 0 0 0; ThreadCreate 1 0 (-1)] with
    | Ok s => s
    | _ => twoTasksTwoCores
    end.

(** [twoTasksTwoCores] after the first primary thread was created. *)
Definition twoTasksFirstCreated : SchedulerOpen :=
  Eval vm_compute in
    match @runHook (MapFirstUnused [0; 1]) (simpleHost 2 0) twoTasksTwoCores
            (ThreadCreate 0 0 0) with
    | Ok s => s
    | _ => twoTasksTwoCores
    end.

(** [twoTasksFirstRunning] after the primary thread of task 0 has left at
    time 5000: the time jump has started task 1 in its place. *)
Definition twoTasksSecondRunning : SchedulerOpen :=
  Eval vm_compute in
    match @threadExit (MapFirstUnused [0; 1]) (simpleHost 2 0) twoTasksFirstRunning
            0 5000 with
    | Ok s => s
    | _ => twoTasksFirstRunning
    end.




(** [twoTasksFirstRunning] after the tick of [periodic] at 2 ms: task 1 has
    arrived and waits in the queue for the cores of task 0. *)
Definition twoTasksAfterTick : SchedulerOpen :=
  Eval vm_compute in
    match @periodic (MapFirstUnused [0; 1]) (simpleHost 2 0) twoTasksFirstRunning
            2000000 with
    | Ok s => s
    | _ => twoTasksFirstRunning
    end.

(** One core of two masked out, one single-core task. *)
Definition maskedOneTask : SchedulerOpen :=
  mkSched [false; true] 1000000 "FIFO" 1
          [newTask 0 "splash2-fft-small-1" 1]
          [newCore 0; newCore 1].

(** [maskedOneTask] after the primary thread of its task was created. *)
Definition maskedOneTaskStarted : SchedulerOpen :=
  Eval vm_compute in
    match @runHooks (MapFirstUnused [0; 1]) (simpleHost 1 0) maskedOneTask
            [ThreadCreate 0 0 0] with
    | Ok s => s
    | _ => maskedOneTask
    end.











(** Three WaitingToSchedule tasks with the arrival times 5, 0 and 7. *)
Definition zeroArrivalWaiting : list openTask :=
  assignArrivalTimes
    [newTask 0 "splash2-barnes-small-1" 1; newTask 1 "splash2-barnes-small-1" 1;
     newTask 2 "splash2-barnes-small-1" 1]
    [5; 0; 7].

(* ================================================================== *)
(** * Properties *)

Lemma bind_Ok {A B : Type} (m : outcome A) (f : A -> outcome B) (b : B) :
  m ≫= f = Ok b -> exists a, m = Ok a /\ f a = Ok b.
Proof. destruct m as [a| |]; simpl; intros H; try discriminate. eauto. Qed.

Example grid_12 : gridSetup 12 = Ok (3, 4).
Proof. reflexivity. Qed.

(** ** Grid construction *)

Lemma shrinkRows_spec (M : Z) (r : nat) :
  1 <= M -> (1 <= r)%nat ->
  exists k, shrinkRows M r = Ok k /\ 1 <= k <= Z.of_nat r /\ (k | M) /\
            forall d, k < d <= Z.of_nat r -> ~ (d | M).
Proof.
  intros HM. induction r as [|r IH]; intros Hr; [lia|].
  cbn [shrinkRows].
  destruct (Z.rem M (Z.of_nat (S r)) =? 0) eqn:E.
  - apply Z.eqb_eq in E. exists (Z.of_nat (S r)). repeat split; try lia.
    apply Z.rem_divide; [lia | exact E].
  - apply Z.eqb_neq in E.
    assert (Hnd : ~ (Z.of_nat (S r) | M)).
    { intros Hd. apply E. apply Z.rem_divide; [lia | exact Hd]. }
    destruct r as [|r'].
    + exfalso. apply Hnd. exists M. simpl. lia.
    + destruct IH as (k & Hk & Hb & Hdiv & Hmax); [lia|].
      exists k. repeat split; try lia; try assumption.
      intros d Hd Hdm.
      destruct (Z.eq_dec d (Z.of_nat (S (S r')))) as [->|Hne]; [contradiction|].
      apply (Hmax d); [lia | exact Hdm].
Qed.

Lemma prime_7 : Z.prime 7.
Proof.
  split; [lia|].
  intros n Hn [q Hq].
  assert (Hc : n = 2 \/ n = 3 \/ n = 4 \/ n = 5 \/ n = 6) by lia.
  destruct Hc as [->|[->|[->|[->| ->]]]]; lia.
Qed.

(** C3 (as stated, refuted): 7 cores are a prime core count, and the
    constructor does not abort: it builds a grid of 1 row and 7 columns and
    returns. *)
Lemma grid_prime_counterexample :
  Z.prime 7 /\ gridSetup 7 = Ok (1, 7) /\ gridSetup 7 <> Exit InvalidSystemSize /\
  exists s P, @construct lcgRandom sevenCores 0 = Ok (s, (1, 7), P).
Proof.
  split; [exact prime_7|]. split; [reflexivity|]. split; [discriminate|].
  eexists. eexists. vm_compute. reflexivity.
Qed.

(** C3 (amended): for every core count M >= 1 the row count is the largest
    divisor of M not exceeding the integer square root of M, the column
    count is M divided by the row count, rows * columns = M, and the
    constructor never takes the invalid-system-size exit; a prime M gives a
    grid of 1 row and M columns. *)
Theorem grid_construction (M : Z) :
  1 <= M ->
  exists coreRows coreColumns,
    gridSetup M = Ok (coreRows, coreColumns) /\
    1 <= coreRows <= Z.sqrt M /\ (coreRows | M) /\
    (forall d, 1 <= d <= Z.sqrt M -> (d | M) -> d <= coreRows) /\
    coreColumns = M / coreRows /\
    coreRows * coreColumns = M /\
    (Z.prime M -> coreRows = 1 /\ coreColumns = M).
Proof.
  intros HM.
  assert (Hs : 1 <= Z.sqrt M).
  { change 1 with (Z.sqrt 1). apply Z.sqrt_le_mono. lia. }
  destruct (shrinkRows_spec M (Z.to_nat (Z.sqrt M)) HM) as (k & Hk & Hb & Hdiv & Hmax);
    [lia|].
  rewrite Z2Nat.id in Hb, Hmax by lia.
  assert (Hq : M ÷ k = M / k) by (apply Z.quot_div_nonneg; lia).
  assert (Hmul : k * (M / k) = M).
  { destruct Hdiv as [q Hq']. subst M. rewrite Z.div_mul by lia. lia. }
  assert (Hprime : Z.prime M -> k = 1).
  { intros [Hp1 Hp2]. destruct (Z.eq_dec k 1) as [->|Hne]; [reflexivity|].
    exfalso. apply (Hp2 k); [|exact Hdiv].
    assert (Z.sqrt M < M) by (apply Z.sqrt_lt_lin; lia). lia. }
  exists k, (M / k). unfold gridSetup. rewrite Hk. simpl.
  rewrite Hq. rewrite (proj2 (Z.eqb_eq _ _) Hmul).
  split; [reflexivity|]. split; [lia|]. split; [assumption|].
  split.
  { intros d Hd Hdm. destruct (Z_le_gt_dec d k) as [|Hgt]; [assumption|].
    exfalso. apply (Hmax d); [lia | assumption]. }
  split; [reflexivity|]. split; [assumption|].
  intros Hp. rewrite (Hprime Hp). split; [reflexivity | apply Z.div_1_r].
Qed.

Lemma grid_construction_witness :
  exists coreRows coreColumns,
    gridSetup 12 = Ok (coreRows, coreColumns) /\
    1 <= coreRows <= Z.sqrt 12 /\ (coreRows | 12) /\
    (forall d, 1 <= d <= Z.sqrt 12 -> (d | 12) -> d <= coreRows) /\
    coreColumns = 12 / coreRows /\
    coreRows * coreColumns = 12 /\
    (Z.prime 12 -> coreRows = 1 /\ coreColumns = 12).
Proof. apply (grid_construction 12). lia. Defined.

(** ** Benchmark profile table *)

Example profile_blackscholes_4 :
  coreRequirementTranslation "parsec-blackscholes-simsmall-4" = Ok 5.
Proof. reflexivity. Qed.

Example profile_unknown_suite :
  coreRequirementTranslation "spec-gcc-ref-1" = Exit UnknownSuite.
Proof. reflexivity. Qed.

Example profile_too_parallel :
  coreRequirementTranslation "parsec-ferret-simsmall-4" = Exit ProfileMissing.
Proof. reflexivity. Qed.

(** C4 (the code departs from the specification): the descriptors
    parsec-fluidanimate-*-3 and splash2-fft-*-3 select a table entry of 0,
    which the specification and the comments of the table ("zeros are
    placeholders", "don't allow in the first place") rule out; the lookup
    returns that 0 as the core requirement instead of taking a fatal exit,
    and the constructor then returns with a task whose core requirement
    is 0. *)
Theorem zero_profile_entry_is_returned :
  coreRequirementTranslation "parsec-fluidanimate-simsmall-3" = Ok 0 /\
  coreRequirementTranslation "splash2-fft-small-3" = Ok 0 /\
  exists s grid P task,
    @construct lcgRandom zeroProfile 0 = Ok (s, grid, P) /\
    openTasks s !! 1%nat = Some task /\
    taskName task = "parsec-fluidanimate-simsmall-3"%string /\
    taskCoreRequirement task = 0.
Proof.
  split; [reflexivity|]. split; [reflexivity|].
  eexists. eexists. eexists. eexists.
  split; [vm_compute; reflexivity|]. split; [reflexivity|]. split; reflexivity.
Qed.

(** ** Arrival-time generator *)

Lemma u64_small (z : Z) : 0 <= z < two64 -> u64 z = z.
Proof. intros Hz. unfold u64. apply Z.mod_small. exact Hz. Qed.

Lemma nondecreasing_cons (x : Z) (l : list Z) :
  Forall (fun a => x <= a) l -> nondecreasing l -> nondecreasing (x :: l).
Proof.
  intros Hall Hl i j a b Hij Hi Hj.
  destruct i as [|i], j as [|j]; simpl in *; simplify_eq; try lia.
  - rewrite Forall_forall in Hall. apply Hall.
    apply list_elem_of_lookup. eauto.
  - apply (Hl i j a b); [lia | assumption | assumption].
Qed.

Lemma div_pred_multiple (R k : Z) :
  0 < R -> 0 < k -> Z.rem k R = 0 -> (k - 1) / R + 1 = k / R.
Proof.
  intros HR Hk Hrem. rewrite Z.rem_mod_nonneg in Hrem by lia.
  apply (Z.div_unique k R ((k - 1) / R + 1) 0); [lia|].
  pose proof (Z.div_mod (k - 1) R ltac:(lia)) as E1.
  pose proof (Z.mod_pos_bound (k - 1) R HR) as B1.
  pose proof (Z.div_mod k R ltac:(lia)) as E2.
  assert (Hq : (k - 1) mod R = R - 1).
  { rewrite Hrem in E2.
    symmetry. apply (Z.mod_unique (k - 1) R (k / R - 1)); [lia | lia]. }
  lia.
Qed.

Lemma div_pred_other (R k : Z) :
  0 < R -> 0 < k -> Z.rem k R <> 0 -> (k - 1) / R = k / R.
Proof.
  intros HR Hk Hrem. rewrite Z.rem_mod_nonneg in Hrem by lia.
  pose proof (Z.div_mod k R ltac:(lia)) as E2.
  pose proof (Z.mod_pos_bound k R HR) as B2.
  symmetry. apply (Z.div_unique (k - 1) R (k / R) (k mod R - 1)); lia.
Qed.

Lemma uniformLoop_spec (R I : Z) :
  0 < R -> 0 <= I ->
  forall (n : nat) (k t : Z),
    0 <= k -> I * (k + Z.of_nat n) < two64 ->
    t = (if k =? 0 then 0 else I * ((k - 1) / R)) ->
    exists l, uniformLoop R I n k t = Ok l /\ length l = n /\
      forall i : nat, (i < n)%nat -> l !! i = Some (I * ((k + Z.of_nat i) / R)).
Proof.
  intros HR HI. induction n as [|n IH]; intros k t Hk Hbound Ht.
  - exists []. repeat split. intros i Hi. lia.
  - cbn [uniformLoop]. destruct (R =? 0) eqn:ER; [apply Z.eqb_eq in ER; lia|].
    set (t' := if advances R k then u64 (t + I) else t).
    assert (Hdiv : 0 <= k / R <= k).
    { split; [apply Z.div_pos; lia|]. apply Z.div_le_upper_bound; nia. }
    assert (Ht' : t' = I * (k / R)).
    { unfold t', advances. revert Ht.
      destruct (Z.eqb_spec k 0) as [Hk0|Hk0]; intros Ht.
      - rewrite andb_false_r. rewrite Hk0, Z.div_0_l by lia. lia.
      - rewrite andb_true_r.
        destruct (Z.eqb_spec (Z.rem k R) 0) as [Hr|Hr]; rewrite Ht.
        + rewrite <- (div_pred_multiple R k) in Hdiv |- * by lia.
          rewrite u64_small; [lia | nia].
        + rewrite (div_pred_other R k) by lia. reflexivity. }
    destruct (IH (k + 1) t') as (l & Hl & Hlen & Hnth).
    + lia.
    + replace (k + 1 + Z.of_nat n) with (k + Z.of_nat (S n)) by lia. exact Hbound.
    + destruct (k + 1 =? 0) eqn:E; [apply Z.eqb_eq in E; lia|].
      replace (k + 1 - 1) with k by lia. exact Ht'.
    + rewrite Hl. simpl. exists (t' :: l). split; [reflexivity|].
      split; [simpl; lia|].
      intros [|i] Hi; simpl.
      * rewrite Z.add_0_r. rewrite Ht'. reflexivity.
      * rewrite Hnth by lia. do 3 f_equal. lia.
Qed.

Lemma poissonLoop_spec `{RandomLibrary} (R I B : Z) :
  0 < R ->
  (forall g, 0 <= fst (exponential I g) <= B) ->
  forall (n : nat) (k t : Z) (g : engine),
    0 <= t -> t + B * Z.of_nat n < two64 ->
    exists l, poissonLoop R I n k t g = Ok l /\ length l = n /\
      Forall (fun a => t <= a) l /\ nondecreasing l.
Proof.
  intros HR Hs. induction n as [|n IH]; intros k t g Ht Hbound.
  - exists []. repeat split; [constructor|].
    intros i j a b _ Hi. rewrite lookup_nil in Hi. discriminate.
  - cbn [poissonLoop]. destruct (R =? 0) eqn:ER; [apply Z.eqb_eq in ER; lia|].
    assert (HB : 0 <= B) by (specialize (Hs g); lia).
    destruct (advances R k).
    + destruct (exponential I g) as [sample g'] eqn:Es.
      assert (Hsample : 0 <= sample <= B) by (specialize (Hs g); rewrite Es in Hs; exact Hs).
      assert (Hu : u64 (t + sample) = t + sample) by (apply u64_small; nia).
      rewrite Hu.
      destruct (IH (k + 1) (t + sample) g') as (l & Hl & Hlen & Hall & Hmono);
        [lia | nia |].
      rewrite Hl. simpl. exists (t + sample :: l).
      split; [reflexivity|]. split; [simpl; lia|]. split.
      * constructor; [lia|]. eapply Forall_impl; [exact Hall|]. simpl. intros; lia.
      * apply nondecreasing_cons; assumption.
    + destruct (IH (k + 1) t g) as (l & Hl & Hlen & Hall & Hmono); [lia | nia |].
      rewrite Hl. simpl. exists (t :: l).
      split; [reflexivity|]. split; [simpl; lia|]. split.
      * constructor; [lia | exact Hall].
      * apply nondecreasing_cons; assumption.
Qed.

Lemma explicitLoop_spec (times : list Z) :
  forall (n k : nat), (k + n <= length times)%nat ->
    explicitLoop times n (Z.of_nat k) = Ok (map u64 (take n (drop k times))).
Proof.
  induction n as [|n IH]; intros k Hk; [reflexivity|].
  cbn [explicitLoop]. unfold at_index.
  destruct (Z.of_nat k <? 0) eqn:E; [apply Z.ltb_lt in E; lia|].
  rewrite Nat2Z.id.
  destruct (times !! k) as [x|] eqn:Ex.
  - simpl. replace (Z.of_nat k + 1) with (Z.of_nat (S k)) by lia.
    rewrite IH by lia. simpl.
    rewrite (drop_S times x k Ex). reflexivity.
  - apply lookup_ge_None in Ex. lia.
Qed.

Lemma nondecreasing_of_formula (f : Z -> Z) (l : list Z) (n : nat) :
  (forall a b, 0 <= a <= b -> f a <= f b) ->
  (forall i : nat, (i < n)%nat -> l !! i = Some (f (Z.of_nat i))) ->
  length l = n -> nondecreasing l.
Proof.
  intros Hf Hl Hlen i j a b Hij Hi Hj.
  assert (Hjn : (j < n)%nat) by (rewrite <- Hlen; eapply lookup_lt_Some; eauto).
  rewrite Hl in Hi, Hj by lia. simplify_eq. apply Hf. lia.
Qed.

Lemma toInt_range (z : Z) : - 2 ^ 31 <= toInt z < 2 ^ 31.
Proof.
  unfold toInt. pose proof (Z.mod_pos_bound (z + 2 ^ 31) (2 ^ 32) ltac:(lia)). lia.
Qed.

Lemma toInt_small (z : Z) : - 2 ^ 31 <= z < 2 ^ 31 -> toInt z = z.
Proof. intros Hz. unfold toInt. rewrite Z.mod_small by lia. lia. Qed.

Lemma atoi_range (s : string) : - 2 ^ 31 <= atoi s < 2 ^ 31.
Proof. apply toInt_range. Qed.

(** The interval is an [int]: the text "3000000000" is read as
    -1294967296, and adding it to the unsigned time wraps around, so the
    uniform arrival times 0, 2^64 - 1294967296, 2^64 - 2589934592 are
    not multiples of the configured number. *)
Lemma uniform_interval_is_an_int :
  atoi "3000000000" = -1294967296 /\
  @arrivalTimes lcgRandom (mkArrival "uniform" "1" "3000000000" [] 0) 0 3
  = Ok [0; 18446744072414584320; 18446744071119617024].
Proof. split; vm_compute; reflexivity. Qed.

(** C8 (as stated, refuted): under the explicit distribution the configured
    times 5 and 3 are assigned verbatim to tasks 0 and 1, so the arrival
    times decrease with the task index. *)
Lemma explicit_arrivals_counterexample :
  @arrivalTimes lcgRandom (mkArrival "explicit" "1" "1000" [5; 3] 42) 0 2 = Ok [5; 3] /\
  ~ nondecreasing [5; 3].
Proof.
  split; [reflexivity|].
  intros Hmono. specialize (Hmono 0%nat 1%nat 5 3). simpl in Hmono.
  assert (5 <= 3) by (apply Hmono; [lia | reflexivity | reflexivity]). lia.
Qed.

(** C8 (amended): with the rate R and the interval I that [atoi] reads
    from the configuration, the uniform generator (R >= 1, I >= 0, and a
    number of tasks N below 2^31, as an [int] is) gives task i the arrival
    time I * floor (i / R), and the poisson generator (R >= 1, samples
    between 0 and a bound B with B * N below 2^64) assigns some time to
    each of the N tasks; both sequences are nondecreasing in the task
    index.  The explicit generator, given at least N configured times,
    assigns them verbatim (converted to UInt64), in whatever order they
    are configured. *)
Theorem arrival_times_by_distribution `{RandomLibrary}
    (cfg : arrivalConfig) (rd : Z) (N : nat) :
  (distribution cfg = "uniform"%string ->
   0 < atoi (arrivalRate cfg) -> 0 <= atoi (arrivalInterval cfg) ->
   Z.of_nat N < 2 ^ 31 ->
   exists l, arrivalTimes cfg rd N = Ok l /\ length l = N /\
     (forall i : nat, (i < N)%nat ->
        l !! i = Some (atoi (arrivalInterval cfg)
                       * (Z.of_nat i / atoi (arrivalRate cfg)))) /\
     nondecreasing l) /\
  (distribution cfg = "poisson"%string ->
   0 < atoi (arrivalRate cfg) ->
   forall B, (forall g, 0 <= fst (exponential (atoi (arrivalInterval cfg)) g) <= B) ->
   B * Z.of_nat N < two64 ->
   exists l, arrivalTimes cfg rd N = Ok l /\ length l = N /\ nondecreasing l) /\
  (distribution cfg = "explicit"%string ->
   (N <= length (explicitArrivalTimes cfg))%nat ->
   arrivalTimes cfg rd N = Ok (map u64 (take N (explicitArrivalTimes cfg)))).
Proof.
  split; [|split].
  - intros Hd HR HI Hbound. unfold arrivalTimes. rewrite Hd. simpl.
    pose proof (atoi_range (arrivalInterval cfg)) as Hint.
    destruct (uniformLoop_spec (atoi (arrivalRate cfg)) (atoi (arrivalInterval cfg))
                HR HI N 0 0)
      as (l & Hl & Hlen & Hnth); [lia | unfold two64; nia | reflexivity |].
    exists l. split; [exact Hl|]. split; [exact Hlen|]. split.
    + intros i Hi. rewrite Hnth by exact Hi. reflexivity.
    + apply (nondecreasing_of_formula
               (fun x => atoi (arrivalInterval cfg) * (x / atoi (arrivalRate cfg))) l N).
      * intros a b Hab. apply Z.mul_le_mono_nonneg_l; [lia|].
        apply Z.div_le_mono; lia.
      * intros i Hi. rewrite Hnth by exact Hi. reflexivity.
      * exact Hlen.
  - intros Hd HR B Hs Hbound. unfold arrivalTimes, poissonArrivalTimes. rewrite Hd. simpl.
    destruct (next_engine (seed_engine (effectiveSeed (distributionSeed cfg) rd)))
      as [draw g].
    destruct (poissonLoop_spec (atoi (arrivalRate cfg)) (atoi (arrivalInterval cfg))
                B HR Hs N 0 0 g)
      as (l & Hl & Hlen & _ & Hmono); [lia | lia |].
    exists l. auto.
  - intros Hd Hlen. unfold arrivalTimes. rewrite Hd. simpl.
    apply (explicitLoop_spec (explicitArrivalTimes cfg) N 0). simpl. exact Hlen.
Qed.

Lemma arrival_times_by_distribution_witness :
  (exists l, @arrivalTimes lcgRandom (mkArrival "uniform" "2" "1000" [] 0) 0 5 = Ok l /\
     length l = 5%nat /\
     (forall i : nat, (i < 5)%nat -> l !! i = Some (1000 * (Z.of_nat i / 2))) /\
     nondecreasing l) /\
  (exists l, @arrivalTimes lcgRandom (mkArrival "poisson" "2" "1000" [] 42) 0 5 = Ok l /\
     length l = 5%nat /\ nondecreasing l) /\
  @arrivalTimes lcgRandom (mkArrival "explicit" "2" "1000" [7; 7; 9] 0) 0 3 =
    Ok (map u64 (take 3 [7; 7; 9])).
Proof.
  destruct (@arrival_times_by_distribution lcgRandom
              (mkArrival "uniform" "2" "1000" [] 0) 0 5) as (Hu & _ & _).
  destruct (@arrival_times_by_distribution lcgRandom
              (mkArrival "poisson" "2" "1000" [] 42) 0 5) as (_ & Hp & _).
  destruct (@arrival_times_by_distribution lcgRandom
              (mkArrival "explicit" "2" "1000" [7; 7; 9] 0) 0 3) as (_ & _ & He).
  split; [|split].
  - apply Hu; [reflexivity | vm_compute; reflexivity | vm_compute; discriminate
              | vm_compute; reflexivity].
  - apply (Hp eq_refl ltac:(vm_compute; reflexivity) 2000).
    + intros g.
      change (0 <= ((1103515245 * g + 12345) mod 2 ^ 31) mod 2001 <= 2000).
      pose proof (Z.mod_pos_bound ((1103515245 * g + 12345) mod 2 ^ 31) 2001 ltac:(lia)).
      lia.
    + vm_compute. reflexivity.
  - apply He; [reflexivity | simpl; lia].
Defined.

(** C9 (as stated, refuted): the configured seed 2^32 is not zero, but the
    [int] that line 87 stores it in is, so the seed is taken from the
    random device: two runs with this configuration, in which the device
    answers 1 and 2, assign different arrival times. *)
Lemma poisson_seed_counterexample :
  distributionSeed (mkArrival "poisson" "1" "1000" [] 4294967296) <> 0 /\
  @arrivalTimes lcgRandom (mkArrival "poisson" "1" "1000" [] 4294967296) 1 4
  <> @arrivalTimes lcgRandom (mkArrival "poisson" "1" "1000" [] 4294967296) 2 4.
Proof.
  split; [discriminate|]. vm_compute. discriminate.
Qed.

(** C9 (amended): with a configured seed that is not zero as an [int]
    (that is, modulo 2^32), the poisson arrival times do not depend on
    the random device nor on any configuration entry other than that
    [int], the arrival rate and the arrival interval as [atoi] reads them,
    and N; and the first output of the seeded generator is consumed
    before the loop starts, so that the exponential samples are drawn
    from the state that follows it. *)
Theorem poisson_seeded_deterministic `{RandomLibrary}
    (cfg1 cfg2 : arrivalConfig) (rd1 rd2 : Z) (N : nat) :
  distribution cfg1 = "poisson"%string ->
  distribution cfg2 = "poisson"%string ->
  toInt (distributionSeed cfg1) <> 0 ->
  toInt (distributionSeed cfg2) = toInt (distributionSeed cfg1) ->
  atoi (arrivalRate cfg2) = atoi (arrivalRate cfg1) ->
  atoi (arrivalInterval cfg2) = atoi (arrivalInterval cfg1) ->
  arrivalTimes cfg1 rd1 N = arrivalTimes cfg2 rd2 N /\
  arrivalTimes cfg1 rd1 N =
    poissonLoop (atoi (arrivalRate cfg1)) (atoi (arrivalInterval cfg1)) N 0 0
      (snd (next_engine (seed_engine (toInt (distributionSeed cfg1))))).
Proof.
  intros Hd1 Hd2 Hseed Hs HR HI.
  assert (Hrun : forall cfg rd,
             distribution cfg = "poisson"%string ->
             toInt (distributionSeed cfg) = toInt (distributionSeed cfg1) ->
             arrivalTimes cfg rd N =
               poissonLoop (atoi (arrivalRate cfg)) (atoi (arrivalInterval cfg)) N 0 0
                 (snd (next_engine (seed_engine (toInt (distributionSeed cfg1)))))).
  { intros cfg rd Hd Hsd. unfold arrivalTimes, poissonArrivalTimes, effectiveSeed.
    rewrite Hd, Hsd. cbn [String.eqb Ascii.eqb Bool.eqb].
    destruct (Z.eqb_spec (toInt (distributionSeed cfg1)) 0) as [E|_]; [contradiction|].
    destruct (next_engine (seed_engine (toInt (distributionSeed cfg1)))) as [draw g].
    reflexivity. }
  split.
  - rewrite (Hrun cfg1 rd1 Hd1 eq_refl), (Hrun cfg2 rd2 Hd2 Hs), HR, HI. reflexivity.
  - apply (Hrun cfg1 rd1 Hd1 eq_refl).
Qed.

Lemma poisson_seeded_deterministic_witness :
  @arrivalTimes lcgRandom (mkArrival "poisson" "1" "1000" [] 42) 7 4 =
    @arrivalTimes lcgRandom (mkArrival "poisson" " 1" "1000ns" [1; 2] 4294967338) 9 4 /\
  @arrivalTimes lcgRandom (mkArrival "poisson" "1" "1000" [] 42) 7 4 =
    @poissonLoop lcgRandom 1 1000 4 0 0
      (snd (@next_engine lcgRandom (@seed_engine lcgRandom 42))).
Proof.
  apply (@poisson_seeded_deterministic lcgRandom
           (mkArrival "poisson" "1" "1000" [] 42)
           (mkArrival "poisson" " 1" "1000ns" [1; 2] 4294967338) 7 9 4);
    (reflexivity || (vm_compute; discriminate)).
Defined.

(** ** Lists, sums and indices *)

Lemma at_index_Ok {A : Type} (l : list A) (i : Z) (x : A) :
  at_index l i = Ok x <-> 0 <= i /\ l !! Z.to_nat i = Some x.
Proof.
  unfold at_index. destruct (Z.ltb_spec i 0).
  - split; [discriminate | lia].
  - destruct (l !! Z.to_nat i) as [y|]; split;
      try discriminate; try (intros [_ ?]; discriminate).
    + intros [= ->]. auto.
    + intros [_ [= ->]]. reflexivity.
Qed.

Lemma at_index_lookup {A : Type} (l : list A) (i : nat) (x : A) :
  l !! i = Some x -> at_index l (Z.of_nat i) = Ok x.
Proof. intros Hl. apply at_index_Ok. rewrite Nat2Z.id. split; [lia | exact Hl]. Qed.

Lemma at_index_bound {A : Type} (l : list A) (i : Z) (x : A) :
  at_index l i = Ok x -> 0 <= i < Z.of_nat (length l).
Proof.
  intros [Hi Hl]%at_index_Ok. apply lookup_lt_Some in Hl. lia.
Qed.

Lemma firstIndex_range {A : Type} (p : A -> bool) (l : list A) :
  firstIndex p l = -1 \/ 0 <= firstIndex p l.
Proof.
  unfold firstIndex. destruct (list_find _ l) as [[i x]|]; [right; lia | left; reflexivity].
Qed.

Lemma firstIndex_found {A : Type} (p : A -> bool) (l : list A) (z : Z) :
  firstIndex p l = z -> z <> -1 ->
  exists x, at_index l z = Ok x /\ p x = true /\
    forall (j : nat) (y : A), l !! j = Some y -> Z.of_nat j < z -> p y = false.
Proof.
  unfold firstIndex. destruct (list_find _ l) as [[i x]|] eqn:E; [|congruence].
  intros <- _. apply list_find_Some in E as (Hl & Hp & Hmin).
  exists x. split; [apply at_index_lookup; exact Hl|]. split; [exact Hp|].
  intros j y Hj Hlt. specialize (Hmin j y Hj ltac:(lia)).
  destruct (p y); [contradiction | reflexivity].
Qed.

Lemma firstIndex_none {A : Type} (p : A -> bool) (l : list A) :
  firstIndex p l = -1 -> forall (j : nat) (y : A), l !! j = Some y -> p y = false.
Proof.
  unfold firstIndex. destruct (list_find _ l) as [[i x]|] eqn:E; [lia|].
  intros _ j y Hj. apply list_find_None in E. rewrite Forall_forall in E.
  specialize (E y ltac:(apply list_elem_of_lookup; eauto)).
  destruct (p y); [contradiction | reflexivity].
Qed.

Lemma sumOver_ext {A : Type} (f g : A -> Z) (l : list A) :
  (forall x, x ∈ l -> f x = g x) -> sumOver f l = sumOver g l.
Proof.
  induction l as [|x l IH]; intros Hfg; [reflexivity|]. simpl.
  rewrite Hfg by (left). rewrite IH; [reflexivity|].
  intros y Hy. apply Hfg. right. exact Hy.
Qed.

Lemma sumOver_fmap {A : Type} (f : A -> Z) (g : A -> A) (l : list A) :
  sumOver f (g <$> l) = sumOver (fun x => f (g x)) l.
Proof. induction l as [|x l IH]; csimpl; [reflexivity | rewrite IH; reflexivity]. Qed.

Lemma sumOver_alter {A : Type} (f : A -> Z) (g : A -> A) (l : list A) (i : nat) (x : A) :
  l !! i = Some x -> sumOver f (alter g i l) = sumOver f l - f x + f (g x).
Proof.
  revert i. induction l as [|y l IH]; intros [|i] Hl; simplify_eq/=.
  - lia.
  - rewrite (IH i Hl). lia.
Qed.

Lemma sumOver_alter_same {A : Type} (f : A -> Z) (g : A -> A) (l : list A) (i : nat) :
  (forall x, f (g x) = f x) -> sumOver f (alter g i l) = sumOver f l.
Proof.
  intros Hfg. destruct (l !! i) as [x|] eqn:E.
  - rewrite (sumOver_alter f g l i x E), Hfg. lia.
  - f_equal. revert i E. induction l as [|y l IH]; intros [|i] E; simplify_eq/=;
      try reflexivity. f_equal. apply IH. exact E.
Qed.

Lemma sumOver_insert {A : Type} (f : A -> Z) (l : list A) (i : nat) (x y : A) :
  l !! i = Some x -> sumOver f (<[i:=y]> l) = sumOver f l - f x + f y.
Proof.
  revert i. induction l as [|z l IH]; intros [|i] Hl; simplify_eq/=.
  - lia.
  - rewrite (IH i Hl). lia.
Qed.

Lemma sumOver_nonneg {A : Type} (f : A -> Z) (l : list A) :
  (forall x, 0 <= f x) -> 0 <= sumOver f l.
Proof. intros Hf. induction l as [|x l IH]; simpl; [lia | specialize (Hf x); lia]. Qed.

Lemma sumOver_zero {A : Type} (f : A -> Z) (l : list A) :
  (forall x, x ∈ l -> f x = 0) -> sumOver f l = 0.
Proof.
  induction l as [|x l IH]; intros Hf; [reflexivity|]. simpl.
  rewrite Hf by left. rewrite IH; [reflexivity|]. intros y Hy. apply Hf. right. exact Hy.
Qed.

Lemma sumOver_plus {A : Type} (f g : A -> Z) (l : list A) :
  sumOver (fun x => f x + g x) l = sumOver f l + sumOver g l.
Proof. induction l as [|x l IH]; simpl; [reflexivity | rewrite IH; lia]. Qed.

Lemma sumOver_const_one {A : Type} (l : list A) :
  sumOver (fun _ => 1) l = Z.of_nat (length l).
Proof. induction l as [|x l IH]; simpl length; simpl sumOver; [reflexivity | rewrite IH; lia]. Qed.

(** ** The cases of [schedule] *)

Section EngineFacts.
Context `{MappingPolicy} `{ThreadManager}.

Lemma schedule_cases (s : SchedulerOpen) (taskID : Z) (isInitialCall : bool) (time : Z)
    (b : bool) (s' : SchedulerOpen) :
  schedule s taskID isInitialCall time = Ok (b, s') ->
  exists task, at_index (openTasks s) taskID = Ok task /\
    ((time < taskArrivalTime task /\ b = false /\ s' = s) \/
     (taskArrivalTime task <= time /\ b = false /\
      s' = updateTask s taskID putIntoQueue) \/
     (taskArrivalTime task <= time /\ b = true /\
      taskFrontOfQueue (updateTask s taskID putIntoQueue) = Ok taskID /\
      taskCoreRequirement task <= numberOfFreeCores s /\
      exists cores,
        let bestCores := policy_map (taskName task) (taskCoreRequirement task)
                                    (availableCores s) (activeCores s) in
        taskCoreRequirement task <= Z.of_nat (length bestCores) /\
        assignCores taskID bestCores (systemCores s) = Ok cores /\
        s' = updateTask
               (attach isInitialCall taskID
                  (withCores (updateTask s taskID putIntoQueue) cores))
               taskID (fun t => markStarted t time))).
Proof.
  unfold schedule. intros Hs.
  apply bind_Ok in Hs as (task & Htask & Hs). exists task. split; [exact Htask|].
  destruct (Z.gtb_spec (taskArrivalTime task) time) as [Hgt|Hle].
  { left. injection Hs as <- <-. auto. }
  right.
  apply bind_Ok in Hs as (front & Hfront & Hs).
  destruct (Z.eqb_spec front taskID) as [->|Hne]; simpl in Hs.
  2:{ left. injection Hs as <- <-. auto. }
  destruct (Z.ltb_spec (numberOfFreeCores (updateTask s taskID putIntoQueue))
                       (taskCoreRequirement task)) as [Hlt|Hfree].
  { left. injection Hs as <- <-. auto. }
  apply bind_Ok in Hs as ([ok s1] & Hmap & Hs).
  unfold executeMappingPolicy in Hmap.
  apply bind_Ok in Hmap as (task1 & Htask1 & Hmap).
  assert (task1 = putIntoQueue task) as ->.
  { apply at_index_Ok in Htask as [Hi Hl]. apply at_index_Ok in Htask1 as [_ Hl1].
    simpl in Hl1. rewrite list_lookup_alter_eq, Hl in Hl1. simpl in Hl1. congruence. }
  simpl taskName in Hmap. simpl taskCoreRequirement in Hmap.
  change (availableCores (updateTask s taskID putIntoQueue)) with (availableCores s) in Hmap.
  change (activeCores (updateTask s taskID putIntoQueue)) with (activeCores s) in Hmap.
  destruct (Z.ltb_spec
              (Z.of_nat (length (policy_map (taskName task) (taskCoreRequirement task)
                                            (availableCores s) (activeCores s))))
              (taskCoreRequirement task)) as [Hshort|Hlong].
  { injection Hmap as <- <-. left. injection Hs as <- <-. auto. }
  apply bind_Ok in Hmap as (cores & Hcores & Hmap). injection Hmap as <- <-.
  right. injection Hs as <- <-.
  split; [exact Hle|]. split; [reflexivity|]. split; [exact Hfront|].
  split; [exact Hfree|]. exists cores. simpl.
  split; [exact Hlong|]. split; [exact Hcores|]. reflexivity.
Qed.

(** C2: when [schedule] returns false, (a) a task whose arrival time is
    still ahead keeps its phase flags (the whole state is unchanged),
    (b) otherwise the task is left Queued ([waitingInQueue] true,
    [waitingToSchedule] false), and (c) in both cases no core record is
    modified and the task's start time and [active] flag are unchanged. *)
Theorem schedule_failure_atomic (s : SchedulerOpen) (taskID : Z) (isInitialCall : bool)
    (now : Z) (s' : SchedulerOpen) :
  schedule s taskID isInitialCall now = Ok (false, s') ->
  exists task task',
    0 <= taskID < Z.of_nat (length (openTasks s)) /\
    at_index (openTasks s) taskID = Ok task /\
    at_index (openTasks s') taskID = Ok task' /\
    (now < taskArrivalTime task -> s' = s /\ task' = task) /\
    (taskArrivalTime task <= now ->
       waitingInQueue task' = true /\ waitingToSchedule task' = false) /\
    systemCores s' = systemCores s /\
    taskStartTime task' = taskStartTime task /\
    active task' = active task.
Proof.
  intros Hs. apply schedule_cases in Hs as (task & Htask & Hcases).
  pose proof (at_index_bound _ _ _ Htask) as Hrange.
  destruct Hcases as [(Hlt & _ & ->)|[(Hle & _ & ->)|(_ & Hb & _)]]; [| |discriminate].
  - exists task, task.
    split; [exact Hrange|]. split; [exact Htask|]. split; [exact Htask|].
    split; [auto|]. split; [intros; lia|]. auto.
  - exists task, (putIntoQueue task).
    split; [exact Hrange|]. split; [exact Htask|]. split.
    { apply at_index_Ok in Htask as [Hi Hl]. apply at_index_Ok. split; [exact Hi|].
      simpl. rewrite list_lookup_alter_eq, Hl. reflexivity. }
    split; [intros; lia|]. repeat split; reflexivity.
Qed.


(** *** Capacity: the strengthened invariant and its preservation *)

Lemma total_is_sum (s : SchedulerOpen) :
  totalCoreRequirementsOfActiveTasks s = sumOver activeRequirement (openTasks s).
Proof. reflexivity. Qed.

Lemma free_plus_assigned (s : SchedulerOpen) :
  numberOfFreeCores s + numberOfAssignedCores s = numberOfCores s.
Proof.
  unfold numberOfFreeCores, numberOfAssignedCores, numberOfCores.
  rewrite <- sumOver_plus, <- sumOver_const_one. apply sumOver_ext.
  intros c _. unfold isAssignedToTask. destruct (assignedTaskID c =? -1); reflexivity.
Qed.

Lemma taskIdOnly_assigned : taskIdOnly (fun c => b2z (isAssignedToTask c)).
Proof. intros c c' E. unfold isAssignedToTask. rewrite E. reflexivity. Qed.

Lemma taskIdOnly_ofTask (k : Z) : taskIdOnly (fun c => b2z (assignedTaskID c =? k)).
Proof. intros c c' E. rewrite E. reflexivity. Qed.

Lemma capacityInv_initial (s : SchedulerOpen) : initialState s -> capacityInv s.
Proof.
  intros [Hcores Htasks]. rewrite Forall_forall in Hcores.
  rewrite Forall_forall in Htasks.
  assert (Hnone : forall k, k <> -1 -> coresOfTask s k = 0).
  { intros k Hk. apply sumOver_zero. intros c Hc.
    destruct (Hcores c Hc) as [-> _]. destruct (Z.eqb_spec (-1) k); [lia | reflexivity]. }
  split; [|split; [|split]].
  - unfold capacity, numberOfAssignedCores. rewrite total_is_sum.
    rewrite !sumOver_zero; [reflexivity | |].
    + intros t Ht. unfold activeRequirement.
      destruct (Htasks t Ht) as (_ & _ & -> & _). reflexivity.
    + intros c Hc. unfold isAssignedToTask. destruct (Hcores c Hc) as [-> _]. reflexivity.
  - intros i t Hi. rewrite Hnone by lia. unfold activeRequirement.
    destruct (Htasks t) as (_ & _ & -> & _); [|reflexivity].
    apply list_elem_of_lookup. eauto.
  - intros i t Hi Hact. destruct (Htasks t) as (_ & _ & Hf & _);
      [apply list_elem_of_lookup; eauto | congruence].
  - intros i t Hi. destruct (Htasks t) as (_ & _ & _ & _ & Hreq);
      [apply list_elem_of_lookup; eauto | exact Hreq].
Qed.

(** Changing core records without touching any [assignedTaskID]. *)
Lemma capacityInv_cores (s : SchedulerOpen) (cores : list systemCore) :
  capacityInv s ->
  (forall f, taskIdOnly f -> sumOver f cores = sumOver f (systemCores s)) ->
  capacityInv (withCores s cores).
Proof.
  intros (Hcap & Htask & Hflags & Hreq) Hsame. split; [|split; [|split]].
  - unfold capacity, numberOfAssignedCores in *. simpl.
    rewrite (Hsame _ taskIdOnly_assigned). exact Hcap.
  - intros i t Hi. unfold coresOfTask. simpl.
    rewrite (Hsame _ (taskIdOnly_ofTask _)). apply (Htask i t Hi).
  - exact Hflags.
  - exact Hreq.
Qed.

(** Changing one task record without touching [active] or the requirement. *)
Lemma capacityInv_updateTask (s : SchedulerOpen) (k : Z) (f : openTask -> openTask) :
  capacityInv s -> 0 <= k ->
  (forall t, activeRequirement (f t) = activeRequirement t /\ active (f t) = active t /\
             taskCoreRequirement (f t) = taskCoreRequirement t) ->
  (forall t, at_index (openTasks s) k = Ok t -> active t = true ->
             waitingInQueue (f t) = false /\ waitingToSchedule (f t) = false) ->
  capacityInv (updateTask s k f).
Proof.
  intros (Hcap & Htask & Hflags & Hreq) Hk Hf Hq. split; [|split; [|split]].
  - unfold capacity in *. rewrite total_is_sum in *. simpl.
    rewrite sumOver_alter_same by (intros t; apply Hf). exact Hcap.
  - intros i t. simpl. destruct (decide (Z.to_nat k = i)) as [<-|Hne].
    + rewrite list_lookup_alter_eq. destruct (openTasks s !! Z.to_nat k) as [t0|] eqn:E;
        [|discriminate]. intros [= <-].
      change (coresOfTask (updateTask s k f)) with (coresOfTask s).
      rewrite (Htask _ _ E). symmetry. apply Hf.
    + rewrite list_lookup_alter_ne by exact Hne. apply Htask.
  - intros i t. simpl. destruct (decide (Z.to_nat k = i)) as [<-|Hne].
    + rewrite list_lookup_alter_eq. destruct (openTasks s !! Z.to_nat k) as [t0|] eqn:E;
        [|discriminate]. intros [= <-] Hact.
      destruct (Hf t0) as (_ & Ha & _). rewrite Ha in Hact.
      apply Hq; [apply at_index_Ok; split; [lia | exact E] | exact Hact].
    + rewrite list_lookup_alter_ne by exact Hne. apply Hflags.
  - intros i t. simpl. destruct (decide (Z.to_nat k = i)) as [<-|Hne].
    + rewrite list_lookup_alter_eq. destruct (openTasks s !! Z.to_nat k) as [t0|] eqn:E;
        [|discriminate]. intros [= <-].
      destruct (Hf t0) as (_ & _ & ->). apply (Hreq _ _ E).
    + rewrite list_lookup_alter_ne by exact Hne. apply Hreq.
Qed.

(** Changing every task record without touching [active] or the requirement. *)
Lemma capacityInv_tasks (s : SchedulerOpen) (g : openTask -> openTask) :
  capacityInv s ->
  (forall t, activeRequirement (g t) = activeRequirement t /\ active (g t) = active t /\
             taskCoreRequirement (g t) = taskCoreRequirement t) ->
  (forall t, active t = true -> waitingToSchedule t = false ->
             waitingInQueue (g t) = waitingInQueue t /\
             waitingToSchedule (g t) = waitingToSchedule t) ->
  capacityInv (withTasks s (g <$> openTasks s)).
Proof.
  intros (Hcap & Htask & Hflags & Hreq) Hg Hq. split; [|split; [|split]].
  - unfold capacity in *. rewrite total_is_sum in *.
    change (numberOfAssignedCores (withTasks s (g <$> openTasks s)))
      with (numberOfAssignedCores s).
    rewrite Hcap. simpl. rewrite sumOver_fmap.
    apply sumOver_ext. intros t _. symmetry. apply Hg.
  - intros i t. simpl. rewrite list_lookup_fmap.
    destruct (openTasks s !! i) as [t0|] eqn:E; [|discriminate]. intros [= <-].
    change (coresOfTask (withTasks s (g <$> openTasks s))) with (coresOfTask s).
    rewrite (Htask _ _ E). symmetry. apply Hg.
  - intros i t. simpl. rewrite list_lookup_fmap.
    destruct (openTasks s !! i) as [t0|] eqn:E; [|discriminate]. intros [= <-] Hact.
    destruct (Hg t0) as (_ & Ha & _). rewrite Ha in Hact.
    destruct (Hflags _ _ E Hact) as [Hq1 Hq2].
    destruct (Hq t0 Hact Hq2) as [-> ->]. auto.
  - intros i t. simpl. rewrite list_lookup_fmap.
    destruct (openTasks s !! i) as [t0|] eqn:E; [|discriminate]. intros [= <-].
    destruct (Hg t0) as (_ & _ & ->). apply (Hreq _ _ E).
Qed.

Lemma capacityInv_fetch (s : SchedulerOpen) (time : Z) :
  capacityInv s -> capacityInv (fetchTasksIntoQueue s time).
Proof.
  intros Hinv. apply capacityInv_tasks; [exact Hinv | |].
  - intros t. destruct (waitingToSchedule t && (taskArrivalTime t <=? time)); auto.
  - intros t _ Hw. rewrite Hw. simpl. auto.
Qed.

Lemma capacityInv_readjust (s : SchedulerOpen) (timeJump : Z) :
  capacityInv s -> capacityInv (withTasks s (readjust timeJump <$> openTasks s)).
Proof.
  intros Hinv. apply capacityInv_tasks; [exact Hinv | |].
  - intros t. unfold readjust. destruct (waitingToSchedule t); auto.
  - intros t _ Hw. unfold readjust. rewrite Hw. auto.
Qed.

Lemma capacityInv_setAffinity (s : SchedulerOpen) (thread_id : Z) :
  capacityInv s -> capacityInv (snd (setAffinity s thread_id)).
Proof.
  intros Hinv. unfold setAffinity. destruct (_ =? -1); [exact Hinv|]. simpl.
  apply capacityInv_cores; [exact Hinv|].
  intros f Hf. apply sumOver_alter_same. intros c. apply Hf. reflexivity.
Qed.

Lemma capacityInv_detach (s : SchedulerOpen) (thread_id : Z) :
  capacityInv s -> capacityInv (withCores s (detachThread thread_id <$> systemCores s)).
Proof.
  intros Hinv. apply capacityInv_cores; [exact Hinv|].
  intros f Hf. rewrite sumOver_fmap. apply sumOver_ext. intros c _. apply Hf.
  unfold detachThread. destruct (_ =? thread_id); reflexivity.
Qed.

(** Assigning distinct free cores adds [delta] to a sum for each of them. *)
Lemma assignCores_sum (f : systemCore -> Z) (taskID delta : Z) :
  (forall c, assignedTaskID c = -1 -> f (setAssignedTaskID c taskID) = f c + delta) ->
  forall (bestCores : list Z) (cores cores' : list systemCore),
    NoDup bestCores ->
    (forall b, b ∈ bestCores -> 0 <= b /\
       exists c, cores !! Z.to_nat b = Some c /\ assignedTaskID c = -1) ->
    assignCores taskID bestCores cores = Ok cores' ->
    sumOver f cores' = sumOver f cores + delta * Z.of_nat (length bestCores).
Proof.
  intros Hf. induction bestCores as [|b rest IH]; intros cores cores' Hnd Hfree Hassign.
  - simpl in *. injection Hassign as <-. lia.
  - cbn [assignCores] in Hassign. apply bind_Ok in Hassign as (c & Hc & Hassign).
    apply NoDup_cons in Hnd as [Hnotin Hnd].
    destruct (Hfree b ltac:(left)) as (Hb & c0 & Hc0 & Hfree0).
    apply at_index_Ok in Hc as [_ Hc]. assert (c0 = c) as -> by congruence.
    rewrite (IH _ cores' Hnd) with (2 := Hassign).
    + rewrite (sumOver_insert f cores (Z.to_nat b) c _ Hc), (Hf c Hfree0).
      simpl length. lia.
    + intros b' Hb'. destruct (Hfree b' ltac:(right; exact Hb')) as (Hb'0 & c' & Hc' & Hfree').
      split; [exact Hb'0|]. exists c'. split; [|exact Hfree'].
      rewrite list_lookup_insert_ne; [exact Hc'|].
      intros E. apply Hnotin. assert (b = b') as -> by lia. exact Hb'.
Qed.

Lemma availableCores_free (s : SchedulerOpen) (b : Z) :
  0 <= b -> availableCores s !! Z.to_nat b = Some true ->
  exists c, systemCores s !! Z.to_nat b = Some c /\ assignedTaskID c = -1 /\
            m_core_mask s !! Z.to_nat b = Some true.
Proof.
  intros Hb. unfold availableCores. rewrite list_lookup_imap.
  destruct (systemCores s !! Z.to_nat b) as [c|]; [|discriminate].
  simpl. intros [= Hav]. apply andb_true_iff in Hav as [Hmask Hfree].
  exists c. split; [reflexivity|]. split.
  - unfold isAssignedToTask in Hfree. apply negb_true_iff in Hfree.
    apply negb_false_iff in Hfree. apply Z.eqb_eq in Hfree. exact Hfree.
  - destruct (m_core_mask s !! Z.to_nat b) as [[|]|]; simpl in Hmask;
      [reflexivity | discriminate | discriminate].
Qed.

Lemma attach_tasks (isInitialCall : bool) (taskID : Z) (s : SchedulerOpen) :
  openTasks (attach isInitialCall taskID s) = openTasks s.
Proof.
  unfold attach, setAffinity. destruct isInitialCall; [reflexivity|].
  destruct (_ =? -1); reflexivity.
Qed.

Lemma setAffinity_sum (s : SchedulerOpen) (thread_id : Z) (f : systemCore -> Z) :
  taskIdOnly f ->
  sumOver f (systemCores (snd (setAffinity s thread_id))) = sumOver f (systemCores s).
Proof.
  intros Hf. unfold setAffinity. destruct (_ =? -1); [reflexivity|]. simpl.
  apply sumOver_alter_same. intros c. apply Hf. reflexivity.
Qed.

Lemma attach_sum (isInitialCall : bool) (taskID : Z) (s : SchedulerOpen)
    (f : systemCore -> Z) :
  taskIdOnly f ->
  sumOver f (systemCores (attach isInitialCall taskID s)) = sumOver f (systemCores s).
Proof.
  intros Hf. unfold attach. destruct isInitialCall; [reflexivity|].
  apply setAffinity_sum. exact Hf.
Qed.

(** The admission step: [required] more cores carry the task's id, and
    the task becomes Active. *)
Lemma start_capacityInv (s1 s2 : SchedulerOpen) (taskID : Z) (task : openTask) (now : Z) :
  capacityInv s1 ->
  at_index (openTasks s1) taskID = Ok task -> active task = false ->
  openTasks s2 = openTasks s1 ->
  numberOfAssignedCores s2 = numberOfAssignedCores s1 + taskCoreRequirement task ->
  (forall k, 0 <= k -> coresOfTask s2 k =
     coresOfTask s1 k + (if k =? taskID then taskCoreRequirement task else 0)) ->
  capacityInv (updateTask s2 taskID (fun t => markStarted t now)).
Proof.
  intros (Hcap & Htask & Hflags & Hreq) Hat Hinactive Htasks Hassigned Hcores.
  apply at_index_Ok in Hat as [Hk Hl].
  split; [|split; [|split]].
  - assert (E1 : activeRequirement task = 0)
      by (unfold activeRequirement; rewrite Hinactive; reflexivity).
    assert (E2 : activeRequirement (markStarted task now) = taskCoreRequirement task)
      by reflexivity.
    unfold capacity in *. rewrite total_is_sum in *.
    change (numberOfAssignedCores (updateTask s2 taskID (fun t => markStarted t now)))
      with (numberOfAssignedCores s2).
    change (openTasks (updateTask s2 taskID (fun t => markStarted t now)))
      with (alter (fun t => markStarted t now) (Z.to_nat taskID) (openTasks s2)).
    rewrite Htasks, (sumOver_alter _ _ _ _ task Hl), Hassigned, Hcap, E1, E2. lia.
  - intros i t. simpl. rewrite Htasks.
    change (coresOfTask (updateTask s2 taskID (fun t => markStarted t now)))
      with (coresOfTask s2).
    rewrite Hcores by lia.
    destruct (decide (Z.to_nat taskID = i)) as [<-|Hne].
    + rewrite list_lookup_alter_eq, Hl. intros [= <-].
      rewrite (Htask _ _ Hl). rewrite Z2Nat.id, Z.eqb_refl by lia.
      unfold activeRequirement. rewrite Hinactive. reflexivity.
    + rewrite list_lookup_alter_ne by exact Hne. intros Hi.
      destruct (Z.eqb_spec (Z.of_nat i) taskID) as [E|_]; [lia|].
      rewrite (Htask _ _ Hi). lia.
  - intros i t. simpl. rewrite Htasks.
    destruct (decide (Z.to_nat taskID = i)) as [<-|Hne].
    + rewrite list_lookup_alter_eq, Hl. intros [= <-] _. auto.
    + rewrite list_lookup_alter_ne by exact Hne. apply Hflags.
  - intros i t. simpl. rewrite Htasks.
    destruct (decide (Z.to_nat taskID = i)) as [<-|Hne].
    + rewrite list_lookup_alter_eq, Hl. intros [= <-]. apply (Hreq _ _ Hl).
    + rewrite list_lookup_alter_ne by exact Hne. apply Hreq.
Qed.

Lemma putIntoQueue_capacityInv (s : SchedulerOpen) (taskID : Z) :
  capacityInv s -> 0 <= taskID -> ~ taskIsActive s taskID ->
  capacityInv (updateTask s taskID putIntoQueue).
Proof.
  intros Hinv Hk Hna. apply capacityInv_updateTask; [exact Hinv | exact Hk | |].
  - intros t. auto.
  - intros t Hat Hact. exfalso. apply Hna. exists t. auto.
Qed.

Lemma schedule_capacityInv (s : SchedulerOpen) (taskID : Z) (isInitialCall : bool)
    (time : Z) (b : bool) (s' : SchedulerOpen) :
  policyContract -> capacityInv s -> ~ taskIsActive s taskID ->
  schedule s taskID isInitialCall time = Ok (b, s') -> capacityInv s'.
Proof.
  intros Hcontract Hinv Hna Hs.
  apply schedule_cases in Hs as (task & Htask & Hcases).
  pose proof (at_index_bound _ _ _ Htask) as Hrange.
  assert (Hinactive : active task = false).
  { destruct (active task) eqn:E; [|reflexivity]. exfalso. apply Hna. exists task. auto. }
  destruct Hcases as [(_ & _ & ->)|[(_ & _ & ->)|
                      (_ & _ & _ & _ & cores & Hlen & Hassign & ->)]].
  - exact Hinv.
  - apply putIntoQueue_capacityInv; [exact Hinv | lia | exact Hna].
  - simpl in Hlen, Hassign.
    assert (Hreq0 : 0 <= taskCoreRequirement task).
    { destruct Hinv as (_ & _ & _ & Hreq). apply at_index_Ok in Htask as [_ Hl].
      apply (Hreq _ _ Hl). }
    destruct (Hcontract (taskName task) (taskCoreRequirement task)
                (availableCores s) (activeCores s) Hreq0 Hlen) as (Hexact & Hnd & Havail).
    assert (Hfree : forall b0,
               b0 ∈ policy_map (taskName task) (taskCoreRequirement task)
                      (availableCores s) (activeCores s) ->
               0 <= b0 /\ exists c, systemCores s !! Z.to_nat b0 = Some c /\
                                    assignedTaskID c = -1).
    { intros b0 Hb0. destruct (Havail b0 Hb0) as [Hpos Hav]. split; [exact Hpos|].
      destruct (availableCores_free s b0 Hpos Hav) as (c & Hc & Hf & _). eauto. }
    set (s1 := updateTask s taskID putIntoQueue).
    assert (Htask1 : at_index (openTasks s1) taskID = Ok (putIntoQueue task)).
    { apply at_index_Ok in Htask as [Hk Hl]. apply at_index_Ok. split; [exact Hk|].
      simpl. rewrite list_lookup_alter_eq, Hl. reflexivity. }
    apply (start_capacityInv s1 _ taskID (putIntoQueue task) time).
    + apply putIntoQueue_capacityInv; [exact Hinv | lia | exact Hna].
    + exact Htask1.
    + exact Hinactive.
    + rewrite attach_tasks. reflexivity.
    + unfold numberOfAssignedCores.
      rewrite attach_sum by exact taskIdOnly_assigned. simpl systemCores.
      rewrite (assignCores_sum (fun c => b2z (isAssignedToTask c)) taskID 1)
        with (bestCores := policy_map (taskName task) (taskCoreRequirement task)
                             (availableCores s) (activeCores s))
             (cores := systemCores s);
        [simpl; lia | | exact Hnd | exact Hfree | exact Hassign].
      intros c Hc. unfold isAssignedToTask. simpl. rewrite Hc.
      destruct (Z.eqb_spec taskID (-1)); [lia | reflexivity].
    + intros k Hk. unfold coresOfTask.
      rewrite attach_sum by exact (taskIdOnly_ofTask k). simpl systemCores.
      rewrite (assignCores_sum (fun c => b2z (assignedTaskID c =? k)) taskID
                 (if k =? taskID then 1 else 0))
        with (bestCores := policy_map (taskName task) (taskCoreRequirement task)
                             (availableCores s) (activeCores s))
             (cores := systemCores s);
        [| | exact Hnd | exact Hfree | exact Hassign].
      * simpl. destruct (k =? taskID); lia.
      * intros c Hc. simpl. rewrite Hc. rewrite (Z.eqb_sym taskID k).
        destruct (Z.eqb_spec (-1) k); [lia|]. destruct (k =? taskID); reflexivity.
Qed.

Lemma front_not_active (s : SchedulerOpen) (front : Z) :
  capacityInv s -> taskFrontOfQueue s = Ok front -> ~ taskIsActive s front.
Proof.
  intros (_ & _ & Hflags & _) Hfront (t & Ht & Hact).
  unfold taskFrontOfQueue in Hfront.
  destruct (queuePolicy s =? "FIFO")%string; [|discriminate].
  injection Hfront as Hfront.
  pose proof (at_index_bound _ _ _ Ht) as Hrange.
  apply firstIndex_found in Hfront as (x & Hx & Hq & _); [|lia].
  assert (x = t) as -> by congruence.
  apply at_index_Ok in Ht as [_ Ht].
  destruct (Hflags _ _ Ht Hact) as [Hnq _]. congruence.
Qed.

Lemma scheduleFront_capacityInv (s : SchedulerOpen) (time : Z) (r : SchedulerOpen) :
  policyContract -> capacityInv s ->
  (front ← taskFrontOfQueue s; '(_, s') ← schedule s front false time; Ok s') = Ok r ->
  capacityInv r.
Proof.
  intros Hcontract Hinv Hrun.
  apply bind_Ok in Hrun as (front & Hfront & Hrun).
  apply bind_Ok in Hrun as ([b s'] & Hs & Hrun). injection Hrun as <-.
  eapply schedule_capacityInv; eauto using front_not_active.
Qed.

Lemma sumOver_sub {A : Type} (f g : A -> Z) (l : list A) :
  sumOver (fun x => f x - g x) l = sumOver f l - sumOver g l.
Proof. induction l as [|x l IH]; simpl; [reflexivity | rewrite IH; lia]. Qed.

Lemma releaseTask_own (app_id : Z) (c : systemCore) :
  0 <= app_id -> b2z (assignedTaskID (releaseTask app_id c) =? app_id) = 0.
Proof.
  intros Hk. unfold releaseTask.
  destruct (Z.eqb_spec (assignedTaskID c) app_id) as [E|E];
    unfold setAssignedTaskID; cbn [assignedTaskID].
  - destruct (Z.eqb_spec (-1) app_id); [lia | reflexivity].
  - destruct (Z.eqb_spec (assignedTaskID c) app_id); [lia | reflexivity].
Qed.

Lemma releaseTask_other (app_id k : Z) (c : systemCore) :
  0 <= k -> k <> app_id ->
  b2z (assignedTaskID (releaseTask app_id c) =? k) = b2z (assignedTaskID c =? k).
Proof.
  intros Hk Hne. unfold releaseTask.
  destruct (Z.eqb_spec (assignedTaskID c) app_id) as [E|E];
    unfold setAssignedTaskID; cbn [assignedTaskID]; [|reflexivity].
  rewrite E. destruct (Z.eqb_spec (-1) k), (Z.eqb_spec app_id k); try lia; reflexivity.
Qed.

Lemma releaseTask_assigned (app_id : Z) (c : systemCore) :
  0 <= app_id ->
  b2z (isAssignedToTask (releaseTask app_id c)) =
  b2z (isAssignedToTask c) - b2z (assignedTaskID c =? app_id).
Proof.
  intros Hk. unfold releaseTask, isAssignedToTask.
  destruct (Z.eqb_spec (assignedTaskID c) app_id) as [E|E];
    unfold setAssignedTaskID; cbn [assignedTaskID].
  - rewrite E. destruct (Z.eqb_spec app_id (-1)); [lia | reflexivity].
  - unfold b2z at 3. lia.
Qed.

(** The release step of [threadExit] for a primary thread. *)
Lemma release_capacityInv (s : SchedulerOpen) (app_id time : Z) (task : openTask) :
  capacityInv s -> at_index (openTasks s) app_id = Ok task ->
  capacityInv (updateTask (withCores s (releaseTask app_id <$> systemCores s)) app_id
                          (fun t => markDeparted t time)).
Proof.
  intros (Hcap & Htask & Hflags & Hreq) Hat.
  apply at_index_Ok in Hat as [Hk Hl].
  assert (Hrel : forall k, 0 <= k ->
            sumOver (fun c => b2z (assignedTaskID c =? k))
                    (releaseTask app_id <$> systemCores s) =
            if k =? app_id then 0 else coresOfTask s k).
  { intros k Hk0. rewrite sumOver_fmap. destruct (Z.eqb_spec k app_id) as [->|Hne].
    - apply sumOver_zero. intros c _. apply releaseTask_own. exact Hk0.
    - apply sumOver_ext. intros c _. apply releaseTask_other; assumption. }
  assert (Hassigned :
            sumOver (fun c => b2z (isAssignedToTask c)) (releaseTask app_id <$> systemCores s)
            = numberOfAssignedCores s - coresOfTask s app_id).
  { rewrite sumOver_fmap. unfold numberOfAssignedCores, coresOfTask.
    rewrite <- sumOver_sub. apply sumOver_ext. intros c _.
    apply releaseTask_assigned. exact Hk. }
  split; [|split; [|split]].
  - unfold capacity in *. rewrite total_is_sum in *. unfold numberOfAssignedCores.
    simpl. rewrite Hassigned, (sumOver_alter _ _ _ _ task Hl), Hcap.
    rewrite <- (Z2Nat.id app_id) at 1 by lia. rewrite (Htask _ _ Hl).
    change (activeRequirement (markDeparted task time)) with 0. lia.
  - intros i t. unfold coresOfTask. simpl. rewrite Hrel by lia.
    destruct (decide (Z.to_nat app_id = i)) as [<-|Hne].
    + rewrite list_lookup_alter_eq, Hl. intros [= <-].
      rewrite Z2Nat.id, Z.eqb_refl by lia. reflexivity.
    + rewrite list_lookup_alter_ne by exact Hne. intros Hi.
      destruct (Z.eqb_spec (Z.of_nat i) app_id) as [E|_]; [lia|]. apply (Htask _ _ Hi).
  - intros i t. simpl.
    destruct (decide (Z.to_nat app_id = i)) as [<-|Hne].
    + rewrite list_lookup_alter_eq, Hl. intros [= <-]. simpl. discriminate.
    + rewrite list_lookup_alter_ne by exact Hne. apply Hflags.
  - intros i t. simpl.
    destruct (decide (Z.to_nat app_id = i)) as [<-|Hne].
    + rewrite list_lookup_alter_eq, Hl. intros [= <-]. apply (Hreq _ _ Hl).
    + rewrite list_lookup_alter_ne by exact Hne. apply Hreq.
Qed.

Lemma prefetch_capacityInv (s : SchedulerOpen) (time : Z) (r : SchedulerOpen) :
  policyContract -> capacityInv s -> prefetch s time = Ok r -> capacityInv r.
Proof.
  intros Hcontract Hinv. unfold prefetch.
  destruct ((numberOfFreeCores s =? numberOfCores s)
            && negb (numberOfTasksWaitingToSchedule s =? 0)); [|intros [= <-]; exact Hinv].
  destruct (negb (numberOfTasksInQueue s =? 0)).
  { apply scheduleFront_capacityInv; assumption. }
  destruct (negb (numberOfTasksWaitingToSchedule s =? 0)); [|intros [= <-]; exact Hinv].
  intros Hrun. apply bind_Ok in Hrun as (tasks & Hjump & Hrun).
  unfold timeJumpTasks in Hjump.
  destruct (nextArrivalTime (openTasks s) =? 0); [discriminate|]. injection Hjump as <-.
  eapply scheduleFront_capacityInv; [exact Hcontract | | exact Hrun].
  apply capacityInv_fetch. apply capacityInv_readjust. exact Hinv.
Qed.

Lemma threadExit_capacityInv (s : SchedulerOpen) (thread_id time : Z) (r : SchedulerOpen) :
  policyContract -> capacityInv s -> threadExit s thread_id time = Ok r -> capacityInv r.
Proof.
  intros Hcontract Hinv. unfold threadExit. intros Hrun.
  apply bind_Ok in Hrun as (s2 & Hs2 & Hrun).
  apply bind_Ok in Hrun as (s3 & Hs3 & Hrun).
  assert (r = s3) as ->.
  { destruct ((numberOfTasksCompleted s3 =? numberOfTasks s3) && (numberOfTasks s3 =? 0));
      [discriminate | congruence]. }
  eapply prefetch_capacityInv; [exact Hcontract | | exact Hs3].
  pose proof (capacityInv_detach s thread_id Hinv) as Hdet.
  destruct (thread_id <? _).
  - apply bind_Ok in Hs2 as (task & Htask & Hs2). injection Hs2 as <-.
    apply (release_capacityInv _ _ _ task Hdet). exact Htask.
  - injection Hs2 as <-. exact Hdet.
Qed.

Lemma drainQueue_capacityInv (fuel : nat) (s : SchedulerOpen) (time : Z) (r : SchedulerOpen) :
  policyContract -> capacityInv s -> drainQueue fuel s time = Ok r -> capacityInv r.
Proof.
  intros Hcontract. revert s. induction fuel as [|fuel IH]; intros s Hinv; simpl.
  - destruct (numberOfTasksInQueue s =? 0); [intros [= <-]; exact Hinv | discriminate].
  - destruct (numberOfTasksInQueue s =? 0); [intros [= <-]; exact Hinv|].
    intros Hrun. apply bind_Ok in Hrun as (front & Hfront & Hrun).
    apply bind_Ok in Hrun as ([b s'] & Hs & Hrun).
    assert (Hinv' : capacityInv s')
      by (eapply schedule_capacityInv; eauto using front_not_active).
    destruct b; [eapply IH; eauto | injection Hrun as <-; exact Hinv'].
Qed.

Lemma periodic_capacityInv (s : SchedulerOpen) (time : Z) (r : SchedulerOpen) :
  policyContract -> capacityInv s -> periodic s time = Ok r -> capacityInv r.
Proof.
  intros Hcontract Hinv. unfold periodic. intros Hrun.
  apply bind_Ok in Hrun as (u & _ & Hrun).
  destruct (u64 (mappingEpoch s) =? 0); [discriminate|].
  destruct (time mod u64 (mappingEpoch s) =? 0); [|injection Hrun as <-; exact Hinv].
  eapply drainQueue_capacityInv; [exact Hcontract | | exact Hrun].
  apply capacityInv_fetch. exact Hinv.
Qed.

Lemma threadCreate_capacityInv (s : SchedulerOpen) (thread_id time free_core_id : Z)
    (core : Z) (r : SchedulerOpen) :
  policyContract -> capacityInv s -> ~ taskIsActive s thread_id ->
  threadCreate s thread_id time free_core_id = Ok (core, r) -> capacityInv r.
Proof.
  intros Hcontract Hinv Hna. unfold threadCreate. intros Hrun.
  apply bind_Ok in Hrun as (s1 & Hs1 & Hrun).
  assert (Hinv1 : capacityInv s1).
  { destruct (Z.eqb_spec thread_id 0) as [->|_].
    - apply bind_Ok in Hs1 as ([b s'] & Hs & Hs1).
      destruct b; [|discriminate]. injection Hs1 as <-.
      eapply schedule_capacityInv; eauto.
    - destruct ((0 <? thread_id) && (thread_id <? numberOfTasks s)).
      + apply bind_Ok in Hs1 as ([b s'] & Hs & Hs1). injection Hs1 as <-.
        eapply schedule_capacityInv; eauto.
      + injection Hs1 as <-. exact Hinv. }
  pose proof (capacityInv_setAffinity s1 thread_id Hinv1) as Hinv2.
  destruct (negb (free_core_id =? INVALID_CORE_ID)); [injection Hrun as _ <-; exact Hinv2|].
  destruct (thread_id >=? numberOfTasks _); [discriminate|].
  injection Hrun as _ <-. exact Hinv2.
Qed.

Lemma runHook_capacityInv (s : SchedulerOpen) (h : hook) (r : SchedulerOpen) :
  policyContract -> capacityInv s -> notRescheduled s h ->
  runHook s h = Ok r -> capacityInv r.
Proof.
  intros Hcontract Hinv Hallowed. destruct h; simpl in *; intros Hrun.
  - apply bind_Ok in Hrun as ([b s'] & Hs & Hrun). injection Hrun as <-.
    eapply schedule_capacityInv; eauto.
  - injection Hrun as <-. apply capacityInv_setAffinity. exact Hinv.
  - apply bind_Ok in Hrun as ([c s'] & Hs & Hrun). injection Hrun as <-.
    eapply threadCreate_capacityInv; eauto.
  - eapply threadExit_capacityInv; eauto.
  - eapply periodic_capacityInv; eauto.
Qed.

Lemma reachable_capacityInv (init s : SchedulerOpen) :
  policyContract -> initialState init -> reachable notRescheduled init s ->
  capacityInv s.
Proof.
  intros Hcontract Hinit Hreach. induction Hreach as [|s s' h _ IH Hallowed Hrun].
  - apply capacityInv_initial. exact Hinit.
  - eapply runHook_capacityInv; eauto.
Qed.

(** C1 (amended): with a mapping policy that, when it returns at least
    the required number of indices, returns exactly that many distinct
    indices of available cores, and provided [schedule] is never called
    (directly or by [threadCreate]) for a task that is already Active,
    every state reached from the constructor's state by hooks that return
    satisfies I1 and P1: the cores with an assigned task are as many as
    the Active tasks require, and together with the free cores they are
    all M cores. *)
Theorem capacity_invariant (init s : SchedulerOpen) :
  policyContract -> initialState init -> reachable notRescheduled init s ->
  numberOfAssignedCores s = totalCoreRequirementsOfActiveTasks s /\
  numberOfFreeCores s + totalCoreRequirementsOfActiveTasks s = numberOfCores s.
Proof.
  intros Hcontract Hinit Hreach.
  destruct (reachable_capacityInv init s Hcontract Hinit Hreach) as (Hcap & _).
  unfold capacity in Hcap. split; [exact Hcap|].
  rewrite <- Hcap. apply free_plus_assigned.
Qed.

End EngineFacts.

Lemma filter_sublist {A : Type} (p : A -> bool) (l : list A) :
  List.filter p l `sublist_of` l.
Proof.
  induction l as [|x l IH]; simpl; [constructor|].
  destruct (p x); [apply sublist_skip | apply sublist_cons]; exact IH.
Qed.

(** The first-unused policy over a duplicate-free preference list honours
    the contract of the mapping interface. *)
Lemma MapFirstUnused_contract (preferredCoresOrder : list Z) :
  NoDup preferredCoresOrder -> @policyContract (MapFirstUnused preferredCoresOrder).
Proof.
  intros Hnd name required available active. simpl. intros Hreq Hlen.
  split; [|split].
  - pose proof (length_take (List.filter (isAvailable available) preferredCoresOrder)
                            (Z.to_nat required)). lia.
  - apply (sublist_NoDup _ preferredCoresOrder); [exact Hnd|].
    transitivity (List.filter (isAvailable available) preferredCoresOrder);
      [apply sublist_take | apply filter_sublist].
  - intros b Hb. apply subseteq_take in Hb. apply list_elem_of_In in Hb.
    apply filter_In in Hb as [_ Hb]. unfold isAvailable in Hb.
    apply andb_true_iff in Hb as [Hpos Hav]. apply Z.leb_le in Hpos.
    split; [exact Hpos|].
    destruct (available !! Z.to_nat b) as [[|]|]; simpl in Hav;
      [reflexivity | discriminate | discriminate].
Qed.

Lemma NoDup_firstFour : NoDup [0; 1; 2; 3].
Proof.
  apply NoDup_ListNoDup. repeat (constructor; [simpl; lia|]). constructor.
Qed.

Lemma initialState_oneTaskFourCores : initialState oneTaskFourCores.
Proof.
  split; repeat constructor; simpl; lia.
Qed.

(** C1 (as stated, refuted): [schedule (0, true, 0)] called twice on one
    task that needs 2 of 4 cores maps the task twice; both calls return,
    the policy honours its contract, and afterwards 4 cores are assigned
    while the Active tasks require 2. *)
Lemma capacity_counterexample :
  @policyContract firstFour /\ initialState oneTaskFourCores /\
  exists s,
    @runHooks firstFour (simpleHost 1 0) oneTaskFourCores
      [Schedule 0 true 0; Schedule 0 true 0] = Ok s /\
    numberOfAssignedCores s = 4 /\ totalCoreRequirementsOfActiveTasks s = 2 /\
    numberOfAssignedCores s <> totalCoreRequirementsOfActiveTasks s.
Proof.
  split; [apply MapFirstUnused_contract, NoDup_firstFour|].
  split; [exact initialState_oneTaskFourCores|].
  eexists. split; [vm_compute; reflexivity|].
  split; [reflexivity|]. split; [reflexivity|]. vm_compute. discriminate.
Qed.

Lemma capacity_invariant_witness :
  @runHook firstFour (simpleHost 1 0) oneTaskFourCores (ThreadCreate 0 0 0)
    = Ok oneTaskStarted /\
  numberOfAssignedCores oneTaskStarted = totalCoreRequirementsOfActiveTasks oneTaskStarted /\
  numberOfFreeCores oneTaskStarted + totalCoreRequirementsOfActiveTasks oneTaskStarted
    = numberOfCores oneTaskStarted.
Proof.
  split; [vm_compute; reflexivity|].
  apply (@capacity_invariant firstFour (simpleHost 1 0) oneTaskFourCores oneTaskStarted).
  - apply MapFirstUnused_contract, NoDup_firstFour.
  - exact initialState_oneTaskFourCores.
  - apply (@reach_step firstFour (simpleHost 1 0) notRescheduled oneTaskFourCores
             oneTaskFourCores oneTaskStarted (ThreadCreate 0 0 0)).
    + apply reach_init.
    + intros (t & Ht & Hact). vm_compute in Ht. injection Ht as <-. discriminate.
    + vm_compute. reflexivity.
Defined.

(** ** Witnesses and refutations for [schedule] *)

Lemma schedule_failure_atomic_witness :
  exists task task',
    0 <= 0 < Z.of_nat (length (openTasks maskedSecondCore)) /\
    at_index (openTasks maskedSecondCore) 0 = Ok task /\
    at_index (openTasks (updateTask maskedSecondCore 0 putIntoQueue)) 0 = Ok task' /\
    (0 < taskArrivalTime task ->
       updateTask maskedSecondCore 0 putIntoQueue = maskedSecondCore /\ task' = task) /\
    (taskArrivalTime task <= 0 ->
       waitingInQueue task' = true /\ waitingToSchedule task' = false) /\
    systemCores (updateTask maskedSecondCore 0 putIntoQueue) = systemCores maskedSecondCore /\
    taskStartTime task' = taskStartTime task /\
    active task' = active task.
Proof.
  apply (@schedule_failure_atomic (MapFirstUnused [0; 1]) (simpleHost 1 0)
           maskedSecondCore 0 true 0 (updateTask maskedSecondCore 0 putIntoQueue)).
  vm_compute. reflexivity.
Defined.


(** ** Thread-core-task consistency (I3) *)

Section Consistency.
Context `{MappingPolicy} `{ThreadManager}.

(** Application identifiers are never the sentinel -1. *)
Hypothesis appIdValid : forall thread_id, getAppId thread_id <> -1.

Lemma consistent_same_cores (s s' : SchedulerOpen) :
  systemCores s' = systemCores s ->
  threadCoreTaskConsistent s -> threadCoreTaskConsistent s'.
Proof. unfold threadCoreTaskConsistent. intros ->. auto. Qed.

Lemma consistent_initial (s : SchedulerOpen) :
  initialState s -> threadCoreTaskConsistent s.
Proof.
  intros [Hcores _] i c Hi Hthread. rewrite Forall_forall in Hcores.
  destruct (Hcores c) as [_ E]; [apply list_elem_of_lookup; eauto | contradiction].
Qed.

Lemma consistent_setAffinity (s : SchedulerOpen) (thread_id : Z) :
  threadCoreTaskConsistent s -> threadCoreTaskConsistent (snd (setAffinity s thread_id)).
Proof.
  intros Hinv. unfold setAffinity.
  set (p := fun c => (assignedTaskID c =? getAppId thread_id) && (assignedThreadID c =? -1)).
  destruct (Z.eqb_spec (firstIndex p (systemCores s)) (-1)) as [_|Hfound]; [exact Hinv|].
  destruct (firstIndex_found p (systemCores s) _ eq_refl Hfound) as (x & Hx & Hp & _).
  apply at_index_Ok in Hx as [_ Hx].
  apply andb_true_iff in Hp as [Htask _]. apply Z.eqb_eq in Htask.
  intros i c. simpl.
  destruct (decide (Z.to_nat (firstIndex p (systemCores s)) = i)) as [<-|Hne].
  - rewrite list_lookup_alter_eq, Hx. intros [= <-]. simpl. intros _.
    rewrite Htask. split; [apply appIdValid | reflexivity].
  - rewrite list_lookup_alter_ne by exact Hne. apply Hinv.
Qed.

Lemma consistent_attach (isInitialCall : bool) (taskID : Z) (s : SchedulerOpen) :
  threadCoreTaskConsistent s -> threadCoreTaskConsistent (attach isInitialCall taskID s).
Proof.
  intros Hinv. unfold attach. destruct isInitialCall; [exact Hinv|].
  apply consistent_setAffinity. exact Hinv.
Qed.

Lemma consistent_detach (s : SchedulerOpen) (thread_id : Z) :
  threadCoreTaskConsistent s ->
  threadCoreTaskConsistent (withCores s (detachThread thread_id <$> systemCores s)).
Proof.
  intros Hinv i c. simpl. rewrite list_lookup_fmap.
  destruct (systemCores s !! i) as [c0|] eqn:E; [|discriminate]. intros [= <-].
  unfold detachThread. destruct (Z.eqb_spec (assignedThreadID c0) thread_id); simpl.
  - intros Hc. contradiction.
  - apply (Hinv i c0 E).
Qed.

(** What [assignCores] does to each core record. *)
Lemma assignCores_lookup (taskID : Z) (bestCores : list Z) :
  forall (cores cores' : list systemCore),
    assignCores taskID bestCores cores = Ok cores' ->
    forall (i : nat) (c' : systemCore), cores' !! i = Some c' ->
      exists c, cores !! i = Some c /\ assignedThreadID c' = assignedThreadID c /\
                (c' = c \/ (Z.of_nat i ∈ bestCores /\ assignedTaskID c' = taskID)).
Proof.
  induction bestCores as [|b rest IH]; intros cores cores' Hassign i c' Hi.
  - simpl in Hassign. injection Hassign as <-. exists c'. auto.
  - cbn [assignCores] in Hassign. apply bind_Ok in Hassign as (c0 & Hc0 & Hassign).
    apply at_index_Ok in Hc0 as [Hb Hc0].
    destruct (IH _ _ Hassign i c' Hi) as (c1 & Hc1 & Hthread & Hcase).
    destruct (decide (Z.to_nat b = i)) as [<-|Hne].
    + rewrite list_lookup_insert_eq in Hc1 by (eapply lookup_lt_Some; eauto).
      injection Hc1 as <-. exists c0. split; [exact Hc0|]. split; [exact Hthread|].
      right. split; [rewrite Z2Nat.id by lia; left|].
      destruct Hcase as [->|[_ E]]; [reflexivity | exact E].
    + rewrite list_lookup_insert_ne in Hc1 by exact Hne.
      exists c1. split; [exact Hc1|]. split; [exact Hthread|].
      destruct Hcase as [->|[Hin E]]; [left; reflexivity|].
      right. split; [right; exact Hin | exact E].
Qed.

Lemma consistent_assign (s : SchedulerOpen) (taskID : Z) (bestCores : list Z)
    (cores : list systemCore) :
  threadCoreTaskConsistent s ->
  (forall b, b ∈ bestCores -> 0 <= b /\ availableCores s !! Z.to_nat b = Some true) ->
  assignCores taskID bestCores (systemCores s) = Ok cores ->
  threadCoreTaskConsistent (withCores s cores).
Proof.
  intros Hinv Havail Hassign i c' Hi Hthread. simpl in Hi.
  destruct (assignCores_lookup _ _ _ _ Hassign i c' Hi) as (c & Hc & Hsame & Hcase).
  rewrite Hsame in Hthread. destruct (Hinv i c Hc Hthread) as [Htask Happ].
  destruct Hcase as [->|[Hin _]]; [auto|].
  exfalso. destruct (Havail _ Hin) as [Hpos Hav].
  destruct (availableCores_free s _ Hpos Hav) as (c2 & Hc2 & Hfree & _).
  rewrite Nat2Z.id in Hc2. congruence.
Qed.

Lemma schedule_consistent (s : SchedulerOpen) (taskID : Z) (isInitialCall : bool)
    (time : Z) (b : bool) (s' : SchedulerOpen) :
  policyAvailable -> threadCoreTaskConsistent s ->
  schedule s taskID isInitialCall time = Ok (b, s') -> threadCoreTaskConsistent s'.
Proof.
  intros Hcontract Hinv Hs.
  apply schedule_cases in Hs as (task & Htask & Hcases).
  destruct Hcases as [(_ & _ & ->)|[(_ & _ & ->)|
                      (_ & _ & _ & _ & cores & Hlen & Hassign & ->)]].
  - exact Hinv.
  - exact Hinv.
  - simpl in Hlen, Hassign.
    apply (consistent_same_cores
             (attach isInitialCall taskID
                (withCores (updateTask s taskID putIntoQueue) cores)));
      [reflexivity|].
    apply consistent_attach.
    apply (consistent_same_cores (withCores s cores)); [reflexivity|].
    eapply consistent_assign; [exact Hinv | | exact Hassign].
    intros b0 Hb0. eapply Hcontract. exact Hb0.
Qed.

Lemma scheduleFront_consistent (s : SchedulerOpen) (time : Z) (r : SchedulerOpen) :
  policyAvailable -> threadCoreTaskConsistent s ->
  (front ← taskFrontOfQueue s; '(_, s') ← schedule s front false time; Ok s') = Ok r ->
  threadCoreTaskConsistent r.
Proof.
  intros Hcontract Hinv Hrun.
  apply bind_Ok in Hrun as (front & Hfront & Hrun).
  apply bind_Ok in Hrun as ([b s'] & Hs & Hrun). injection Hrun as <-.
  eapply schedule_consistent; eauto.
Qed.

Lemma prefetch_consistent (s : SchedulerOpen) (time : Z) (r : SchedulerOpen) :
  policyAvailable -> threadCoreTaskConsistent s ->
  prefetch s time = Ok r -> threadCoreTaskConsistent r.
Proof.
  intros Hcontract Hinv. unfold prefetch.
  destruct ((numberOfFreeCores s =? numberOfCores s)
            && negb (numberOfTasksWaitingToSchedule s =? 0)); [|intros [= <-]; exact Hinv].
  destruct (negb (numberOfTasksInQueue s =? 0)).
  { apply scheduleFront_consistent; assumption. }
  destruct (negb (numberOfTasksWaitingToSchedule s =? 0)); [|intros [= <-]; exact Hinv].
  intros Hrun. apply bind_Ok in Hrun as (tasks & Hjump & Hrun).
  eapply scheduleFront_consistent; [exact Hcontract | | exact Hrun].
  apply (consistent_same_cores s); [reflexivity | exact Hinv].
Qed.

Lemma consistent_release (s : SchedulerOpen) (app_id : Z) :
  threadCoreTaskConsistent s ->
  (forall (i : nat) (c : systemCore),
     systemCores s !! i = Some c -> assignedTaskID c = app_id -> assignedThreadID c = -1) ->
  threadCoreTaskConsistent (withCores s (releaseTask app_id <$> systemCores s)).
Proof.
  intros Hinv Hgone i c. simpl. rewrite list_lookup_fmap.
  destruct (systemCores s !! i) as [c0|] eqn:E; [|discriminate]. intros [= <-].
  unfold releaseTask. destruct (Z.eqb_spec (assignedTaskID c0) app_id) as [Happ|_].
  - simpl. intros Hthread. exfalso. apply Hthread. apply (Hgone i c0 E Happ).
  - apply (Hinv i c0 E).
Qed.

Lemma threadExit_consistent (s : SchedulerOpen) (thread_id time : Z) (r : SchedulerOpen) :
  policyAvailable -> threadCoreTaskConsistent s ->
  workersGone s (ThreadExit thread_id time) ->
  threadExit s thread_id time = Ok r -> threadCoreTaskConsistent r.
Proof.
  intros Hcontract Hinv Hgone. unfold threadExit. intros Hrun.
  apply bind_Ok in Hrun as (s2 & Hs2 & Hrun).
  apply bind_Ok in Hrun as (s3 & Hs3 & Hrun).
  assert (r = s3) as ->.
  { destruct ((numberOfTasksCompleted s3 =? numberOfTasks s3) && (numberOfTasks s3 =? 0));
      [discriminate | congruence]. }
  eapply prefetch_consistent; [exact Hcontract | | exact Hs3].
  pose proof (consistent_detach s thread_id Hinv) as Hdet.
  destruct (Z.ltb_spec thread_id
              (numberOfTasks (withCores s (detachThread thread_id <$> systemCores s))))
    as [Hprimary|_].
  - apply bind_Ok in Hs2 as (task & Htask & Hs2). injection Hs2 as <-.
    apply (consistent_same_cores
             (withCores (withCores s (detachThread thread_id <$> systemCores s))
                (releaseTask (getAppId thread_id)
                   <$> systemCores
                         (withCores s (detachThread thread_id <$> systemCores s)))));
      [reflexivity|].
    apply consistent_release; [exact Hdet|].
    intros i c. simpl. rewrite list_lookup_fmap.
    destruct (systemCores s !! i) as [c0|] eqn:E; [|discriminate]. intros [= <-].
    unfold detachThread.
    destruct (Z.eqb_spec (assignedThreadID c0) thread_id) as [Hself|Hother]; simpl.
    + reflexivity.
    + intros Happ. destruct (Hgone Hprimary i c0 E Happ) as [Hnone|Hsame];
        [exact Hnone | contradiction].
  - injection Hs2 as <-. exact Hdet.
Qed.

Lemma drainQueue_consistent (fuel : nat) (s : SchedulerOpen) (time : Z) (r : SchedulerOpen) :
  policyAvailable -> threadCoreTaskConsistent s ->
  drainQueue fuel s time = Ok r -> threadCoreTaskConsistent r.
Proof.
  intros Hcontract. revert s. induction fuel as [|fuel IH]; intros s Hinv; simpl.
  - destruct (numberOfTasksInQueue s =? 0); [intros [= <-]; exact Hinv | discriminate].
  - destruct (numberOfTasksInQueue s =? 0); [intros [= <-]; exact Hinv|].
    intros Hrun. apply bind_Ok in Hrun as (front & Hfront & Hrun).
    apply bind_Ok in Hrun as ([b s'] & Hs & Hrun).
    assert (Hinv' : threadCoreTaskConsistent s')
      by (eapply schedule_consistent; eauto).
    destruct b; [eapply IH; eauto | injection Hrun as <-; exact Hinv'].
Qed.

Lemma periodic_consistent (s : SchedulerOpen) (time : Z) (r : SchedulerOpen) :
  policyAvailable -> threadCoreTaskConsistent s ->
  periodic s time = Ok r -> threadCoreTaskConsistent r.
Proof.
  intros Hcontract Hinv. unfold periodic. intros Hrun.
  apply bind_Ok in Hrun as (u & _ & Hrun).
  destruct (u64 (mappingEpoch s) =? 0); [discriminate|].
  destruct (time mod u64 (mappingEpoch s) =? 0); [|injection Hrun as <-; exact Hinv].
  eapply drainQueue_consistent; [exact Hcontract | | exact Hrun].
  apply (consistent_same_cores s); [reflexivity | exact Hinv].
Qed.

Lemma threadCreate_consistent (s : SchedulerOpen) (thread_id time free_core_id : Z)
    (core : Z) (r : SchedulerOpen) :
  policyAvailable -> threadCoreTaskConsistent s ->
  threadCreate s thread_id time free_core_id = Ok (core, r) -> threadCoreTaskConsistent r.
Proof.
  intros Hcontract Hinv. unfold threadCreate. intros Hrun.
  apply bind_Ok in Hrun as (s1 & Hs1 & Hrun).
  assert (Hinv1 : threadCoreTaskConsistent s1).
  { destruct (Z.eqb_spec thread_id 0) as [->|_].
    - apply bind_Ok in Hs1 as ([b s'] & Hs & Hs1).
      destruct b; [|discriminate]. injection Hs1 as <-.
      eapply schedule_consistent; eauto.
    - destruct ((0 <? thread_id) && (thread_id <? numberOfTasks s)).
      + apply bind_Ok in Hs1 as ([b s'] & Hs & Hs1). injection Hs1 as <-.
        eapply schedule_consistent; eauto.
      + injection Hs1 as <-. exact Hinv. }
  pose proof (consistent_setAffinity s1 thread_id Hinv1) as Hinv2.
  destruct (negb (free_core_id =? INVALID_CORE_ID)); [injection Hrun as _ <-; exact Hinv2|].
  destruct (thread_id >=? numberOfTasks _); [discriminate|].
  injection Hrun as _ <-. exact Hinv2.
Qed.

Lemma runHook_consistent (s : SchedulerOpen) (h : hook) (r : SchedulerOpen) :
  policyAvailable -> threadCoreTaskConsistent s -> workersGone s h ->
  runHook s h = Ok r -> threadCoreTaskConsistent r.
Proof.
  intros Hcontract Hinv Hallowed. destruct h; simpl runHook; intros Hrun.
  - apply bind_Ok in Hrun as ([b s'] & Hs & Hrun). injection Hrun as <-.
    eapply schedule_consistent; eauto.
  - injection Hrun as <-. apply consistent_setAffinity. exact Hinv.
  - apply bind_Ok in Hrun as ([c s'] & Hs & Hrun). injection Hrun as <-.
    eapply threadCreate_consistent; eauto.
  - eapply threadExit_consistent; eauto.
  - eapply periodic_consistent; eauto.
Qed.

(** C7 (amended): when application ids are never -1, the mapping policy
    returns only indices of available cores, and a primary thread exits
    only after every other thread attached to a core of its task has
    exited, every state reached from the constructor's state by hooks
    (schedule, set_affinity, thread_create, thread_exit, periodic) that
    return satisfies I3: a core with an attached thread has an assigned
    task, and that task is the thread's application. *)
Theorem thread_core_task_consistency (init s : SchedulerOpen) :
  policyAvailable -> initialState init -> reachable workersGone init s ->
  forall (i : nat) (c : systemCore),
    systemCores s !! i = Some c -> assignedThreadID c <> -1 ->
    assignedTaskID c <> -1 /\ getAppId (assignedThreadID c) = assignedTaskID c.
Proof.
  intros Hcontract Hinit Hreach.
  change (threadCoreTaskConsistent s).
  induction Hreach as [|s s' h _ IH Hallowed Hrun].
  - apply consistent_initial. exact Hinit.
  - eapply runHook_consistent; eauto.
Qed.

End Consistency.

Lemma MapFirstUnused_available (preferredCoresOrder : list Z) :
  @policyAvailable (MapFirstUnused preferredCoresOrder).
Proof.
  intros name required available active b. simpl. intros Hb.
  apply subseteq_take in Hb. apply list_elem_of_In in Hb.
  apply filter_In in Hb as [_ Hb]. unfold isAvailable in Hb.
  apply andb_true_iff in Hb as [Hpos Hav]. apply Z.leb_le in Hpos.
  split; [exact Hpos|].
  destruct (available !! Z.to_nat b) as [[|]|]; simpl in Hav;
    [reflexivity | discriminate | discriminate].
Qed.

Lemma simpleHost_valid (n worker_app : Z) :
  0 <= worker_app -> forall thread_id, @getAppId (simpleHost n worker_app) thread_id <> -1.
Proof.
  intros Hw thread_id. simpl.
  destruct (Z.leb_spec 0 thread_id); simpl; [|lia].
  destruct (thread_id <? n); lia.
Qed.

(** C7 (as stated, refuted): task 0 holds cores 0 and 1; its primary thread
    0 is attached to core 0 and its worker thread 1 to core 1.  When the
    primary thread exits first, [threadExit] releases both cores of the
    task but detaches only thread 0: core 1 is left with thread 1 attached
    and no assigned task. *)
Lemma thread_core_task_counterexample :
  @policyAvailable firstFour /\ initialState oneTaskFourCores /\
  (forall thread_id, @getAppId (simpleHost 1 0) thread_id <> -1) /\
  exists s c,
    @runHooks firstFour (simpleHost 1 0) oneTaskFourCores
      [ThreadCreate 0 0 0; ThreadCreate 1 0 1; ThreadExit 0 5000] = Ok s /\
    systemCores s !! 1%nat = Some c /\
    assignedThreadID c = 1 /\ assignedTaskID c = -1 /\
    ~ @threadCoreTaskConsistent (simpleHost 1 0) s.
Proof.
  split; [apply MapFirstUnused_available|].
  split; [exact initialState_oneTaskFourCores|].
  split; [apply simpleHost_valid; lia|].
  eexists. eexists. split; [vm_compute; reflexivity|].
  split; [reflexivity|]. split; [reflexivity|]. split; [reflexivity|].
  intros Hinv. destruct (Hinv 1%nat _ eq_refl) as [Htask _]; [simpl; lia|].
  apply Htask. reflexivity.
Qed.

Lemma thread_core_task_consistency_witness :
  exists c,
    @runHook firstFour (simpleHost 1 0) oneTaskFourCores (ThreadCreate 0 0 0)
      = Ok oneTaskStarted /\
    systemCores oneTaskStarted !! 0%nat = Some c /\ assignedThreadID c <> -1 /\
    assignedTaskID c <> -1 /\
    @getAppId (simpleHost 1 0) (assignedThreadID c) = assignedTaskID c.
Proof.
  eexists. split; [vm_compute; reflexivity|].
  split; [reflexivity|]. split; [simpl; lia|].
  apply (@thread_core_task_consistency firstFour (simpleHost 1 0)
           (simpleHost_valid 1 0 ltac:(lia)) oneTaskFourCores oneTaskStarted
           (MapFirstUnused_available _) initialState_oneTaskFourCores) with (i := 0%nat).
  - apply (@reach_step firstFour (simpleHost 1 0) workersGone oneTaskFourCores
             oneTaskFourCores oneTaskStarted (ThreadCreate 0 0 0)).
    + apply reach_init.
    + exact I.
    + vm_compute. reflexivity.
  - reflexivity.
  - simpl. lia.
Defined.

(** ** Free cores and the core mask *)

Lemma assignCores_length (taskID : Z) (bestCores : list Z) :
  forall (cores cores' : list systemCore),
    assignCores taskID bestCores cores = Ok cores' -> length cores' = length cores.
Proof.
  induction bestCores as [|b rest IH]; intros cores cores' Hassign.
  - simpl in Hassign. injection Hassign as <-. reflexivity.
  - cbn [assignCores] in Hassign. apply bind_Ok in Hassign as (c0 & _ & Hassign).
    rewrite (IH _ _ Hassign). apply length_insert.
Qed.

Lemma masked_core_not_available (s : SchedulerOpen) (i : nat) (c : systemCore) :
  systemCores s !! i = Some c -> m_core_mask s !! i = Some false ->
  availableCores s !! i = Some false.
Proof.
  intros Hc Hmask. unfold availableCores. rewrite list_lookup_imap, Hc, Hmask. reflexivity.
Qed.

Lemma masked_core_never_assigned `{MappingPolicy} (s : SchedulerOpen) (taskID time : Z)
    (s' : SchedulerOpen) (i : nat) (c : systemCore) :
  policyAvailable ->
  executeMappingPolicy s taskID time = Ok (true, s') ->
  systemCores s !! i = Some c -> m_core_mask s !! i = Some false ->
  systemCores s' !! i = Some c.
Proof.
  intros Hcontract Hmap Hc Hmask. unfold executeMappingPolicy in Hmap.
  apply bind_Ok in Hmap as (task & Htask & Hmap).
  destruct (_ <? _); [discriminate|].
  apply bind_Ok in Hmap as (cores & Hassign & Hmap). injection Hmap as <-. simpl.
  destruct (cores !! i) as [c'|] eqn:Hc'.
  - destruct (assignCores_lookup _ _ _ _ Hassign i c' Hc') as (c0 & Hc0 & _ & Hcase).
    assert (c0 = c) as -> by congruence.
    destruct Hcase as [->|[Hin _]]; [reflexivity|].
    exfalso. destruct (Hcontract _ _ _ _ _ Hin) as [_ Hav].
    rewrite Nat2Z.id in Hav.
    rewrite (masked_core_not_available s i c Hc Hmask) in Hav. discriminate.
  - exfalso. apply lookup_ge_None in Hc'. apply lookup_lt_Some in Hc.
    rewrite (assignCores_length _ _ _ _ Hassign) in Hc'. lia.
Qed.

Lemma contract_available `{MappingPolicy} :
  policyContract ->
  forall name required available active,
    0 <= required ->
    required <= Z.of_nat (length (policy_map name required available active)) ->
    Z.of_nat (length (policy_map name required available active)) = required /\
    NoDup (policy_map name required available active) /\
    forall b, b ∈ policy_map name required available active ->
              0 <= b /\ available !! Z.to_nat b = Some true.
Proof. intros Hc name required available active. apply Hc. Qed.

(** No policy that honours the contract finds two available cores when
    only core 0 is available. *)
Lemma one_available_core_is_not_two `{MappingPolicy} (name : string) (active : list bool) :
  policyContract ->
  Z.of_nat (length (policy_map name 2 [true; false] active)) < 2.
Proof.
  intros Hcontract.
  destruct (Z.ltb_spec (Z.of_nat (length (policy_map name 2 [true; false] active))) 2)
    as [Hshort|Hlong]; [exact Hshort|]. exfalso.
  destruct (contract_available Hcontract name 2 [true; false] active ltac:(lia) Hlong)
    as (Hlen & Hnd & Hav).
  assert (Hzero : forall b, b ∈ policy_map name 2 [true; false] active -> b = 0).
  { intros b Hb. destruct (Hav b Hb) as [Hpos Hl].
    destruct (Z.to_nat b) as [|[|n]] eqn:E; simpl in Hl; try discriminate. lia. }
  destruct (policy_map name 2 [true; false] active) as [|x [|y rest]];
    simpl in Hlen; try lia.
  apply NoDup_cons in Hnd as [Hnotin _]. apply Hnotin.
  rewrite (Hzero x), (Hzero y); [left | right; left | left].
Qed.

(** C10: the free-core count is M minus the number of assigned cores and
    does not look at the core mask, although a masked-out free core is
    never available to the mapping policy nor ever assigned by it; so there
    is a state (two free cores, the second masked out, a task that needs
    two) where [schedule] passes the capacity check and then fails in the
    mapping step, whatever contract-honouring policy is used. *)
Theorem free_cores_ignore_mask :
  (forall s, numberOfFreeCores s = numberOfCores s - numberOfAssignedCores s) /\
  (forall s mask,
     numberOfFreeCores
       (mkSched mask (mappingEpoch s) (queuePolicy s) (numberOfTasks s) (openTasks s)
                (systemCores s))
     = numberOfFreeCores s) /\
  (forall s (i : nat) c,
     systemCores s !! i = Some c -> assignedTaskID c = -1 ->
     m_core_mask s !! i = Some false ->
     availableCores s !! i = Some false /\
     forall (P : MappingPolicy) taskID time s',
       @policyAvailable P ->
       @executeMappingPolicy P s taskID time = Ok (true, s') ->
       systemCores s' !! i = Some c) /\
  (exists s taskID task,
     at_index (openTasks s) taskID = Ok task /\
     taskCoreRequirement task <= numberOfFreeCores s /\
     forall (P : MappingPolicy) (T : ThreadManager) isInitialCall,
       @policyContract P ->
       @taskFrontOfQueue (updateTask s taskID putIntoQueue) = Ok taskID /\
       @executeMappingPolicy P (updateTask s taskID putIntoQueue) taskID 0
         = Ok (false, updateTask s taskID putIntoQueue) /\
       @schedule P T s taskID isInitialCall 0
         = Ok (false, updateTask s taskID putIntoQueue)).
Proof.
  split; [|split; [|split]].
  - intros s. pose proof (free_plus_assigned s). lia.
  - intros s mask. reflexivity.
  - intros s i c Hc Hfree Hmask. split.
    + apply (masked_core_not_available s i c Hc Hmask).
    + intros P taskID time s' Hcontract Hmap.
      apply (masked_core_never_assigned s taskID time s' i c Hcontract Hmap Hc Hmask).
  - exists maskedSecondCore, 0, (newTask 0 "splash2-fft-small-2" 2).
    split; [reflexivity|]. split; [vm_compute; discriminate|].
    intros P T isInitialCall Hcontract.
    pose proof (one_available_core_is_not_two "splash2-fft-small-2" [false; false] Hcontract)
      as Hshort.
    apply Z.ltb_lt in Hshort.
    assert (Hmap : @executeMappingPolicy P (updateTask maskedSecondCore 0 putIntoQueue) 0 0
                   = Ok (false, updateTask maskedSecondCore 0 putIntoQueue)).
    { unfold executeMappingPolicy.
      change (at_index (openTasks (updateTask maskedSecondCore 0 putIntoQueue)) 0)
        with (Ok (putIntoQueue (newTask 0 "splash2-fft-small-2" 2))).
      cbn [mbind outcome_bind].
      change (availableCores (updateTask maskedSecondCore 0 putIntoQueue))
        with [true; false].
      change (activeCores (updateTask maskedSecondCore 0 putIntoQueue))
        with [false; false].
      change (taskName (putIntoQueue (newTask 0 "splash2-fft-small-2" 2)))
        with "splash2-fft-small-2"%string.
      change (taskCoreRequirement (putIntoQueue (newTask 0 "splash2-fft-small-2" 2)))
        with 2.
      rewrite Hshort. reflexivity. }
    split; [reflexivity|]. split; [exact Hmap|].
    unfold schedule.
    change (at_index (openTasks maskedSecondCore) 0)
      with (Ok (newTask 0 "splash2-fft-small-2" 2)).
    cbn [mbind outcome_bind].
    change (taskArrivalTime (newTask 0 "splash2-fft-small-2" 2) >? 0) with false.
    cbv iota.
    change (taskFrontOfQueue (updateTask maskedSecondCore 0 putIntoQueue)) with (Ok 0).
    cbn [mbind outcome_bind].
    change (negb (0 =? 0)) with false. cbv iota.
    change (numberOfFreeCores (updateTask maskedSecondCore 0 putIntoQueue)
            <? taskCoreRequirement (newTask 0 "splash2-fft-small-2" 2)) with false.
    cbv iota. rewrite Hmap. reflexivity.
Qed.

Lemma free_cores_ignore_mask_witness :
  numberOfFreeCores maskedSecondCore
  = numberOfCores maskedSecondCore - numberOfAssignedCores maskedSecondCore.
Proof. apply (proj1 free_cores_ignore_mask). Defined.

(** ** The empty-system time jump *)

Lemma nextArrivalTime_fold (tasks : list openTask) :
  (forall t, t ∈ tasks -> waitingToSchedule t = true -> 0 < taskArrivalTime t) ->
  forall acc, 0 <= acc ->
    let next :=
      fold_left
        (fun next t =>
           if waitingToSchedule t then
             if next =? 0 then taskArrivalTime t
             else if next >? taskArrivalTime t then taskArrivalTime t
             else next
           else next)
        tasks acc in
    (next = acc \/
     exists t, t ∈ tasks /\ waitingToSchedule t = true /\ taskArrivalTime t = next) /\
    (acc <> 0 -> 0 < next <= acc) /\
    (forall t, t ∈ tasks -> waitingToSchedule t = true -> 0 < next <= taskArrivalTime t).
Proof.
  induction tasks as [|t rest IH]; intros Hpos acc Hacc; cbn [fold_left].
  - split; [left; reflexivity|]. split; [lia|].
    intros t Ht. apply elem_of_nil in Ht. contradiction.
  - set (acc' := if waitingToSchedule t then
                   if acc =? 0 then taskArrivalTime t
                   else if acc >? taskArrivalTime t then taskArrivalTime t
                   else acc
                 else acc).
    assert (Hrest : forall t0, t0 ∈ rest -> waitingToSchedule t0 = true ->
                               0 < taskArrivalTime t0).
    { intros t0 Ht0. apply Hpos. right. exact Ht0. }
    assert (Hacc' : 0 <= acc' /\ (acc <> 0 -> 0 < acc' <= acc) /\
                    (waitingToSchedule t = true ->
                       0 < acc' <= taskArrivalTime t /\
                       (acc' = acc \/ acc' = taskArrivalTime t)) /\
                    (waitingToSchedule t = false -> acc' = acc)).
    { unfold acc'. destruct (waitingToSchedule t) eqn:Hw.
      - pose proof (Hpos t ltac:(left) Hw) as Ht.
        destruct (Z.eqb_spec acc 0) as [->|Hne].
        + repeat split; intros; try lia; try discriminate.
        + destruct (Z.gtb_spec acc (taskArrivalTime t));
            repeat split; intros; try lia; try discriminate.
      - repeat split; intros; try lia; try discriminate. }
    destruct Hacc' as (Hnonneg & Hle & Hwait & Hskip).
    destruct (IH Hrest acc' Hnonneg) as (Hfrom & Hbound & Hmin).
    split; [|split].
    + destruct Hfrom as [Heq|(t0 & Ht0 & Hw0 & Ha0)].
      * destruct (waitingToSchedule t) eqn:Hw.
        -- destruct (Hwait eq_refl) as [_ [E|E]].
           ++ left. lia.
           ++ right. exists t. split; [left|]. split; [exact Hw | lia].
        -- left. rewrite (Hskip eq_refl) in Heq. exact Heq.
      * right. exists t0. split; [right; exact Ht0 | auto].
    + intros Hne. specialize (Hle Hne). specialize (Hbound ltac:(lia)). lia.
    + intros t0 Ht0 Hw0. apply elem_of_cons in Ht0 as [->|Ht0].
      * destruct (Hwait Hw0) as [Hb _]. specialize (Hbound ltac:(lia)). lia.
      * apply (Hmin t0 Ht0 Hw0).
Qed.

Lemma readjust_arrival (t : openTask) (next now : Z) :
  waitingToSchedule t = true ->
  0 <= taskArrivalTime t - next + now < two64 ->
  taskArrivalTime (readjust (u64 (next - now)) t) = taskArrivalTime t - (next - now).
Proof.
  intros Hw Hrange. unfold readjust. rewrite Hw. simpl. unfold u64.
  rewrite Zminus_mod_idemp_r. apply Z.mod_small. lia.
Qed.

(** The search uses 0 for "no arrival time found yet": an arrival time of 0
    restarts it, and a later task's time is taken instead of the minimum. *)
Example nextArrivalTime_zero_restarts :
  nextArrivalTime zeroArrivalWaiting = 7.
Proof. reflexivity. Qed.

(** C5 (as stated, refuted): task 1 arrives at 1000 but has not been
    fetched when the primary thread of task 0 exits at 5000 and leaves the
    system empty.  The time jump is 1000 - 5000 (wrapped to UInt64), and the
    adjusted arrival time of task 1 is 5000, later than the previous one. *)
Lemma time_jump_counterexample :
  (exists tasks' task1',
     timeJumpTasks (openTasks twoTasksFirstRunning) 5000 = Ok tasks' /\
     tasks' !! 1%nat = Some task1' /\ taskArrivalTime task1' = 5000) /\
  exists task1 task1',
    @runHooks (MapFirstUnused [0; 1]) (simpleHost 2 0) twoTasksTwoCores
      [ThreadCreate 0 0 0; ThreadCreate 1 0 (-1)] = Ok twoTasksFirstRunning /\
    openTasks twoTasksFirstRunning !! 1%nat = Some task1 /\
    waitingToSchedule task1 = true /\ taskArrivalTime task1 = 1000 /\
    nextArrivalTime (openTasks twoTasksFirstRunning) = 1000 /\
    exists s',
      @threadExit (MapFirstUnused [0; 1]) (simpleHost 2 0) twoTasksFirstRunning 0 5000
        = Ok s' /\
      openTasks s' !! 1%nat = Some task1' /\
      taskArrivalTime task1' = 5000 /\
      ~ (taskArrivalTime task1' <= taskArrivalTime task1).
Proof.
  split.
  - eexists. eexists. split; [vm_compute; reflexivity|]. split; reflexivity.
  - eexists. eexists. split; [vm_compute; reflexivity|].
    split; [reflexivity|]. split; [reflexivity|]. split; [reflexivity|].
    split; [reflexivity|].
    eexists. split; [vm_compute; reflexivity|].
    split; [reflexivity|]. split; [reflexivity|]. simpl. lia.
Qed.

(** C5 (amended): when the time jump executes on tasks whose
    WaitingToSchedule arrival times are nonzero, the value found is the
    minimum arrival time over the WaitingToSchedule tasks, and the single
    value jump = minimum - now (as UInt64) is subtracted from the arrival
    time of every WaitingToSchedule task, the other tasks being unchanged.
    Provided no adjusted time wraps around, each adjusted time is the
    previous one minus (minimum - now), so that the order of the tasks by
    arrival time is the same before and after; and the adjusted times are
    less than or equal to the previous ones when now is not later than the
    minimum. *)
Theorem time_jump_adjustment (tasks : list openTask) (now : Z) :
  0 <= now < two64 ->
  (exists t, t ∈ tasks /\ waitingToSchedule t = true) ->
  (forall t, t ∈ tasks -> waitingToSchedule t = true -> 0 < taskArrivalTime t < two64) ->
  exists next,
    (exists t, t ∈ tasks /\ waitingToSchedule t = true /\ taskArrivalTime t = next) /\
    (forall t, t ∈ tasks -> waitingToSchedule t = true -> next <= taskArrivalTime t) /\
    nextArrivalTime tasks = next /\
    timeJumpTasks tasks now = Ok (readjust (u64 (next - now)) <$> tasks) /\
    (forall t, waitingToSchedule t = false -> readjust (u64 (next - now)) t = t) /\
    (forall t, waitingToSchedule t = true ->
       readjust (u64 (next - now)) t
       = setArrivalTime t (u64 (taskArrivalTime t - u64 (next - now)))) /\
    ((forall t, t ∈ tasks -> waitingToSchedule t = true ->
        taskArrivalTime t - next + now < two64) ->
     (forall t, t ∈ tasks -> waitingToSchedule t = true ->
        taskArrivalTime (readjust (u64 (next - now)) t)
        = taskArrivalTime t - (next - now)) /\
     (forall t1 t2, t1 ∈ tasks -> t2 ∈ tasks ->
        waitingToSchedule t1 = true -> waitingToSchedule t2 = true ->
        (taskArrivalTime t1 <= taskArrivalTime t2 <->
         taskArrivalTime (readjust (u64 (next - now)) t1)
         <= taskArrivalTime (readjust (u64 (next - now)) t2))) /\
     (now <= next ->
      forall t, t ∈ tasks -> waitingToSchedule t = true ->
        taskArrivalTime (readjust (u64 (next - now)) t) <= taskArrivalTime t)).
Proof.
  intros Hnow (t0 & Ht0 & Hw0) Hpos.
  assert (Hpos' : forall t, t ∈ tasks -> waitingToSchedule t = true ->
                            0 < taskArrivalTime t).
  { intros t Ht Hw. destruct (Hpos t Ht Hw). lia. }
  destruct (nextArrivalTime_fold tasks Hpos' 0 ltac:(lia)) as (Hfrom & _ & Hmin).
  fold (nextArrivalTime tasks) in Hfrom, Hmin.
  pose proof (Hmin t0 Ht0 Hw0) as Hnext.
  destruct Hfrom as [Hzero|Hattained]; [lia|].
  exists (nextArrivalTime tasks).
  split; [exact Hattained|]. split; [intros t Ht Hw; apply (Hmin t Ht Hw)|].
  split; [reflexivity|]. split.
  { unfold timeJumpTasks. destruct (Z.eqb_spec (nextArrivalTime tasks) 0); [lia|].
    reflexivity. }
  split; [intros t Hw; unfold readjust; rewrite Hw; reflexivity|].
  split; [intros t Hw; unfold readjust; rewrite Hw; reflexivity|].
  intros Hnowrap.
  assert (Hexact : forall t, t ∈ tasks -> waitingToSchedule t = true ->
             taskArrivalTime (readjust (u64 (nextArrivalTime tasks - now)) t)
             = taskArrivalTime t - (nextArrivalTime tasks - now)).
  { intros t Ht Hw. apply readjust_arrival; [exact Hw|].
    specialize (Hmin t Ht Hw). specialize (Hnowrap t Ht Hw). lia. }
  split; [exact Hexact|]. split.
  - intros t1 t2 Ht1 Ht2 Hw1 Hw2.
    rewrite (Hexact t1 Ht1 Hw1), (Hexact t2 Ht2 Hw2). lia.
  - intros Hle t Ht Hw. rewrite (Hexact t Ht Hw). lia.
Qed.

Lemma time_jump_adjustment_witness :
  exists next,
    nextArrivalTime (openTasks twoTasksFirstRunning) = next /\
    timeJumpTasks (openTasks twoTasksFirstRunning) 500
    = Ok (readjust (u64 (next - 500)) <$> openTasks twoTasksFirstRunning) /\
    (500 <= next ->
     forall t, t ∈ openTasks twoTasksFirstRunning -> waitingToSchedule t = true ->
       taskArrivalTime (readjust (u64 (next - 500)) t) <= taskArrivalTime t).
Proof.
  destruct (time_jump_adjustment (openTasks twoTasksFirstRunning) 500)
    as (next & _ & _ & Hnext & Hjump & _ & _ & Hrest).
  - vm_compute. split; [discriminate | reflexivity].
  - eexists. split; [right; left | reflexivity].
  - intros t Ht Hw. simpl in Ht.
    apply elem_of_cons in Ht as [->|Ht]; [discriminate Hw|].
    apply elem_of_cons in Ht as [->|Ht]; [vm_compute; split; reflexivity|].
    apply elem_of_nil in Ht. contradiction.
  - exists next. split; [exact Hnext|]. split; [exact Hjump|].
    apply Hrest. intros t Ht Hw. simpl in Ht. rewrite <- Hnext.
    apply elem_of_cons in Ht as [->|Ht]; [discriminate Hw|].
    apply elem_of_cons in Ht as [->|Ht]; [vm_compute; reflexivity|].
    apply elem_of_nil in Ht. contradiction.
Defined.

(** ** The queue drain of [periodic] needs no more passes than its bound *)

Section Drain.
Context `{MappingPolicy} `{ThreadManager}.

Lemma queue_count_bounds (s : SchedulerOpen) :
  0 <= numberOfTasksInQueue s <= Z.of_nat (length (openTasks s)).
Proof.
  unfold numberOfTasksInQueue. induction (openTasks s) as [|t l IH]; simpl sumOver.
  - simpl. lia.
  - simpl length. destruct (waitingInQueue t); simpl b2z; lia.
Qed.

Lemma started_front_leaves_queue (s : SchedulerOpen) (front time : Z) (s' : SchedulerOpen) :
  taskFrontOfQueue s = Ok front ->
  schedule s front false time = Ok (true, s') ->
  numberOfTasksInQueue s' = numberOfTasksInQueue s - 1.
Proof.
  intros Hfront Hs.
  apply schedule_cases in Hs as (task & Htask & Hcases).
  destruct Hcases as [(_ & Hb & _)|[(_ & Hb & _)|(_ & _ & _ & _ & cores & _ & _ & ->)]];
    try discriminate.
  unfold taskFrontOfQueue in Hfront.
  destruct (queuePolicy s =? "FIFO")%string; [|discriminate]. injection Hfront as Hfront.
  pose proof (at_index_bound _ _ _ Htask) as Hrange.
  apply firstIndex_found in Hfront as (x & Hx & Hq & _); [|lia].
  assert (x = task) as -> by congruence.
  apply at_index_Ok in Htask as [_ Hl].
  unfold numberOfTasksInQueue. cbn [openTasks updateTask withTasks].
  rewrite attach_tasks. cbn [openTasks updateTask withTasks withCores].
  rewrite (sumOver_alter _ _ _ _ (putIntoQueue task)).
  - rewrite (sumOver_alter _ _ _ _ task Hl). simpl. rewrite Hq. simpl. lia.
  - rewrite list_lookup_alter_eq, Hl. reflexivity.
Qed.

Lemma drainQueue_fuel (fuel : nat) :
  forall (fuel' : nat) (s : SchedulerOpen) (time : Z),
    numberOfTasksInQueue s <= Z.of_nat fuel -> (fuel <= fuel')%nat ->
    drainQueue fuel' s time = drainQueue fuel s time.
Proof.
  induction fuel as [|fuel IH]; intros fuel' s time Hcount Hle.
  - pose proof (queue_count_bounds s) as Hb.
    assert (E : numberOfTasksInQueue s = 0) by lia.
    destruct fuel'; simpl; rewrite E; reflexivity.
  - destruct fuel' as [|fuel']; [lia|]. simpl.
    destruct (Z.eqb_spec (numberOfTasksInQueue s) 0) as [_|Hne]; [reflexivity|].
    destruct (taskFrontOfQueue s) as [front| |] eqn:Hfront; simpl; try reflexivity.
    destruct (schedule s front false time) as [[mapped s']| |] eqn:Hs; simpl;
      try reflexivity.
    destruct mapped; [|reflexivity].
    apply IH; [|lia].
    rewrite (started_front_leaves_queue s front time s' Hfront Hs). lia.
Qed.

(** The bound used by [periodic] is never exhausted: more passes change
    nothing. *)
Lemma periodic_drain_terminates (s : SchedulerOpen) (time : Z) (extra : nat) :
  drainQueue (S (length (openTasks s)) + extra) (fetchTasksIntoQueue s time) time
  = drainQueue (S (length (openTasks s))) (fetchTasksIntoQueue s time) time.
Proof.
  apply drainQueue_fuel; [|lia].
  pose proof (queue_count_bounds (fetchTasksIntoQueue s time)) as Hb.
  simpl openTasks in Hb. rewrite length_fmap in Hb. lia.
Qed.

End Drain.

(** ** The constructor leaves an initial state *)







(* ================================================================== *)
(** * Further properties of the scheduler's operations *)

(** ** The queue front *)

Lemma b2z_range (b : bool) : 0 <= b2z b <= 1.
Proof. destruct b; simpl; lia. Qed.

Lemma sumOver_b2z_zero {A : Type} (p : A -> bool) (l : list A) :
  sumOver (fun x => b2z (p x)) l = 0 <-> forall i x, l !! i = Some x -> p x = false.
Proof.
  induction l as [|y l IH]; simpl.
  - split; [intros _ i x Hi; rewrite lookup_nil in Hi; discriminate | reflexivity].
  - pose proof (sumOver_nonneg (fun x => b2z (p x)) l
                  (fun x => proj1 (b2z_range (p x)))) as Hpos.
    split.
    + intros Hsum. destruct (p y) eqn:E; simpl in Hsum; [lia|].
      intros [|i] x Hi; simpl in Hi; [congruence|].
      apply (proj1 IH ltac:(lia) i x Hi).
    + intros Hall. rewrite (Hall 0%nat y eq_refl). simpl.
      apply IH. intros i x Hi. apply (Hall (S i) x Hi).
Qed.

Lemma taskFrontOfQueue_fifo (s : SchedulerOpen) :
  queuePolicy s = "FIFO"%string ->
  exists k, taskFrontOfQueue s = Ok k /\
    ((k = -1 /\ numberOfTasksInQueue s = 0) \/
     (0 <= k < Z.of_nat (length (openTasks s)) /\ 0 < numberOfTasksInQueue s /\
      exists t, at_index (openTasks s) k = Ok t /\ waitingInQueue t = true /\
        forall (j : Z) (tj : openTask),
          j < k -> at_index (openTasks s) j = Ok tj -> waitingInQueue tj = false)).
Proof.
  unfold taskFrontOfQueue.
  intros ->. simpl. exists (firstIndex waitingInQueue (openTasks s)).
  split; [reflexivity|].
  destruct (Z.eq_dec (firstIndex waitingInQueue (openTasks s)) (-1)) as [Hnone|Hsome].
  - left. split; [exact Hnone|].
    apply sumOver_b2z_zero. apply firstIndex_none. exact Hnone.
  - right.
    destruct (firstIndex_found waitingInQueue (openTasks s) _ eq_refl Hsome)
      as (t & Ht & Hq & Hmin).
    split; [apply (at_index_bound _ _ _ Ht)|]. split.
    + pose proof (sumOver_nonneg (fun x => b2z (waitingInQueue x)) (openTasks s)
                    (fun x => proj1 (b2z_range (waitingInQueue x)))) as Hpos.
      destruct (Z.eq_dec (numberOfTasksInQueue s) 0) as [Hzero|Hnz];
        [|unfold numberOfTasksInQueue in *; lia].
      apply at_index_Ok in Ht as [_ Ht].
      pose proof (proj1 (sumOver_b2z_zero waitingInQueue (openTasks s)) Hzero _ _ Ht).
      congruence.
    + exists t. split; [exact Ht|]. split; [exact Hq|].
      intros j tj Hj [Hj0 Hl]%at_index_Ok. apply (Hmin (Z.to_nat j) tj Hl). lia.
Qed.

(** X1: [taskFrontOfQueue] under FIFO returns -1 exactly when no task is
    Queued, and otherwise the index of the first Queued task; any other
    policy name is a fatal exit. *)
Theorem taskFrontOfQueue_lowest_queued (s : SchedulerOpen) :
  (queuePolicy s = "FIFO"%string ->
   exists k, taskFrontOfQueue s = Ok k /\
     ((k = -1 /\ numberOfTasksInQueue s = 0) \/
      (0 <= k < Z.of_nat (length (openTasks s)) /\ 0 < numberOfTasksInQueue s /\
       exists t, at_index (openTasks s) k = Ok t /\ waitingInQueue t = true /\
         forall (j : Z) (tj : openTask),
           j < k -> at_index (openTasks s) j = Ok tj -> waitingInQueue tj = false))) /\
  (queuePolicy s <> "FIFO"%string -> taskFrontOfQueue s = Exit UnknownQueuingPolicy).
Proof.
  split; [apply taskFrontOfQueue_fifo|].
  unfold taskFrontOfQueue. intros Hne.
  destruct (String.eqb_spec (queuePolicy s) "FIFO"); [contradiction | reflexivity].
Qed.

Lemma taskFrontOfQueue_lowest_queued_witness :
  exists k, taskFrontOfQueue twoTasksFirstRunning = Ok k /\
    ((k = -1 /\ numberOfTasksInQueue twoTasksFirstRunning = 0) \/
     (0 <= k < Z.of_nat (length (openTasks twoTasksFirstRunning)) /\
      0 < numberOfTasksInQueue twoTasksFirstRunning /\
      exists t, at_index (openTasks twoTasksFirstRunning) k = Ok t /\
        waitingInQueue t = true /\
        forall (j : Z) (tj : openTask),
          j < k -> at_index (openTasks twoTasksFirstRunning) j = Ok tj ->
          waitingInQueue tj = false)).
Proof.
  apply (proj1 (taskFrontOfQueue_lowest_queued twoTasksFirstRunning)). reflexivity.
Defined.

(** ** Fetching arrived tasks *)

(** X2: [fetchTasksIntoQueue] moves exactly the WaitingToSchedule tasks whose
    arrival time has come into the queue and touches nothing else;
    afterwards every task still WaitingToSchedule arrives later than
    [time], and fetching again at the same time changes nothing. *)
Theorem fetchTasksIntoQueue_effect (s : SchedulerOpen) (time : Z) :
  (forall (i : nat) (t : openTask),
     openTasks s !! i = Some t ->
     openTasks (fetchTasksIntoQueue s time) !! i
     = Some (if waitingToSchedule t && (taskArrivalTime t <=? time)
             then putIntoQueue t else t)) /\
  (forall (i : nat) (t' : openTask),
     openTasks (fetchTasksIntoQueue s time) !! i = Some t' ->
     waitingToSchedule t' = true -> time < taskArrivalTime t') /\
  length (openTasks (fetchTasksIntoQueue s time)) = length (openTasks s) /\
  systemCores (fetchTasksIntoQueue s time) = systemCores s /\
  fetchTasksIntoQueue (fetchTasksIntoQueue s time) time = fetchTasksIntoQueue s time.
Proof.
  split; [|split; [|split; [|split]]].
  - intros i t Hi. simpl. rewrite list_lookup_fmap, Hi. reflexivity.
  - intros i t'. simpl. rewrite list_lookup_fmap.
    destruct (openTasks s !! i) as [t|]; [|discriminate]. simpl. intros [= <-].
    destruct (waitingToSchedule t) eqn:Hw; simpl.
    + destruct (Z.leb_spec (taskArrivalTime t) time); simpl; [discriminate|].
      intros _. lia.
    + rewrite Hw. discriminate.
  - simpl. apply length_fmap.
  - reflexivity.
  - unfold fetchTasksIntoQueue. simpl. f_equal.
    rewrite <- list_fmap_compose. apply list_fmap_ext. intros i t _. simpl.
    destruct (waitingToSchedule t) eqn:Hw; simpl.
    + destruct (taskArrivalTime t <=? time) eqn:Hle; simpl; [reflexivity|].
      rewrite Hw, Hle. reflexivity.
    + rewrite Hw. reflexivity.
Qed.

(** ** Attaching a thread, and what [schedule] does to the cores *)

Section MoreFacts.
Context `{MappingPolicy} `{ThreadManager}.

(** X3: [setAffinity] returns -1 and changes nothing when the thread's
    application has no unattached core; otherwise it returns the lowest
    unattached core of that application and attaches the thread to it,
    leaving every other core and all tasks as they are. *)
Theorem setAffinity_first_unattached (s : SchedulerOpen) (thread_id : Z) :
  let wanted c :=
    assignedTaskID c = getAppId thread_id /\ assignedThreadID c = -1 in
  openTasks (snd (setAffinity s thread_id)) = openTasks s /\
  ((fst (setAffinity s thread_id) = -1 /\ snd (setAffinity s thread_id) = s /\
    forall (i : nat) (c : systemCore), systemCores s !! i = Some c -> ~ wanted c) \/
   (exists c, at_index (systemCores s) (fst (setAffinity s thread_id)) = Ok c /\
      wanted c /\
      (forall (j : nat) (cj : systemCore),
         Z.of_nat j < fst (setAffinity s thread_id) ->
         systemCores s !! j = Some cj -> ~ wanted cj) /\
      systemCores (snd (setAffinity s thread_id))
      = <[Z.to_nat (fst (setAffinity s thread_id)) := setAssignedThreadID c thread_id]>
          (systemCores s))).
Proof.
  intros wanted. unfold setAffinity.
  set (p := fun c => (assignedTaskID c =? getAppId thread_id) && (assignedThreadID c =? -1)).
  assert (Hp : forall c, p c = true <-> wanted c).
  { intros c. unfold p, wanted. rewrite andb_true_iff, !Z.eqb_eq. reflexivity. }
  assert (Hnp : forall c, p c = false -> ~ wanted c).
  { intros c Hf Hw. apply Hp in Hw. congruence. }
  destruct (Z.eqb_spec (firstIndex p (systemCores s)) (-1)) as [Hnone|Hsome]; simpl.
  - split; [reflexivity|]. left. split; [exact Hnone|]. split; [reflexivity|].
    intros i c Hi. apply Hnp. apply (firstIndex_none p _ Hnone i c Hi).
  - split; [reflexivity|]. right.
    destruct (firstIndex_found p (systemCores s) _ eq_refl Hsome) as (c & Hc & Hpc & Hmin).
    exists c. split; [exact Hc|]. split; [apply Hp; exact Hpc|]. split.
    + intros j cj Hj Hl. apply Hnp. apply (Hmin j cj Hl Hj).
    + apply at_index_Ok in Hc as [_ Hc].
      apply list_eq. intros i.
      destruct (decide (Z.to_nat (firstIndex p (systemCores s)) = i)) as [<-|Hne].
      * rewrite list_lookup_alter_eq, Hc.
        rewrite list_lookup_insert_eq by (eapply lookup_lt_Some; eauto). reflexivity.
      * rewrite list_lookup_alter_ne, list_lookup_insert_ne by exact Hne. reflexivity.
Qed.

Lemma assignCores_exact (taskID : Z) (bestCores : list Z) :
  forall (cores cores' : list systemCore),
    assignCores taskID bestCores cores = Ok cores' ->
    forall (i : nat) (c' : systemCore), cores' !! i = Some c' ->
      exists c, cores !! i = Some c /\
                (c' = c \/ (Z.of_nat i ∈ bestCores /\ c' = setAssignedTaskID c taskID)).
Proof.
  induction bestCores as [|b rest IH]; intros cores cores' Hassign i c' Hi.
  - simpl in Hassign. injection Hassign as <-. exists c'. auto.
  - cbn [assignCores] in Hassign. apply bind_Ok in Hassign as (c0 & Hc0 & Hassign).
    apply at_index_Ok in Hc0 as [Hb Hc0].
    destruct (IH _ _ Hassign i c' Hi) as (c1 & Hc1 & Hcase).
    destruct (decide (Z.to_nat b = i)) as [<-|Hne].
    + rewrite list_lookup_insert_eq in Hc1 by (eapply lookup_lt_Some; eauto).
      injection Hc1 as <-. exists c0. split; [exact Hc0|].
      right. split; [rewrite Z2Nat.id by lia; left|].
      destruct Hcase as [->|[_ ->]]; reflexivity.
    + rewrite list_lookup_insert_ne in Hc1 by exact Hne.
      exists c1. split; [exact Hc1|].
      destruct Hcase as [->|[Hin ->]]; [left; reflexivity|].
      right. split; [right; exact Hin | reflexivity].
Qed.

Lemma attach_cores (isInitialCall : bool) (taskID : Z) (s : SchedulerOpen)
    (i : nat) (c' : systemCore) :
  systemCores (attach isInitialCall taskID s) !! i = Some c' ->
  exists c, systemCores s !! i = Some c /\
            coreID c' = coreID c /\ assignedTaskID c' = assignedTaskID c.
Proof.
  unfold attach, setAffinity. destruct isInitialCall; [eauto|].
  destruct (_ =? -1); [eauto|]. simpl.
  rewrite list_lookup_alter. case_decide as Hi.
  - rewrite Hi. destruct (systemCores s !! i) as [c|]; [|discriminate]. simpl.
    intros [= <-]. exists c. auto.
  - eauto.
Qed.

Lemma schedule_core_back (s : SchedulerOpen) (taskID : Z)
    (isInitialCall : bool) (time : Z) (b : bool) (s' : SchedulerOpen) :
  policyAvailable ->
  schedule s taskID isInitialCall time = Ok (b, s') ->
  forall (i : nat) (c' : systemCore), systemCores s' !! i = Some c' ->
    exists c, systemCores s !! i = Some c /\ coreID c' = coreID c /\
      (assignedTaskID c' = assignedTaskID c \/
       (b = true /\ assignedTaskID c = -1 /\ m_core_mask s !! i = Some true /\
        assignedTaskID c' = taskID)).
Proof.
  intros Hcontract Hs.
  apply schedule_cases in Hs as (task & Htask & Hcases).
  destruct Hcases as [(_ & _ & ->)|[(_ & _ & ->)|
                      (_ & -> & _ & _ & cores & _ & Hassign & ->)]].
  - intros i c' Hi. exists c'. auto.
  - intros i c' Hi. exists c'. auto.
  - simpl in Hassign. intros i c' Hi.
    change (systemCores (updateTask
              (attach isInitialCall taskID
                 (withCores (updateTask s taskID putIntoQueue) cores)) taskID
              (fun t => markStarted t time)))
      with (systemCores (attach isInitialCall taskID
              (withCores (updateTask s taskID putIntoQueue) cores))) in Hi.
    destruct (attach_cores _ _ _ _ _ Hi) as (c1 & Hc1 & Hid & Htid).
    simpl in Hc1.
    destruct (assignCores_exact _ _ _ _ Hassign i c1 Hc1) as (c & Hc & Hcase).
    exists c. split; [exact Hc|].
    destruct Hcase as [->|[Hin ->]]; [auto|].
    split; [rewrite Hid; reflexivity|]. right.
    destruct (Hcontract _ _ _ _ _ Hin) as [_ Hav]. rewrite Nat2Z.id in Hav.
    destruct (availableCores_free s (Z.of_nat i) ltac:(lia)) as (c2 & Hc2 & Hfree & Hmask);
      [rewrite Nat2Z.id; exact Hav|].
    rewrite Nat2Z.id in Hc2, Hmask. assert (c2 = c) as -> by congruence.
    rewrite Htid. auto.
Qed.

(** X4: [schedule] changes the owner of a core only from "unassigned" to the
    scheduled task, only when it returns true, and only for cores the mask
    allows: a core that is assigned keeps its task, and no core record is
    added, removed or renumbered. *)
Theorem schedule_takes_only_free_cores (s : SchedulerOpen) (taskID : Z)
    (isInitialCall : bool) (time : Z) (b : bool) (s' : SchedulerOpen) :
  policyAvailable ->
  schedule s taskID isInitialCall time = Ok (b, s') ->
  length (systemCores s') = length (systemCores s) /\
  forall (i : nat) (c : systemCore), systemCores s !! i = Some c ->
    exists c', systemCores s' !! i = Some c' /\ coreID c' = coreID c /\
      (assignedTaskID c' = assignedTaskID c \/
       (b = true /\ assignedTaskID c = -1 /\ m_core_mask s !! i = Some true /\
        assignedTaskID c' = taskID)).
Proof.
  intros Hcontract Hs.
  pose proof (schedule_core_back s taskID isInitialCall time b s' Hcontract Hs) as Hback.
  assert (Hlen : length (systemCores s') = length (systemCores s)).
  { apply schedule_cases in Hs as (task & Htask & Hcases).
    destruct Hcases as [(_ & _ & ->)|[(_ & _ & ->)|
                        (_ & _ & _ & _ & cores & _ & Hassign & ->)]];
      [reflexivity | reflexivity |].
    simpl in Hassign.
    change (systemCores (updateTask
              (attach isInitialCall taskID
                 (withCores (updateTask s taskID putIntoQueue) cores)) taskID
              (fun t => markStarted t time)))
      with (systemCores (attach isInitialCall taskID
              (withCores (updateTask s taskID putIntoQueue) cores))).
    rewrite <- (assignCores_length _ _ _ _ Hassign).
    unfold attach, setAffinity. destruct isInitialCall; [reflexivity|].
    destruct (_ =? -1); [reflexivity|]. simpl. apply length_alter. }
  split; [exact Hlen|].
  intros i c Hc.
  destruct (systemCores s' !! i) as [c'|] eqn:Hc'.
  - destruct (Hback i c' Hc') as (c0 & Hc0 & Hrest).
    assert (c0 = c) as -> by congruence. exists c'. auto.
  - exfalso. apply lookup_ge_None in Hc'. apply lookup_lt_Some in Hc. lia.
Qed.

End MoreFacts.

Lemma schedule_takes_only_free_cores_witness :
  length (systemCores oneTaskStarted) = length (systemCores oneTaskFourCores) /\
  forall (i : nat) (c : systemCore), systemCores oneTaskFourCores !! i = Some c ->
    exists c', systemCores oneTaskStarted !! i = Some c' /\ coreID c' = coreID c /\
      (assignedTaskID c' = assignedTaskID c \/
       (true = true /\ assignedTaskID c = -1 /\
        m_core_mask oneTaskFourCores !! i = Some true /\
        assignedTaskID c' = 0)).
Proof.
  apply (@schedule_takes_only_free_cores firstFour (simpleHost 1 0)
           oneTaskFourCores 0 false 0 true oneTaskStarted).
  - apply MapFirstUnused_available.
  - vm_compute. reflexivity.
Defined.


Section MoreFacts2.
Context `{MappingPolicy} `{ThreadManager}.

Lemma taskIdOnly_free : taskIdOnly (fun c => b2z (assignedTaskID c =? -1)).
Proof. intros c c' E. rewrite E. reflexivity. Qed.

(** X5: A successful [schedule] gives the task exactly its core requirement:
    with a policy that honours its contract, the free cores go down by the
    requirement, the cores of the task go up by it, and no other task's
    cores change. *)
Theorem schedule_success_takes_requirement (s : SchedulerOpen) (taskID : Z)
    (isInitialCall : bool) (time : Z) (s' : SchedulerOpen) (task : openTask) :
  policyContract ->
  at_index (openTasks s) taskID = Ok task -> 0 <= taskCoreRequirement task ->
  schedule s taskID isInitialCall time = Ok (true, s') ->
  numberOfFreeCores s' = numberOfFreeCores s - taskCoreRequirement task /\
  coresOfTask s' taskID = coresOfTask s taskID + taskCoreRequirement task /\
  forall k, 0 <= k -> k <> taskID -> coresOfTask s' k = coresOfTask s k.
Proof.
  intros Hcontract Hat Hreq Hs.
  pose proof (at_index_bound _ _ _ Hat) as Hrange.
  apply schedule_cases in Hs as (task0 & Htask & Hcases).
  assert (task0 = task) as -> by congruence.
  destruct Hcases as [(_ & Hb & _)|[(_ & Hb & _)|
                      (_ & _ & _ & _ & cores & Hlen & Hassign & ->)]];
    try discriminate.
  simpl in Hlen, Hassign.
  destruct (Hcontract (taskName task) (taskCoreRequirement task)
              (availableCores s) (activeCores s) Hreq Hlen) as (Hexact & Hnd & Havail).
  assert (Hfree : forall b0,
             b0 ∈ policy_map (taskName task) (taskCoreRequirement task)
                    (availableCores s) (activeCores s) ->
             0 <= b0 /\ exists c, systemCores s !! Z.to_nat b0 = Some c /\
                                  assignedTaskID c = -1).
  { intros b0 Hb0. destruct (Havail b0 Hb0) as [Hpos Hav]. split; [exact Hpos|].
    destruct (availableCores_free s b0 Hpos Hav) as (c & Hc & Hf & _). eauto. }
  assert (Hsum : forall (f : systemCore -> Z) (delta : Z),
             taskIdOnly f ->
             (forall c, assignedTaskID c = -1 ->
                        f (setAssignedTaskID c taskID) = f c + delta) ->
             sumOver f (systemCores
                          (updateTask
                             (attach isInitialCall taskID
                                (withCores (updateTask s taskID putIntoQueue) cores))
                             taskID (fun t => markStarted t time)))
             = sumOver f (systemCores s) + delta * taskCoreRequirement task).
  { intros f delta Hf Hstep.
    change (systemCores (updateTask
              (attach isInitialCall taskID
                 (withCores (updateTask s taskID putIntoQueue) cores)) taskID
              (fun t => markStarted t time)))
      with (systemCores (attach isInitialCall taskID
              (withCores (updateTask s taskID putIntoQueue) cores))).
    rewrite attach_sum by exact Hf. simpl systemCores.
    rewrite (assignCores_sum f taskID delta Hstep _ _ _ Hnd Hfree Hassign), Hexact.
    reflexivity. }
  split; [|split].
  - unfold numberOfFreeCores. rewrite (Hsum _ (-1) taskIdOnly_free); [lia|].
    intros c Hc. simpl. rewrite Hc.
    destruct (Z.eqb_spec taskID (-1)); [lia | reflexivity].
  - unfold coresOfTask. rewrite (Hsum _ 1 (taskIdOnly_ofTask taskID)); [lia|].
    intros c Hc. simpl. rewrite Hc, Z.eqb_refl.
    destruct (Z.eqb_spec (-1) taskID); [lia | reflexivity].
  - intros k Hk Hne. unfold coresOfTask.
    rewrite (Hsum _ 0 (taskIdOnly_ofTask k)); [lia|].
    intros c Hc. simpl. rewrite Hc.
    destruct (Z.eqb_spec taskID k), (Z.eqb_spec (-1) k); try lia; reflexivity.
Qed.

(** ** The time jump always queues a task *)

Lemma nextArrivalTime_attained (tasks : list openTask) :
  forall acc,
    let next :=
      fold_left
        (fun next t =>
           if waitingToSchedule t then
             if next =? 0 then taskArrivalTime t
             else if next >? taskArrivalTime t then taskArrivalTime t
             else next
           else next)
        tasks acc in
    next = acc \/
    exists (i : nat) (t : openTask),
      tasks !! i = Some t /\ waitingToSchedule t = true /\ taskArrivalTime t = next.
Proof.
  induction tasks as [|t rest IH]; intros acc; cbn [fold_left]; [left; reflexivity|].
  match goal with
  | |- context [fold_left _ rest ?a] => destruct (IH a) as [Heq|(i & t0 & Hi & Hw & Ha)]
  end.
  - rewrite Heq. destruct (waitingToSchedule t) eqn:Hw; [|left; reflexivity].
    destruct (acc =? 0); [right; exists 0%nat, t; auto|].
    destruct (acc >? taskArrivalTime t); [right; exists 0%nat, t; auto | left; reflexivity].
  - right. exists (S i), t0. auto.
Qed.

(** X6: When the system is empty with no task Queued and the time jump finds an
    arrival time (it does not take the "nextArrivalTime == 0" exit), the
    task that has this arrival time is readjusted to arrive exactly at
    [time] and is fetched into the queue: the following [taskFrontOfQueue]
    returns a valid task index, never -1, and that task is ready at
    [time]. *)
Theorem time_jump_queues_a_task (s : SchedulerOpen) (time : Z) (tasks' : list openTask) :
  0 <= time < two64 ->
  queuePolicy s = "FIFO"%string ->
  numberOfTasksInQueue s = 0 ->
  timeJumpTasks (openTasks s) time = Ok tasks' ->
  exists front t,
    taskFrontOfQueue (fetchTasksIntoQueue (withTasks s tasks') time) = Ok front /\
    0 <= front < Z.of_nat (length (openTasks s)) /\
    at_index (openTasks (fetchTasksIntoQueue (withTasks s tasks') time)) front = Ok t /\
    waitingInQueue t = true /\ taskArrivalTime t <= time.
Proof.
  intros Htime Hfifo Hempty Hjump. unfold timeJumpTasks in Hjump.
  destruct (Z.eqb_spec (nextArrivalTime (openTasks s)) 0) as [|Hnz]; [discriminate|].
  injection Hjump as <-.
  destruct (nextArrivalTime_attained (openTasks s) 0) as [Hzero|(i & t & Hi & Hw & Ha)];
    [contradiction|].
  fold (nextArrivalTime (openTasks s)) in Ha.
  set (jump := u64 (nextArrivalTime (openTasks s) - time)).
  set (s1 := fetchTasksIntoQueue (withTasks s (readjust jump <$> openTasks s)) time).
  assert (Harr : taskArrivalTime (readjust jump t) = time).
  { unfold readjust. rewrite Hw. simpl. unfold jump, u64.
    rewrite Zminus_mod_idemp_r, Ha.
    replace (nextArrivalTime (openTasks s) - (nextArrivalTime (openTasks s) - time))
      with time by lia.
    apply Z.mod_small. exact Htime. }
  assert (Hqueued : exists tq, openTasks s1 !! i = Some tq /\ waitingInQueue tq = true).
  { exists (putIntoQueue (readjust jump t)). split; [|reflexivity].
    unfold s1. simpl. rewrite !list_lookup_fmap, Hi. simpl.
    assert (Hw' : waitingToSchedule (readjust jump t) = true)
      by (unfold readjust; rewrite Hw; exact Hw).
    rewrite Hw', Harr, Z.leb_refl. reflexivity. }
  destruct Hqueued as (tq & Htq & Hq).
  destruct (taskFrontOfQueue_fifo s1 Hfifo) as (front & Hfront & Hcase).
  destruct Hcase as [[_ Hzero]|(Hrange & _ & tf & Htf & Hqf & _)].
  - exfalso.
    pose proof (proj1 (sumOver_b2z_zero waitingInQueue (openTasks s1)) Hzero i tq Htq).
    congruence.
  - exists front, tf. split; [exact Hfront|]. split.
    + unfold s1 in Hrange. simpl in Hrange.
      rewrite !length_fmap in Hrange. exact Hrange.
    + split; [exact Htf|]. split; [exact Hqf|].
      apply at_index_Ok in Htf as [_ Htf]. unfold s1 in Htf. simpl in Htf.
      rewrite !list_lookup_fmap in Htf.
      destruct (openTasks s !! Z.to_nat front) as [t0|] eqn:E; [|discriminate].
      simpl in Htf. injection Htf as <-.
      pose proof (proj1 (sumOver_b2z_zero waitingInQueue (openTasks s)) Hempty _ _ E)
        as Hnq.
      assert (Hnq' : waitingInQueue (readjust jump t0) = false)
        by (unfold readjust; destruct (waitingToSchedule t0); exact Hnq).
      destruct (waitingToSchedule (readjust jump t0)); simpl in *; [|congruence].
      destruct (Z.leb_spec (taskArrivalTime (readjust jump t0)) time); simpl in *;
        [lia | congruence].
Qed.

End MoreFacts2.

Lemma schedule_success_takes_requirement_witness :
  numberOfFreeCores oneTaskStarted = numberOfFreeCores oneTaskFourCores - 2 /\
  coresOfTask oneTaskStarted 0 = coresOfTask oneTaskFourCores 0 + 2 /\
  forall k, 0 <= k -> k <> 0 -> coresOfTask oneTaskStarted k = coresOfTask oneTaskFourCores k.
Proof.
  apply (@schedule_success_takes_requirement firstFour (simpleHost 1 0)
           oneTaskFourCores 0 false 0 oneTaskStarted (newTask 0 "splash2-fft-small-2" 2)).
  - apply MapFirstUnused_contract, NoDup_firstFour.
  - reflexivity.
  - simpl. lia.
  - vm_compute. reflexivity.
Defined.

Lemma time_jump_queues_a_task_witness :
  exists front t,
    taskFrontOfQueue
      (fetchTasksIntoQueue
         (withTasks twoTasksFirstRunning
            (readjust (u64 (1000 - 5000)) <$> openTasks twoTasksFirstRunning)) 5000)
    = Ok front /\
    0 <= front < Z.of_nat (length (openTasks twoTasksFirstRunning)) /\
    at_index
      (openTasks
         (fetchTasksIntoQueue
            (withTasks twoTasksFirstRunning
               (readjust (u64 (1000 - 5000)) <$> openTasks twoTasksFirstRunning)) 5000))
      front = Ok t /\
    waitingInQueue t = true /\ taskArrivalTime t <= 5000.
Proof.
  apply (time_jump_queues_a_task twoTasksFirstRunning 5000).
  - vm_compute. split; [discriminate | reflexivity].
  - reflexivity.
  - reflexivity.
  - vm_compute. reflexivity.
Defined.

(** ** Phase partition (the second check of [periodic]) *)

Section Lifecycle.
Context `{MappingPolicy} `{ThreadManager}.

Lemma lifecycleInv_initial (s : SchedulerOpen) : initialState s -> lifecycleInv s.
Proof.
  intros [_ Htasks] i t Hi. rewrite Forall_forall in Htasks.
  destruct (Htasks t) as (Hw & Hq & Ha & Hc & _); [apply list_elem_of_lookup; eauto|].
  unfold onePhase. rewrite Hw, Hq, Ha, Hc. split; [reflexivity | discriminate].
Qed.

Lemma lifecycleInv_same_tasks (s s' : SchedulerOpen) :
  openTasks s' = openTasks s -> lifecycleInv s -> lifecycleInv s'.
Proof. unfold lifecycleInv. intros ->. auto. Qed.

Lemma lifecycleInv_updateTask (s : SchedulerOpen) (k : Z) (f : openTask -> openTask) :
  lifecycleInv s -> 0 <= k ->
  (forall t, at_index (openTasks s) k = Ok t ->
             onePhase t -> (active t = true -> taskArrivalTime t <= taskStartTime t) ->
             onePhase (f t) /\
             (active (f t) = true -> taskArrivalTime (f t) <= taskStartTime (f t))) ->
  lifecycleInv (updateTask s k f).
Proof.
  intros Hinv Hk Hf i t. simpl.
  destruct (decide (Z.to_nat k = i)) as [<-|Hne].
  - rewrite list_lookup_alter_eq.
    destruct (openTasks s !! Z.to_nat k) as [t0|] eqn:E; [|discriminate]. intros [= <-].
    destruct (Hinv _ _ E) as [Hone Hstart].
    apply Hf; [apply at_index_Ok; split; [lia | exact E] | exact Hone | exact Hstart].
  - rewrite list_lookup_alter_ne by exact Hne. apply Hinv.
Qed.

Lemma lifecycleInv_tasks (s : SchedulerOpen) (g : openTask -> openTask) :
  lifecycleInv s ->
  (forall t, onePhase t -> (active t = true -> taskArrivalTime t <= taskStartTime t) ->
             onePhase (g t) /\
             (active (g t) = true -> taskArrivalTime (g t) <= taskStartTime (g t))) ->
  lifecycleInv (withTasks s (g <$> openTasks s)).
Proof.
  intros Hinv Hg i t. simpl. rewrite list_lookup_fmap.
  destruct (openTasks s !! i) as [t0|] eqn:E; [|discriminate]. intros [= <-].
  destruct (Hinv _ _ E) as [Hone Hstart]. apply Hg; assumption.
Qed.

Lemma onePhase_cases (t : openTask) :
  onePhase t ->
  (waitingToSchedule t = true /\ waitingInQueue t = false /\ active t = false
   /\ completed t = false) \/
  (waitingToSchedule t = false /\ waitingInQueue t = true /\ active t = false
   /\ completed t = false) \/
  (waitingToSchedule t = false /\ waitingInQueue t = false /\ active t = true
   /\ completed t = false) \/
  (waitingToSchedule t = false /\ waitingInQueue t = false /\ active t = false
   /\ completed t = true).
Proof.
  unfold onePhase.
  destruct (waitingToSchedule t), (waitingInQueue t), (active t), (completed t);
    simpl; intros Hsum; try lia; auto 10.
Qed.

Lemma lifecycleInv_fetch (s : SchedulerOpen) (time : Z) :
  lifecycleInv s -> lifecycleInv (fetchTasksIntoQueue s time).
Proof.
  intros Hinv. apply lifecycleInv_tasks; [exact Hinv|].
  intros t Hone Hstart.
  destruct (waitingToSchedule t && (taskArrivalTime t <=? time)) eqn:E; [|auto].
  apply andb_true_iff in E as [Hw _].
  destruct (onePhase_cases t Hone) as [(_ & _ & Ha & Hc)|[(E1 & _)|[(E1 & _)|(E1 & _)]]];
    try congruence.
  unfold onePhase. simpl. rewrite Ha, Hc. split; [reflexivity | discriminate].
Qed.

Lemma lifecycleInv_readjust (s : SchedulerOpen) (timeJump : Z) :
  lifecycleInv s -> lifecycleInv (withTasks s (readjust timeJump <$> openTasks s)).
Proof.
  intros Hinv. apply lifecycleInv_tasks; [exact Hinv|].
  intros t Hone Hstart. unfold readjust.
  destruct (waitingToSchedule t) eqn:Hw; [|auto].
  destruct (onePhase_cases t Hone) as [(_ & Hq & Ha & Hc)|[(E1 & _)|[(E1 & _)|(E1 & _)]]];
    try congruence.
  unfold onePhase. simpl. rewrite Hw, Hq, Ha, Hc. split; [reflexivity | discriminate].
Qed.

Lemma lifecycleInv_putIntoQueue (s : SchedulerOpen) (taskID : Z) :
  lifecycleInv s -> 0 <= taskID -> notStarted s taskID ->
  lifecycleInv (updateTask s taskID putIntoQueue).
Proof.
  intros Hinv Hk Hns. apply lifecycleInv_updateTask; [exact Hinv | exact Hk|].
  intros t Hat Hone _. destruct (Hns t Hat) as [Ha Hc].
  unfold onePhase. simpl. rewrite Ha, Hc. split; [reflexivity | discriminate].
Qed.

Lemma schedule_lifecycleInv (s : SchedulerOpen) (taskID : Z) (isInitialCall : bool)
    (time : Z) (b : bool) (s' : SchedulerOpen) :
  lifecycleInv s -> notStarted s taskID ->
  schedule s taskID isInitialCall time = Ok (b, s') -> lifecycleInv s'.
Proof.
  intros Hinv Hns Hs.
  apply schedule_cases in Hs as (task & Htask & Hcases).
  pose proof (at_index_bound _ _ _ Htask) as Hrange.
  destruct (Hns task Htask) as [Ha Hc].
  destruct Hcases as [(_ & _ & ->)|[(_ & _ & ->)|
                      (Hle & _ & _ & _ & cores & _ & _ & ->)]].
  - exact Hinv.
  - apply lifecycleInv_putIntoQueue; [exact Hinv | lia | exact Hns].
  - apply lifecycleInv_updateTask; [|lia|].
    + apply (lifecycleInv_same_tasks (updateTask s taskID putIntoQueue));
        [rewrite attach_tasks; reflexivity|].
      apply lifecycleInv_putIntoQueue; [exact Hinv | lia | exact Hns].
    + intros t Hat _ _. rewrite attach_tasks in Hat.
      assert (t = putIntoQueue task) as ->.
      { apply at_index_Ok in Htask as [_ Hl]. apply at_index_Ok in Hat as [_ Hl'].
        simpl in Hl'. rewrite list_lookup_alter_eq, Hl in Hl'. simpl in Hl'. congruence. }
      unfold onePhase. simpl. rewrite Hc. split; [reflexivity | intros _; exact Hle].
Qed.

Lemma front_notStarted (s : SchedulerOpen) (front : Z) :
  lifecycleInv s -> taskFrontOfQueue s = Ok front -> notStarted s front.
Proof.
  intros Hinv Hfront t Ht.
  unfold taskFrontOfQueue in Hfront.
  destruct (queuePolicy s =? "FIFO")%string; [|discriminate]. injection Hfront as Hfront.
  pose proof (at_index_bound _ _ _ Ht) as Hrange.
  apply firstIndex_found in Hfront as (x & Hx & Hq & _); [|lia].
  assert (x = t) as -> by congruence.
  apply at_index_Ok in Ht as [_ Ht]. destruct (Hinv _ _ Ht) as [Hone _].
  destruct (onePhase_cases t Hone) as [(_ & E & _)|[(_ & _ & Ha & Hc)|[(_ & E & _)|(_ & E & _)]]];
    try congruence. auto.
Qed.

Lemma scheduleFront_lifecycleInv (s : SchedulerOpen) (time : Z) (r : SchedulerOpen) :
  lifecycleInv s ->
  (front ← taskFrontOfQueue s; '(_, s') ← schedule s front false time; Ok s') = Ok r ->
  lifecycleInv r.
Proof.
  intros Hinv Hrun.
  apply bind_Ok in Hrun as (front & Hfront & Hrun).
  apply bind_Ok in Hrun as ([b s'] & Hs & Hrun). injection Hrun as <-.
  eapply schedule_lifecycleInv; eauto using front_notStarted.
Qed.

Lemma prefetch_lifecycleInv (s : SchedulerOpen) (time : Z) (r : SchedulerOpen) :
  lifecycleInv s -> prefetch s time = Ok r -> lifecycleInv r.
Proof.
  intros Hinv. unfold prefetch.
  destruct ((numberOfFreeCores s =? numberOfCores s)
            && negb (numberOfTasksWaitingToSchedule s =? 0)); [|intros [= <-]; exact Hinv].
  destruct (negb (numberOfTasksInQueue s =? 0)).
  { apply scheduleFront_lifecycleInv; assumption. }
  destruct (negb (numberOfTasksWaitingToSchedule s =? 0)); [|intros [= <-]; exact Hinv].
  intros Hrun. apply bind_Ok in Hrun as (tasks & Hjump & Hrun).
  unfold timeJumpTasks in Hjump.
  destruct (nextArrivalTime (openTasks s) =? 0); [discriminate|]. injection Hjump as <-.
  eapply scheduleFront_lifecycleInv; [|exact Hrun].
  apply lifecycleInv_fetch. apply lifecycleInv_readjust. exact Hinv.
Qed.

Lemma threadExit_lifecycleInv (s : SchedulerOpen) (thread_id time : Z) (r : SchedulerOpen) :
  lifecycleInv s -> hostProtocol s (ThreadExit thread_id time) ->
  threadExit s thread_id time = Ok r -> lifecycleInv r.
Proof.
  intros Hinv Hproto. unfold threadExit. intros Hrun.
  apply bind_Ok in Hrun as (s2 & Hs2 & Hrun).
  apply bind_Ok in Hrun as (s3 & Hs3 & Hrun).
  assert (r = s3) as ->.
  { destruct ((numberOfTasksCompleted s3 =? numberOfTasks s3) && (numberOfTasks s3 =? 0));
      [discriminate | congruence]. }
  eapply prefetch_lifecycleInv; [|exact Hs3].
  destruct (Z.ltb_spec thread_id
              (numberOfTasks (withCores s (detachThread thread_id <$> systemCores s))))
    as [Hprimary|_].
  - apply bind_Ok in Hs2 as (task & Htask & Hs2). injection Hs2 as <-.
    destruct (Hproto Hprimary) as (t & Ht & Hact).
    pose proof (at_index_bound _ _ _ Ht) as Hrange.
    apply lifecycleInv_updateTask; [exact Hinv | lia|].
    intros t0 Ht0 Hone _. simpl in Ht0. assert (t0 = t) as -> by congruence.
    destruct (onePhase_cases t Hone)
      as [(_ & _ & E & _)|[(_ & _ & E & _)|[(Hw & Hq & _ & _)|(_ & _ & E & _)]]];
      try congruence.
    unfold onePhase. simpl. rewrite Hw, Hq. split; [reflexivity | discriminate].
  - injection Hs2 as <-. exact Hinv.
Qed.

Lemma drainQueue_lifecycleInv (fuel : nat) (s : SchedulerOpen) (time : Z) (r : SchedulerOpen) :
  lifecycleInv s -> drainQueue fuel s time = Ok r -> lifecycleInv r.
Proof.
  revert s. induction fuel as [|fuel IH]; intros s Hinv; simpl.
  - destruct (numberOfTasksInQueue s =? 0); [intros [= <-]; exact Hinv | discriminate].
  - destruct (numberOfTasksInQueue s =? 0); [intros [= <-]; exact Hinv|].
    intros Hrun. apply bind_Ok in Hrun as (front & Hfront & Hrun).
    apply bind_Ok in Hrun as ([b s'] & Hs & Hrun).
    assert (Hinv' : lifecycleInv s')
      by (eapply schedule_lifecycleInv; eauto using front_notStarted).
    destruct b; [eapply IH; eauto | injection Hrun as <-; exact Hinv'].
Qed.

Lemma periodic_lifecycleInv (s : SchedulerOpen) (time : Z) (r : SchedulerOpen) :
  lifecycleInv s -> periodic s time = Ok r -> lifecycleInv r.
Proof.
  intros Hinv. unfold periodic. intros Hrun.
  apply bind_Ok in Hrun as (u & _ & Hrun).
  destruct (u64 (mappingEpoch s) =? 0); [discriminate|].
  destruct (time mod u64 (mappingEpoch s) =? 0); [|injection Hrun as <-; exact Hinv].
  eapply drainQueue_lifecycleInv; [|exact Hrun].
  apply lifecycleInv_fetch. exact Hinv.
Qed.

Lemma threadCreate_lifecycleInv (s : SchedulerOpen) (thread_id time free_core_id : Z)
    (core : Z) (r : SchedulerOpen) :
  lifecycleInv s -> notStarted s thread_id ->
  threadCreate s thread_id time free_core_id = Ok (core, r) -> lifecycleInv r.
Proof.
  intros Hinv Hns. unfold threadCreate. intros Hrun.
  apply bind_Ok in Hrun as (s1 & Hs1 & Hrun).
  assert (Hinv1 : lifecycleInv s1).
  { destruct (Z.eqb_spec thread_id 0) as [->|_].
    - apply bind_Ok in Hs1 as ([b s'] & Hs & Hs1).
      destruct b; [|discriminate]. injection Hs1 as <-.
      eapply schedule_lifecycleInv; eauto.
    - destruct ((0 <? thread_id) && (thread_id <? numberOfTasks s)).
      + apply bind_Ok in Hs1 as ([b s'] & Hs & Hs1). injection Hs1 as <-.
        eapply schedule_lifecycleInv; eauto.
      + injection Hs1 as <-. exact Hinv. }
  assert (Hinv2 : lifecycleInv (snd (setAffinity s1 thread_id))).
  { apply (lifecycleInv_same_tasks s1); [|exact Hinv1].
    apply (attach_tasks false thread_id s1). }
  destruct (negb (free_core_id =? INVALID_CORE_ID)); [injection Hrun as _ <-; exact Hinv2|].
  destruct (thread_id >=? numberOfTasks _); [discriminate|].
  injection Hrun as _ <-. exact Hinv2.
Qed.

Lemma runHook_lifecycleInv (s : SchedulerOpen) (h : hook) (r : SchedulerOpen) :
  lifecycleInv s -> hostProtocol s h -> runHook s h = Ok r -> lifecycleInv r.
Proof.
  intros Hinv Hallowed. destruct h; simpl runHook; intros Hrun.
  - apply bind_Ok in Hrun as ([b s'] & Hs & Hrun). injection Hrun as <-.
    eapply schedule_lifecycleInv; eauto.
  - injection Hrun as <-. apply (lifecycleInv_same_tasks s); [|exact Hinv].
    apply (attach_tasks false thread_id s).
  - apply bind_Ok in Hrun as ([c s'] & Hs & Hrun). injection Hrun as <-.
    eapply threadCreate_lifecycleInv; eauto.
  - eapply threadExit_lifecycleInv; eauto.
  - eapply periodic_lifecycleInv; eauto.
Qed.

Lemma reachable_lifecycleInv (init s : SchedulerOpen) :
  initialState init -> reachable hostProtocol init s -> lifecycleInv s.
Proof.
  intros Hinit Hreach. induction Hreach as [|s s' h _ IH Hallowed Hrun].
  - apply lifecycleInv_initial. exact Hinit.
  - eapply runHook_lifecycleInv; eauto.
Qed.

Lemma lifecycleInv_counts (s : SchedulerOpen) :
  lifecycleInv s ->
  numberOfActiveTasks s + numberOfTasksCompleted s
  + numberOfTasksInQueue s + numberOfTasksWaitingToSchedule s
  = Z.of_nat (length (openTasks s)).
Proof.
  intros Hinv.
  unfold numberOfActiveTasks, numberOfTasksCompleted, numberOfTasksInQueue,
    numberOfTasksWaitingToSchedule.
  rewrite <- !sumOver_plus, <- sumOver_const_one. apply sumOver_ext.
  intros t Ht. apply list_elem_of_lookup in Ht as [i Hi].
  destruct (Hinv _ _ Hi) as [Hone _]. unfold onePhase in Hone. lia.
Qed.

(** X8: Under the same protocol an Active task never has a start time before
    its arrival time, also after a time jump has readjusted arrival
    times: the wait time printed at its exit does not wrap around. *)
Theorem active_task_started_after_arrival (init s : SchedulerOpen) (i : nat)
    (t : openTask) :
  initialState init -> reachable hostProtocol init s ->
  openTasks s !! i = Some t -> active t = true ->
  taskArrivalTime t <= taskStartTime t.
Proof.
  intros Hinit Hreach Hi Hact.
  apply (reachable_lifecycleInv init s Hinit Hreach i t Hi). exact Hact.
Qed.

End Lifecycle.

Lemma reachable_oneTaskStarted :
  @reachable firstFour (simpleHost 1 0) (@hostProtocol (simpleHost 1 0))
    oneTaskFourCores oneTaskStarted.
Proof.
  apply (@reach_step firstFour (simpleHost 1 0) (@hostProtocol (simpleHost 1 0))
           oneTaskFourCores oneTaskFourCores oneTaskStarted (ThreadCreate 0 0 0)).
  - apply reach_init.
  - intros t Ht. vm_compute in Ht. injection Ht as <-. split; reflexivity.
  - vm_compute. reflexivity.
Qed.

Lemma active_task_started_after_arrival_witness :
  exists t,
    openTasks oneTaskStarted !! 0%nat = Some t /\ active t = true /\
    taskArrivalTime t <= taskStartTime t.
Proof.
  eexists. split; [vm_compute; reflexivity|]. split; [reflexivity|].
  apply (@active_task_started_after_arrival firstFour (simpleHost 1 0)
           oneTaskFourCores oneTaskStarted 0%nat).
  - exact initialState_oneTaskFourCores.
  - exact reachable_oneTaskStarted.
  - vm_compute. reflexivity.
  - reflexivity.
Defined.

(** ** What the hooks leave alone *)

Section Frame.
Context `{MappingPolicy} `{ThreadManager}.

Lemma taskStep_refl (t : openTask) : taskStep t t.
Proof. unfold taskStep. auto 10. Qed.

Lemma taskStep_trans (t1 t2 t3 : openTask) : taskStep t1 t2 -> taskStep t2 t3 -> taskStep t1 t3.
Proof.
  unfold taskStep. intros (E1 & E2 & E3 & Hw & Hc & Ha) (F1 & F2 & F3 & Hw' & Hc' & Ha').
  split; [congruence|]. split; [congruence|]. split; [congruence|].
  split; [auto|]. split; [auto|].
  intros Hno. rewrite (Ha' (Hw Hno)). exact (Ha Hno).
Qed.

Lemma Forall2_fmap_self {A : Type} (R : A -> A -> Prop) (g : A -> A) (l : list A) :
  (forall x, R x (g x)) -> Forall2 R l (g <$> l).
Proof. intros Hg. induction l as [|x l IH]; simpl; constructor; auto. Qed.

Lemma Forall2_same {A : Type} (R : A -> A -> Prop) (l : list A) :
  (forall x, R x x) -> Forall2 R l l.
Proof. intros Hr. induction l; constructor; auto. Qed.

Lemma Forall2_chain {A : Type} (R : A -> A -> Prop) :
  (forall x y z, R x y -> R y z -> R x z) ->
  forall l1 l2 l3, Forall2 R l1 l2 -> Forall2 R l2 l3 -> Forall2 R l1 l3.
Proof.
  intros Ht l1 l2 l3 H12. revert l3.
  induction H12 as [|x y l k Hxy _ IH]; intros l3 H23; inversion H23; subst;
    constructor; eauto.
Qed.

Lemma sameFrame_refl (s : SchedulerOpen) : sameFrame s s.
Proof.
  unfold sameFrame. repeat split.
  - apply Forall2_same, taskStep_refl.
  - apply Forall2_same. reflexivity.
Qed.

Lemma sameFrame_trans (s1 s2 s3 : SchedulerOpen) :
  sameFrame s1 s2 -> sameFrame s2 s3 -> sameFrame s1 s3.
Proof.
  intros (E1 & E2 & E3 & Ht & Hc & E4) (F1 & F2 & F3 & Ht' & Hc' & F4).
  unfold sameFrame. repeat split; try congruence.
  - exact (Forall2_chain taskStep taskStep_trans _ _ _ Ht Ht').
  - apply (Forall2_chain coreStep) with (l2 := systemCores s2); [|assumption..].
    unfold coreStep. congruence.
Qed.

Lemma sameFrame_updateTask (s : SchedulerOpen) (k : Z) (f : openTask -> openTask) :
  (forall t, taskStep t (f t)) -> sameFrame s (updateTask s k f).
Proof.
  intros Hf. unfold sameFrame. simpl. repeat split.
  - apply Forall2_alter_r; [apply Forall2_same, taskStep_refl|].
    intros x y Hx Hy _. assert (x = y) as -> by congruence. apply Hf.
  - apply Forall2_same. reflexivity.
Qed.

Lemma sameFrame_tasks (s : SchedulerOpen) (g : openTask -> openTask) :
  (forall t, taskStep t (g t)) -> sameFrame s (withTasks s (g <$> openTasks s)).
Proof.
  intros Hg. unfold sameFrame. simpl. repeat split.
  - apply Forall2_fmap_self, Hg.
  - apply Forall2_same. reflexivity.
Qed.

Lemma sameFrame_cores (s : SchedulerOpen) (cores : list systemCore) :
  Forall2 coreStep (systemCores s) cores -> sameFrame s (withCores s cores).
Proof.
  intros Hc. unfold sameFrame. simpl. repeat split; [|exact Hc].
  apply Forall2_same, taskStep_refl.
Qed.

Lemma taskStep_putIntoQueue (t : openTask) : taskStep t (putIntoQueue t).
Proof. unfold taskStep. simpl. auto 10. Qed.

Lemma taskStep_markStarted (t : openTask) (time : Z) : taskStep t (markStarted t time).
Proof. unfold taskStep. simpl. auto 10. Qed.

Lemma taskStep_markDeparted (t : openTask) (time : Z) : taskStep t (markDeparted t time).
Proof. unfold taskStep. simpl. auto 10. Qed.

Lemma taskStep_readjust (t : openTask) (timeJump : Z) : taskStep t (readjust timeJump t).
Proof.
  unfold readjust. destruct (waitingToSchedule t) eqn:E; [|apply taskStep_refl].
  unfold taskStep. simpl. rewrite E. repeat split; auto; discriminate.
Qed.

Lemma assignCores_coreStep (taskID : Z) (bestCores : list Z) :
  forall (cores cores' : list systemCore),
    assignCores taskID bestCores cores = Ok cores' -> Forall2 coreStep cores cores'.
Proof.
  induction bestCores as [|b rest IH]; intros cores cores' Hassign.
  - simpl in Hassign. injection Hassign as <-. apply Forall2_same. reflexivity.
  - cbn [assignCores] in Hassign. apply bind_Ok in Hassign as (c0 & Hc0 & Hassign).
    apply at_index_Ok in Hc0 as [Hb Hc0].
    apply (Forall2_chain coreStep) with (l2 := <[Z.to_nat b := setAssignedTaskID c0 taskID]> cores);
      [unfold coreStep; congruence | | eapply IH; exact Hassign].
    rewrite <- (list_insert_id cores (Z.to_nat b) c0 Hc0) at 1.
    apply Forall2_insert; [apply Forall2_same; reflexivity | reflexivity].
Qed.

Lemma setAffinity_sameFrame (s : SchedulerOpen) (thread_id : Z) :
  sameFrame s (snd (setAffinity s thread_id)).
Proof.
  unfold setAffinity. destruct (_ =? -1); simpl; [apply sameFrame_refl|].
  apply sameFrame_cores.
  apply Forall2_alter_r; [apply Forall2_same; reflexivity|].
  intros x y Hx Hy _. assert (x = y) as -> by congruence. reflexivity.
Qed.

Lemma schedule_sameFrame (s : SchedulerOpen) (taskID : Z) (isInitialCall : bool)
    (time : Z) (b : bool) (s' : SchedulerOpen) :
  schedule s taskID isInitialCall time = Ok (b, s') -> sameFrame s s'.
Proof.
  unfold schedule. intros Hs.
  apply bind_Ok in Hs as (task & Htask & Hs).
  destruct (taskArrivalTime task >? time); [injection Hs as _ <-; apply sameFrame_refl|].
  pose proof (sameFrame_updateTask s taskID putIntoQueue taskStep_putIntoQueue) as Hq.
  apply bind_Ok in Hs as (front & Hfront & Hs).
  destruct (negb (front =? taskID)); [injection Hs as _ <-; exact Hq|].
  destruct (numberOfFreeCores _ <? taskCoreRequirement task);
    [injection Hs as _ <-; exact Hq|].
  apply bind_Ok in Hs as ([m s1] & Hmap & Hs).
  assert (Hs1 : sameFrame (updateTask s taskID putIntoQueue) s1).
  { unfold executeMappingPolicy in Hmap.
    apply bind_Ok in Hmap as (task1 & _ & Hmap).
    destruct (_ <? taskCoreRequirement task1); [injection Hmap as _ <-; apply sameFrame_refl|].
    apply bind_Ok in Hmap as (cores & Hassign & Hmap). injection Hmap as _ <-.
    apply sameFrame_cores. eapply assignCores_coreStep. exact Hassign. }
  destruct m; [|injection Hs as _ <-; eapply sameFrame_trans; eauto].
  injection Hs as _ <-.
  eapply sameFrame_trans; [exact Hq|]. eapply sameFrame_trans; [exact Hs1|].
  eapply sameFrame_trans; [|apply sameFrame_updateTask; intros t; apply taskStep_markStarted].
  destruct isInitialCall; [apply sameFrame_refl | apply setAffinity_sameFrame].
Qed.

Lemma fetch_sameFrame (s : SchedulerOpen) (time : Z) :
  sameFrame s (fetchTasksIntoQueue s time).
Proof.
  apply sameFrame_tasks. intros t.
  destruct (_ && _); [apply taskStep_putIntoQueue | apply taskStep_refl].
Qed.

Lemma scheduleFront_sameFrame (s : SchedulerOpen) (time : Z) (r : SchedulerOpen) :
  (front ← taskFrontOfQueue s; '(_, s') ← schedule s front false time; Ok s') = Ok r ->
  sameFrame s r.
Proof.
  intros Hrun.
  apply bind_Ok in Hrun as (front & Hfront & Hrun).
  apply bind_Ok in Hrun as ([b s'] & Hs & Hrun). injection Hrun as <-.
  eapply schedule_sameFrame; eauto.
Qed.

Lemma prefetch_sameFrame (s : SchedulerOpen) (time : Z) (r : SchedulerOpen) :
  prefetch s time = Ok r -> sameFrame s r.
Proof.
  unfold prefetch.
  destruct ((numberOfFreeCores s =? numberOfCores s)
            && negb (numberOfTasksWaitingToSchedule s =? 0));
    [|intros [= <-]; apply sameFrame_refl].
  destruct (negb (numberOfTasksInQueue s =? 0)).
  { apply scheduleFront_sameFrame. }
  destruct (negb (numberOfTasksWaitingToSchedule s =? 0));
    [|intros [= <-]; apply sameFrame_refl].
  intros Hrun. apply bind_Ok in Hrun as (tasks & Hjump & Hrun).
  unfold timeJumpTasks in Hjump.
  destruct (nextArrivalTime (openTasks s) =? 0); [discriminate|]. injection Hjump as <-.
  eapply sameFrame_trans; [|eapply scheduleFront_sameFrame; exact Hrun].
  eapply sameFrame_trans; [|apply fetch_sameFrame].
  apply sameFrame_tasks. intros t. apply taskStep_readjust.
Qed.

Lemma threadExit_sameFrame (s : SchedulerOpen) (thread_id time : Z) (r : SchedulerOpen) :
  threadExit s thread_id time = Ok r -> sameFrame s r.
Proof.
  unfold threadExit. intros Hrun.
  apply bind_Ok in Hrun as (s2 & Hs2 & Hrun).
  apply bind_Ok in Hrun as (s3 & Hs3 & Hrun).
  assert (r = s3) as ->.
  { destruct ((numberOfTasksCompleted s3 =? numberOfTasks s3) && (numberOfTasks s3 =? 0));
      [discriminate | congruence]. }
  eapply sameFrame_trans; [|eapply prefetch_sameFrame; exact Hs3].
  assert (Hd : sameFrame s (withCores s (detachThread thread_id <$> systemCores s))).
  { apply sameFrame_cores, Forall2_fmap_self. intros c. unfold coreStep, detachThread.
    destruct (assignedThreadID c =? thread_id); reflexivity. }
  eapply sameFrame_trans; [exact Hd|].
  destruct (thread_id <? _); [|injection Hs2 as <-; apply sameFrame_refl].
  apply bind_Ok in Hs2 as (task & _ & Hs2). injection Hs2 as <-.
  eapply sameFrame_trans;
    [|apply sameFrame_updateTask; intros t; apply taskStep_markDeparted].
  apply (sameFrame_cores (withCores s (detachThread thread_id <$> systemCores s))).
  apply Forall2_fmap_self. intros c. unfold coreStep, releaseTask.
  destruct (assignedTaskID c =? getAppId thread_id); reflexivity.
Qed.

Lemma drainQueue_sameFrame (fuel : nat) (s : SchedulerOpen) (time : Z) (r : SchedulerOpen) :
  drainQueue fuel s time = Ok r -> sameFrame s r.
Proof.
  revert s. induction fuel as [|fuel IH]; intros s; simpl.
  - destruct (numberOfTasksInQueue s =? 0); [intros [= <-]; apply sameFrame_refl | discriminate].
  - destruct (numberOfTasksInQueue s =? 0); [intros [= <-]; apply sameFrame_refl|].
    intros Hrun. apply bind_Ok in Hrun as (front & Hfront & Hrun).
    apply bind_Ok in Hrun as ([b s'] & Hs & Hrun).
    pose proof (schedule_sameFrame _ _ _ _ _ _ Hs) as Hs'.
    destruct b; [eapply sameFrame_trans; eauto | injection Hrun as <-; exact Hs'].
Qed.

Lemma periodic_sameFrame (s : SchedulerOpen) (time : Z) (r : SchedulerOpen) :
  periodic s time = Ok r -> sameFrame s r.
Proof.
  unfold periodic. intros Hrun.
  apply bind_Ok in Hrun as (u & _ & Hrun).
  destruct (u64 (mappingEpoch s) =? 0); [discriminate|].
  destruct (time mod u64 (mappingEpoch s) =? 0); [|injection Hrun as <-; apply sameFrame_refl].
  eapply sameFrame_trans; [apply fetch_sameFrame|].
  eapply drainQueue_sameFrame. exact Hrun.
Qed.

Lemma threadCreate_sameFrame (s : SchedulerOpen) (thread_id time free_core_id : Z)
    (core : Z) (r : SchedulerOpen) :
  threadCreate s thread_id time free_core_id = Ok (core, r) -> sameFrame s r.
Proof.
  unfold threadCreate. intros Hrun.
  apply bind_Ok in Hrun as (s1 & Hs1 & Hrun).
  assert (Hf1 : sameFrame s s1).
  { destruct (thread_id =? 0).
    - apply bind_Ok in Hs1 as ([b s'] & Hs & Hs1).
      destruct b; [|discriminate]. injection Hs1 as <-.
      eapply schedule_sameFrame; eauto.
    - destruct ((0 <? thread_id) && (thread_id <? numberOfTasks s)).
      + apply bind_Ok in Hs1 as ([b s'] & Hs & Hs1). injection Hs1 as <-.
        eapply schedule_sameFrame; eauto.
      + injection Hs1 as <-. apply sameFrame_refl. }
  pose proof (setAffinity_sameFrame s1 thread_id) as Hf2.
  assert (r = snd (setAffinity s1 thread_id)) as ->.
  { destruct (negb (free_core_id =? INVALID_CORE_ID)); [congruence|].
    destruct (thread_id >=? numberOfTasks _); [discriminate | congruence]. }
  eapply sameFrame_trans; eauto.
Qed.

Lemma runHook_sameFrame (s : SchedulerOpen) (h : hook) (r : SchedulerOpen) :
  runHook s h = Ok r -> sameFrame s r.
Proof.
  destruct h; simpl runHook; intros Hrun.
  - apply bind_Ok in Hrun as ([b s'] & Hs & Hrun). injection Hrun as <-.
    eapply schedule_sameFrame; eauto.
  - injection Hrun as <-. apply setAffinity_sameFrame.
  - apply bind_Ok in Hrun as ([c s'] & Hs & Hrun). injection Hrun as <-.
    eapply threadCreate_sameFrame; eauto.
  - eapply threadExit_sameFrame; eauto.
  - eapply periodic_sameFrame; eauto.
Qed.

Lemma runHooks_sameFrame (hs : list hook) :
  forall (s r : SchedulerOpen), runHooks s hs = Ok r -> sameFrame s r.
Proof.
  induction hs as [|h rest IH]; intros s r; simpl.
  - intros [= <-]. apply sameFrame_refl.
  - intros Hrun. apply bind_Ok in Hrun as (s' & Hh & Hrun).
    eapply sameFrame_trans; [eapply runHook_sameFrame; exact Hh | eapply IH; exact Hrun].
Qed.

(** X9: Whatever hooks are called, in whatever order and with whatever policy:
    the core mask, the mapping epoch, the queuing policy and the
    configured number of tasks stay as they are, no task or core is added
    or removed, every task keeps its id,
    name and core requirement and every core its id; a task that has left
    phase WaitingToSchedule never goes back to it and keeps its arrival
    time, and a completed task stays completed. *)
Theorem hooks_keep_static_data (s r : SchedulerOpen) (hs : list hook) :
  runHooks s hs = Ok r ->
  m_core_mask r = m_core_mask s /\ mappingEpoch r = mappingEpoch s /\
  queuePolicy r = queuePolicy s /\
  numberOfTasks r = numberOfTasks s /\
  length (openTasks r) = length (openTasks s) /\
  numberOfCores r = numberOfCores s /\
  (forall (i : nat) (t : openTask), openTasks s !! i = Some t ->
     exists t', openTasks r !! i = Some t' /\
       taskID t' = taskID t /\ taskName t' = taskName t /\
       taskCoreRequirement t' = taskCoreRequirement t /\
       (waitingToSchedule t = false -> waitingToSchedule t' = false) /\
       (completed t = true -> completed t' = true) /\
       (waitingToSchedule t = false -> taskArrivalTime t' = taskArrivalTime t)) /\
  (forall (i : nat) (c : systemCore), systemCores s !! i = Some c ->
     exists c', systemCores r !! i = Some c' /\ coreID c' = coreID c).
Proof.
  intros Hrun. apply runHooks_sameFrame in Hrun as (E1 & E2 & E3 & Ht & Hc & E4).
  split; [exact E1|]. split; [exact E2|]. split; [exact E3|].
  split; [exact E4|].
  split; [rewrite (Forall2_length _ _ _ Ht); reflexivity|].
  split; [unfold numberOfCores; rewrite (Forall2_length _ _ _ Hc); reflexivity|].
  split.
  - intros i t Hi. destruct (Forall2_lookup_l _ _ _ _ _ Ht Hi) as (t' & Hi' & Hstep).
    exists t'. split; [exact Hi' | exact Hstep].
  - intros i c Hi. destruct (Forall2_lookup_l _ _ _ _ _ Hc Hi) as (c' & Hi' & Hstep).
    exists c'. split; [exact Hi' | exact Hstep].
Qed.

End Frame.

Lemma hooks_keep_static_data_witness :
  @runHooks (MapFirstUnused [0; 1]) (simpleHost 2 0) twoTasksTwoCores
    [ThreadCreate 0 0 0; ThreadCreate 1 0 (-1)] = Ok twoTasksFirstRunning /\
  m_core_mask twoTasksFirstRunning = m_core_mask twoTasksTwoCores /\
  mappingEpoch twoTasksFirstRunning = mappingEpoch twoTasksTwoCores /\
  queuePolicy twoTasksFirstRunning = queuePolicy twoTasksTwoCores /\
  numberOfTasks twoTasksFirstRunning = numberOfTasks twoTasksTwoCores /\
  length (openTasks twoTasksFirstRunning) = length (openTasks twoTasksTwoCores) /\
  numberOfCores twoTasksFirstRunning = numberOfCores twoTasksTwoCores /\
  (forall (i : nat) (t : openTask), openTasks twoTasksTwoCores !! i = Some t ->
     exists t', openTasks twoTasksFirstRunning !! i = Some t' /\
       taskID t' = taskID t /\ taskName t' = taskName t /\
       taskCoreRequirement t' = taskCoreRequirement t /\
       (waitingToSchedule t = false -> waitingToSchedule t' = false) /\
       (completed t = true -> completed t' = true) /\
       (waitingToSchedule t = false -> taskArrivalTime t' = taskArrivalTime t)) /\
  (forall (i : nat) (c : systemCore), systemCores twoTasksTwoCores !! i = Some c ->
     exists c', systemCores twoTasksFirstRunning !! i = Some c' /\ coreID c' = coreID c).
Proof.
  split; [vm_compute; reflexivity|].
  apply (@hooks_keep_static_data (MapFirstUnused [0; 1]) (simpleHost 2 0)
           twoTasksTwoCores twoTasksFirstRunning
           [ThreadCreate 0 0 0; ThreadCreate 1 0 (-1)]).
  vm_compute. reflexivity.
Defined.

(** ** Admission order under FIFO *)

Section Order.
Context `{MappingPolicy} `{ThreadManager}.
Variables (i j : nat).
Hypothesis Hij : (i < j)%nat.
























End Order.






(** ** Calls that return *)

Section Returns.
Context `{MappingPolicy} `{ThreadManager}.

Lemma at_index_in_range {A : Type} (l : list A) (i : Z) :
  0 <= i < Z.of_nat (length l) -> exists x, at_index l i = Ok x.
Proof.
  intros Hi. destruct (lookup_lt_is_Some_2 l (Z.to_nat i)) as [x Hx]; [lia|].
  exists x. apply at_index_Ok. split; [lia | exact Hx].
Qed.

Lemma assignCores_returns (taskID : Z) (bestCores : list Z) :
  forall (cores : list systemCore),
    (forall b, b ∈ bestCores -> 0 <= b < Z.of_nat (length cores)) ->
    exists cores', assignCores taskID bestCores cores = Ok cores'.
Proof.
  induction bestCores as [|b rest IH]; intros cores Hin.
  - exists cores. reflexivity.
  - cbn [assignCores].
    destruct (at_index_in_range cores b) as [c Hc]; [apply Hin; left|].
    rewrite Hc. cbn [mbind outcome_bind].
    apply IH. intros b' Hb'. rewrite length_insert. apply Hin. right. exact Hb'.
Qed.

Lemma sameFrame_requirements (s s' : SchedulerOpen) :
  sameFrame s s' -> requirementsNonneg s -> requirementsNonneg s'.
Proof.
  intros (_ & _ & _ & Ht & _) Hreq i t' Hi.
  destruct (Forall2_lookup_r _ _ _ _ _ Ht Hi) as (t & Hl & Hstep).
  destruct Hstep as (_ & _ & -> & _). exact (Hreq i t Hl).
Qed.

Lemma schedule_returns_Ok (s : SchedulerOpen) (taskID : Z) (isInitialCall : bool)
    (time : Z) :
  policyContract -> requirementsNonneg s -> queuePolicy s = "FIFO"%string ->
  0 <= taskID < Z.of_nat (length (openTasks s)) ->
  exists b s', schedule s taskID isInitialCall time = Ok (b, s').
Proof.
  intros Hcontract Hreq Hfifo Hrange. unfold numberOfTasks in Hrange. unfold schedule.
  destruct (at_index_in_range (openTasks s) taskID Hrange) as [task Htask].
  rewrite Htask. cbn [mbind outcome_bind].
  destruct (taskArrivalTime task >? time); [eauto|].
  unfold taskFrontOfQueue at 1. cbn [queuePolicy updateTask withTasks]. rewrite Hfifo.
  change ("FIFO" =? "FIFO")%string with true. cbn [mbind outcome_bind].
  destruct (negb _); [eauto|].
  destruct (_ <? taskCoreRequirement task); [eauto|].
  assert (exists m s1,
             executeMappingPolicy (updateTask s taskID putIntoQueue) taskID time
             = Ok (m, s1)) as (m & s1 & ->).
  { unfold executeMappingPolicy.
    destruct (at_index_in_range (openTasks (updateTask s taskID putIntoQueue)) taskID)
      as [task1 Htask1].
    { simpl. rewrite length_alter. exact Hrange. }
    rewrite Htask1. cbn [mbind outcome_bind].
    assert (Hnonneg : 0 <= taskCoreRequirement task1).
    { apply at_index_Ok in Htask1 as [_ Hl]. simpl in Hl.
      rewrite list_lookup_alter_eq in Hl.
      destruct (openTasks s !! Z.to_nat taskID) as [t0|] eqn:E; [|discriminate].
      injection Hl as <-. simpl. exact (Hreq _ _ E). }
    set (bestCores := policy_map _ _ _ _).
    destruct (Z.ltb_spec (Z.of_nat (length bestCores)) (taskCoreRequirement task1))
      as [|Hlen]; [eauto|].
    destruct (assignCores_returns taskID bestCores
                (systemCores (updateTask s taskID putIntoQueue))) as [cores' ->];
      [|cbn [mbind outcome_bind]; eauto].
    intros b Hb.
    destruct (Hcontract _ _ _ _ Hnonneg Hlen) as (_ & _ & Hav).
    destruct (Hav b Hb) as [Hb0 Hlook].
    apply lookup_lt_Some in Hlook. unfold availableCores in Hlook.
    rewrite length_imap in Hlook. lia. }
  cbn [mbind outcome_bind]. destruct m; eauto.
Qed.

Lemma front_in_range (s : SchedulerOpen) :
  queuePolicy s = "FIFO"%string -> numberOfTasksInQueue s <> 0 ->
  exists front t, taskFrontOfQueue s = Ok front /\
    0 <= front < Z.of_nat (length (openTasks s)) /\
                  at_index (openTasks s) front = Ok t /\ waitingInQueue t = true.
Proof.
  intros Hfifo Hne. unfold taskFrontOfQueue. rewrite Hfifo.
  change ("FIFO" =? "FIFO")%string with true. cbv iota.
  destruct (firstIndex_range waitingInQueue (openTasks s)) as [Hnone|Hpos].
  - exfalso. apply Hne. apply sumOver_b2z_zero. exact (firstIndex_none _ _ Hnone).
  - destruct (firstIndex_found waitingInQueue (openTasks s) _ eq_refl ltac:(lia))
      as (x & Hx & Hq & _).
    exists (firstIndex waitingInQueue (openTasks s)), x.
    split; [reflexivity|]. split; [exact (at_index_bound _ _ _ Hx)|]. split; assumption.
Qed.

Lemma failed_front_stays_queued (s : SchedulerOpen) (front time : Z) (t : openTask)
    (s' : SchedulerOpen) :
  at_index (openTasks s) front = Ok t -> waitingInQueue t = true ->
  schedule s front false time = Ok (false, s') ->
  numberOfTasksInQueue s' = numberOfTasksInQueue s.
Proof.
  intros Ht Hq Hs.
  apply schedule_cases in Hs as (task & Htask & Hcases).
  assert (task = t) as -> by congruence.
  destruct Hcases as [(_ & _ & ->)|[(_ & _ & ->)|(_ & Hb & _)]];
    [reflexivity | | discriminate].
  apply at_index_Ok in Ht as [_ Hl].
  unfold numberOfTasksInQueue. cbn [openTasks updateTask withTasks].
  rewrite (sumOver_alter _ _ _ _ t Hl). simpl. rewrite Hq. simpl. lia.
Qed.

Lemma drainQueue_returns_Ok (fuel : nat) :
  forall (s : SchedulerOpen) (time : Z),
    policyContract -> requirementsNonneg s -> queuePolicy s = "FIFO"%string ->
    numberOfTasksInQueue s <= Z.of_nat fuel ->
    exists r, drainQueue fuel s time = Ok r /\
              numberOfTasksInQueue r <= numberOfTasksInQueue s.
Proof.
  induction fuel as [|fuel IH]; intros s time Hcontract Hreq Hfifo Hcount.
  - pose proof (queue_count_bounds s) as Hb.
    assert (E : numberOfTasksInQueue s = 0) by lia.
    exists s. simpl. rewrite E. split; [reflexivity | lia].
  - simpl. destruct (Z.eqb_spec (numberOfTasksInQueue s) 0) as [|Hne];
      [exists s; split; [reflexivity | lia]|].
    destruct (front_in_range s Hfifo Hne) as (front & t & Hfront & Hrange & Ht & Hq).
    rewrite Hfront. cbn [mbind outcome_bind].
    destruct (schedule_returns_Ok s front false time Hcontract Hreq Hfifo Hrange)
      as (b & s' & Hs).
    rewrite Hs. cbn [mbind outcome_bind].
    pose proof (schedule_sameFrame _ _ _ _ _ _ Hs) as Hframe.
    destruct b.
    + pose proof (started_front_leaves_queue s front time s' Hfront Hs) as Hless.
      destruct (IH s' time Hcontract) as (r & Hr & Hle).
      * eapply sameFrame_requirements; eauto.
      * destruct Hframe as (_ & _ & -> & _). exact Hfifo.
      * lia.
      * exists r. split; [exact Hr | lia].
    + exists s'. split; [reflexivity|].
      rewrite (failed_front_stays_queued s front time t s' Ht Hq Hs). lia.
Qed.

Lemma reachable_mono (P Q : SchedulerOpen -> hook -> Prop) (init s : SchedulerOpen) :
  (forall s h, P s h -> Q s h) -> reachable P init s -> reachable Q init s.
Proof.
  intros HPQ Hreach. induction Hreach as [|s s' h _ IH Hallowed Hrun].
  - apply reach_init.
  - eapply reach_step; eauto.
Qed.

Lemma hostProtocol_notRescheduled (s : SchedulerOpen) (h : hook) :
  hostProtocol s h -> notRescheduled s h.
Proof.
  destruct h; simpl; auto; intros Hns (t & Ht & Hact);
    destruct (Hns t Ht) as [Ha _]; congruence.
Qed.

Lemma sameFrame_count (init s : SchedulerOpen) :
  sameFrame init s -> 0 <= numberOfTasks init ->
  length (openTasks init) = Z.to_nat (numberOfTasks init) ->
  Z.of_nat (length (openTasks s)) = numberOfTasks s.
Proof.
  intros (_ & _ & _ & Ht & _ & E) Hcount Hlen.
  rewrite E, <- (Forall2_length _ _ _ Ht), Hlen. lia.
Qed.

Lemma reachable_sameFrame (allowed : SchedulerOpen -> hook -> Prop)
    (init s : SchedulerOpen) :
  reachable allowed init s -> sameFrame init s.
Proof.
  intros Hreach. induction Hreach as [|s s' h _ IH _ Hrun].
  - apply sameFrame_refl.
  - eapply sameFrame_trans; [exact IH | eapply runHook_sameFrame; exact Hrun].
Qed.

(** X7: Phase partition: when the constructor has left one task record for
    each index below a configured number of tasks that is not negative,
    and the host creates each primary thread before its task is started
    and lets it exit only while the task is Active, every task of every
    reached state is in exactly one of the four phases, and the four
    phase counts add up to the configured number of tasks, the number
    that [periodic] compares them with. *)
Theorem phase_partition (init s : SchedulerOpen) :
  initialState init ->
  0 <= numberOfTasks init ->
  length (openTasks init) = Z.to_nat (numberOfTasks init) ->
  reachable hostProtocol init s ->
  (forall (i : nat) (t : openTask), openTasks s !! i = Some t -> onePhase t) /\
  numberOfActiveTasks s + numberOfTasksCompleted s
  + numberOfTasksInQueue s + numberOfTasksWaitingToSchedule s = numberOfTasks s.
Proof.
  intros Hinit Hcount Hlen Hreach.
  pose proof (reachable_lifecycleInv init s Hinit Hreach) as Hinv.
  split; [intros i t Hi; apply (Hinv i t Hi)|].
  rewrite (lifecycleInv_counts s Hinv).
  exact (sameFrame_count init s (reachable_sameFrame _ _ _ Hreach) Hcount Hlen).
Qed.

(** X10: [schedule] returns: with the FIFO policy, a mapping policy that keeps
    the contract and no negative core requirement, a call for a task index
    in range neither aborts nor reads outside a vector. *)
Theorem schedule_returns (s : SchedulerOpen) (taskID : Z) (isInitialCall : bool)
    (time : Z) :
  policyContract -> requirementsNonneg s -> queuePolicy s = "FIFO"%string ->
  0 <= taskID < Z.of_nat (length (openTasks s)) ->
  exists b s', schedule s taskID isInitialCall time = Ok (b, s') /\
               (b = false -> systemCores s' = systemCores s).
Proof.
  intros Hcontract Hreq Hfifo Hrange.
  destruct (schedule_returns_Ok s taskID isInitialCall time Hcontract Hreq Hfifo Hrange)
    as (b & s' & Hs).
  exists b, s'. split; [exact Hs|]. intros ->.
  apply schedule_cases in Hs as (task & _ & Hcases).
  destruct Hcases as [(_ & _ & ->)|[(_ & _ & ->)|(_ & Hb & _)]];
    [reflexivity | reflexivity | discriminate].
Qed.

(** X11: The queue drain of [periodic] ends: with the FIFO policy and a mapping
    policy that keeps the contract, the loop returns after at most one
    pass per queued task plus one, the result does not depend on the
    bound once it is at least the number of queued tasks, the queue has
    not grown, and the configured number of tasks and the size of the
    task vector are as before. *)
Theorem drain_loop_ends (s : SchedulerOpen) (time : Z) :
  policyContract -> requirementsNonneg s -> queuePolicy s = "FIFO"%string ->
  exists r,
    (forall fuel : nat, numberOfTasksInQueue s <= Z.of_nat fuel ->
                        drainQueue fuel s time = Ok r) /\
    numberOfTasksInQueue r <= numberOfTasksInQueue s /\
    numberOfTasks r = numberOfTasks s /\
    length (openTasks r) = length (openTasks s).
Proof.
  intros Hcontract Hreq Hfifo.
  pose proof (queue_count_bounds s) as Hb.
  destruct (drainQueue_returns_Ok (Z.to_nat (numberOfTasksInQueue s)) s time
              Hcontract Hreq Hfifo ltac:(lia)) as (r & Hr & Hle).
  exists r. split; [|split; [exact Hle|]].
  - intros fuel Hfuel. rewrite <- Hr. apply drainQueue_fuel; lia.
  - apply drainQueue_sameFrame in Hr as (_ & _ & _ & Ht & _ & E).
    split; [exact E|]. rewrite (Forall2_length _ _ _ Ht). reflexivity.
Qed.

(** X12: [periodic] returns: from a state the constructor leaves for a
    configured number of tasks that is not negative (the task vector then
    has that many entries), with the FIFO policy, a mapping epoch that is
    not 0 modulo 2^64, a mapping policy that keeps the contract and a host
    that follows the protocol, neither consistency check fires, the drain
    loop ends, and the call returns. *)
Theorem periodic_returns (init s : SchedulerOpen) (time : Z) :
  policyContract -> initialState init ->
  0 <= numberOfTasks init ->
  length (openTasks init) = Z.to_nat (numberOfTasks init) ->
  queuePolicy init = "FIFO"%string -> u64 (mappingEpoch init) <> 0 ->
  reachable hostProtocol init s ->
  exists r, periodic s time = Ok r.
Proof.
  intros Hcontract Hinit Hcount Hlen Hfifo Hepoch Hreach.
  pose proof (reachable_sameFrame _ _ _ Hreach) as Hframe.
  pose proof (sameFrame_count init s Hframe Hcount Hlen) as Hn.
  pose proof (reachable_lifecycleInv init s Hinit Hreach) as Hlife.
  pose proof (reachable_capacityInv init s Hcontract Hinit
                (reachable_mono _ _ _ _ hostProtocol_notRescheduled Hreach))
    as (Hcap & _ & _ & Hreq).
  destruct Hframe as (_ & Hepoch' & Hfifo' & _).
  rewrite <- Hepoch' in Hepoch. rewrite <- Hfifo' in Hfifo.
  unfold periodic.
  assert (Hchecks :
    (if time mod 1000000 =? 0 then
       if negb (numberOfCores s - totalCoreRequirementsOfActiveTasks s
                =? numberOfFreeCores s)
       then Exit CapacityMismatch
       else if negb (numberOfActiveTasks s + numberOfTasksCompleted s
                     + numberOfTasksInQueue s + numberOfTasksWaitingToSchedule s
                     =? numberOfTasks s)
       then Exit TaskStateMismatch
       else Ok tt
     else Ok tt) = Ok tt).
  { destruct (time mod 1000000 =? 0); [|reflexivity].
    pose proof (free_plus_assigned s) as Hsum. unfold capacity in Hcap.
    replace (numberOfCores s - totalCoreRequirementsOfActiveTasks s =? numberOfFreeCores s)
      with true by (symmetry; apply Z.eqb_eq; lia).
    rewrite (lifecycleInv_counts s Hlife), Hn, Z.eqb_refl. reflexivity. }
  rewrite Hchecks. cbn [mbind outcome_bind].
  destruct (Z.eqb_spec (u64 (mappingEpoch s)) 0) as [|_]; [contradiction|].
  destruct (time mod u64 (mappingEpoch s) =? 0); [|eauto].
  destruct (drainQueue_returns_Ok (S (length (openTasks s)))
              (fetchTasksIntoQueue s time) time Hcontract) as (r & Hr & _).
  - eapply sameFrame_requirements; [apply fetch_sameFrame | exact Hreq].
  - exact Hfifo.
  - pose proof (queue_count_bounds (fetchTasksIntoQueue s time)) as Hb.
    simpl openTasks in Hb. rewrite length_fmap in Hb. lia.
  - exists r. exact Hr.
Qed.

End Returns.

Lemma requirementsNonneg_initial (s : SchedulerOpen) :
  initialState s -> requirementsNonneg s.
Proof.
  intros [_ Htasks] i t Hi. rewrite Forall_forall in Htasks.
  apply (Htasks t). apply list_elem_of_lookup. eauto.
Qed.

Lemma NoDup_firstTwo : NoDup [0; 1].
Proof.
  apply NoDup_ListNoDup. repeat (constructor; [simpl; lia|]). constructor.
Qed.

Lemma requirementsNonneg_twoTasksQueued :
  requirementsNonneg (fetchTasksIntoQueue twoTasksFirstRunning 2000).
Proof.
  intros [|[|i]] t Hi; vm_compute in Hi; [| |discriminate];
    injection Hi as <-; simpl; lia.
Qed.

Lemma schedule_returns_witness :
  exists b s',
    @schedule firstFour (simpleHost 1 0) oneTaskFourCores 0 true 0 = Ok (b, s') /\
    (b = false -> systemCores s' = systemCores oneTaskFourCores).
Proof.
  apply (@schedule_returns firstFour (simpleHost 1 0) oneTaskFourCores 0 true 0).
  - apply MapFirstUnused_contract, NoDup_firstFour.
  - apply requirementsNonneg_initial, initialState_oneTaskFourCores.
  - reflexivity.
  - split; [lia | reflexivity].
Defined.

Lemma drain_loop_ends_witness :
  exists r,
    (forall fuel : nat,
       numberOfTasksInQueue (fetchTasksIntoQueue twoTasksFirstRunning 2000)
         <= Z.of_nat fuel ->
       @drainQueue (MapFirstUnused [0; 1]) (simpleHost 2 0) fuel
         (fetchTasksIntoQueue twoTasksFirstRunning 2000) 2000 = Ok r) /\
    numberOfTasksInQueue r
      <= numberOfTasksInQueue (fetchTasksIntoQueue twoTasksFirstRunning 2000) /\
    numberOfTasks r = numberOfTasks (fetchTasksIntoQueue twoTasksFirstRunning 2000) /\
    length (openTasks r)
      = length (openTasks (fetchTasksIntoQueue twoTasksFirstRunning 2000)).
Proof.
  apply (@drain_loop_ends (MapFirstUnused [0; 1]) (simpleHost 2 0)
           (fetchTasksIntoQueue twoTasksFirstRunning 2000) 2000).
  - apply MapFirstUnused_contract, NoDup_firstTwo.
  - exact requirementsNonneg_twoTasksQueued.
  - reflexivity.
Defined.

Lemma phase_partition_witness :
  initialState oneTaskFourCores /\
  0 <= numberOfTasks oneTaskFourCores /\
  length (openTasks oneTaskFourCores) = Z.to_nat (numberOfTasks oneTaskFourCores) /\
  @reachable firstFour (simpleHost 1 0) (@hostProtocol (simpleHost 1 0))
    oneTaskFourCores oneTaskStarted /\
  (forall (i : nat) (t : openTask), openTasks oneTaskStarted !! i = Some t -> onePhase t) /\
  numberOfActiveTasks oneTaskStarted + numberOfTasksCompleted oneTaskStarted
  + numberOfTasksInQueue oneTaskStarted + numberOfTasksWaitingToSchedule oneTaskStarted
  = numberOfTasks oneTaskStarted.
Proof.
  split; [exact initialState_oneTaskFourCores|].
  split; [vm_compute; discriminate|].
  split; [reflexivity|].
  split; [exact reachable_oneTaskStarted|].
  apply (@phase_partition firstFour (simpleHost 1 0) oneTaskFourCores oneTaskStarted).
  - exact initialState_oneTaskFourCores.
  - vm_compute. discriminate.
  - reflexivity.
  - exact reachable_oneTaskStarted.
Defined.

Lemma periodic_returns_witness :
  initialState oneTaskFourCores /\
  0 <= numberOfTasks oneTaskFourCores /\
  length (openTasks oneTaskFourCores) = Z.to_nat (numberOfTasks oneTaskFourCores) /\
  @reachable firstFour (simpleHost 1 0) (@hostProtocol (simpleHost 1 0))
    oneTaskFourCores oneTaskStarted /\
  exists r, @periodic firstFour (simpleHost 1 0) oneTaskStarted 3000000 = Ok r.
Proof.
  split; [exact initialState_oneTaskFourCores|].
  split; [vm_compute; discriminate|].
  split; [reflexivity|].
  split; [exact reachable_oneTaskStarted|].
  apply (@periodic_returns firstFour (simpleHost 1 0) oneTaskFourCores oneTaskStarted
           3000000).
  - apply MapFirstUnused_contract, NoDup_firstFour.
  - exact initialState_oneTaskFourCores.
  - vm_compute. discriminate.
  - reflexivity.
  - reflexivity.
  - vm_compute. discriminate.
  - exact reachable_oneTaskStarted.
Defined.

(** ** The exit of a primary thread *)

Section Exit.
Context `{MappingPolicy} `{ThreadManager}.

Lemma threadExit_marks_completed (s : SchedulerOpen) (thread_id time : Z)
    (r : SchedulerOpen) :
  thread_id < numberOfTasks s ->
  threadExit s thread_id time = Ok r ->
  exists t', at_index (openTasks r) (getAppId thread_id) = Ok t' /\ completed t' = true.
Proof.
  intros Hprimary. unfold threadExit. intros Hrun.
  apply bind_Ok in Hrun as (s2 & Hs2 & Hrun).
  apply bind_Ok in Hrun as (s3 & Hs3 & Hrun).
  assert (r = s3) as ->.
  { destruct ((numberOfTasksCompleted s3 =? numberOfTasks s3) && (numberOfTasks s3 =? 0));
      [discriminate | congruence]. }
  apply prefetch_sameFrame in Hs3 as (_ & _ & _ & Hframe & _).
  destruct (Z.ltb_spec thread_id
              (numberOfTasks (withCores s (detachThread thread_id <$> systemCores s))))
    as [_|Hge]; [|simpl in Hge; lia].
  apply bind_Ok in Hs2 as (task & Htask & Hs2). injection Hs2 as <-.
  apply at_index_Ok in Htask as [Hpos Hl]. simpl in Hl.
  assert (Hl2 : alter (fun t => markDeparted t time) (Z.to_nat (getAppId thread_id))
                      (openTasks s) !! Z.to_nat (getAppId thread_id)
                = Some (markDeparted task time)).
  { rewrite list_lookup_alter_eq, Hl. reflexivity. }
  destruct (Forall2_lookup_l _ _ _ _ _ Hframe Hl2) as (t' & Hl' & Hstep).
  exists t'. split; [apply at_index_Ok; split; [exact Hpos | exact Hl']|].
  destruct Hstep as (_ & _ & _ & _ & Hc & _). apply Hc. reflexivity.
Qed.

(** X13: When the primary thread of an Active task exits and [threadExit]
    returns, the task is Completed and in no other phase, and no core is
    assigned to it any more, whatever the prefetch at the end of
    [threadExit] has started in its place. *)
Theorem primary_exit_completes_task (init s r : SchedulerOpen) (thread_id time : Z) :
  policyContract -> initialState init -> reachable hostProtocol init s ->
  thread_id < numberOfTasks s -> taskIsActive s (getAppId thread_id) ->
  threadExit s thread_id time = Ok r ->
  exists t',
    at_index (openTasks r) (getAppId thread_id) = Ok t' /\
    completed t' = true /\ active t' = false /\
    waitingInQueue t' = false /\ waitingToSchedule t' = false /\
    coresOfTask r (getAppId thread_id) = 0.
Proof.
  intros Hcontract Hinit Hreach Hprimary Hactive Hrun.
  assert (Hreach' : reachable hostProtocol init r).
  { apply (reach_step hostProtocol init s r (ThreadExit thread_id time) Hreach);
      [intros _; exact Hactive | exact Hrun]. }
  pose proof (reachable_lifecycleInv init r Hinit Hreach') as Hlife.
  pose proof (reachable_capacityInv init r Hcontract Hinit
                (reachable_mono _ _ _ _ hostProtocol_notRescheduled Hreach'))
    as (_ & Hcores & _).
  destruct (threadExit_marks_completed s thread_id time r Hprimary Hrun)
    as (t' & Ht' & Hc).
  exists t'. split; [exact Ht'|].
  apply at_index_Ok in Ht' as [Hpos Hl].
  destruct (Hlife _ _ Hl) as [Hone _].
  destruct (onePhase_cases t' Hone)
    as [(_ & _ & _ & E)|[(_ & _ & _ & E)|[(_ & _ & _ & E)|(Hw & Hq & Ha & _)]]];
    try congruence.
  split; [exact Hc|]. split; [exact Ha|]. split; [exact Hq|]. split; [exact Hw|].
  rewrite <- (Z2Nat.id (getAppId thread_id)) by exact Hpos.
  rewrite (Hcores _ _ Hl). unfold activeRequirement. rewrite Ha. reflexivity.
Qed.

End Exit.

Lemma initialState_twoTasksTwoCores : initialState twoTasksTwoCores.
Proof.
  split; repeat (constructor; [simpl; repeat split; lia|]); constructor.
Qed.

Lemma reachable_twoTasksFirstRunning :
  @reachable (MapFirstUnused [0; 1]) (simpleHost 2 0) (@hostProtocol (simpleHost 2 0))
    twoTasksTwoCores twoTasksFirstRunning.
Proof.
  apply (@reach_step (MapFirstUnused [0; 1]) (simpleHost 2 0)
           (@hostProtocol (simpleHost 2 0))
           twoTasksTwoCores twoTasksFirstCreated twoTasksFirstRunning
           (ThreadCreate 1 0 (-1))).
  - apply (@reach_step (MapFirstUnused [0; 1]) (simpleHost 2 0)
             (@hostProtocol (simpleHost 2 0))
             twoTasksTwoCores twoTasksTwoCores twoTasksFirstCreated
             (ThreadCreate 0 0 0)).
    + apply reach_init.
    + intros t Ht. vm_compute in Ht. injection Ht as <-. split; reflexivity.
    + vm_compute. reflexivity.
  - intros t Ht. vm_compute in Ht. injection Ht as <-. split; reflexivity.
  - vm_compute. reflexivity.
Qed.

Lemma primary_exit_completes_task_witness :
  @threadExit (MapFirstUnused [0; 1]) (simpleHost 2 0) twoTasksFirstRunning 0 5000
    = Ok twoTasksSecondRunning /\
  exists t',
    at_index (openTasks twoTasksSecondRunning) 0 = Ok t' /\
    completed t' = true /\ active t' = false /\
    waitingInQueue t' = false /\ waitingToSchedule t' = false /\
    coresOfTask twoTasksSecondRunning 0 = 0.
Proof.
  split; [vm_compute; reflexivity|].
  apply (@primary_exit_completes_task (MapFirstUnused [0; 1]) (simpleHost 2 0)
           twoTasksTwoCores twoTasksFirstRunning twoTasksSecondRunning 0 5000).
  - apply MapFirstUnused_contract, NoDup_firstTwo.
  - exact initialState_twoTasksTwoCores.
  - exact reachable_twoTasksFirstRunning.
  - reflexivity.
  - eexists. split; [vm_compute; reflexivity | reflexivity].
  - vm_compute. reflexivity.
Defined.

(** ** The task descriptor *)

Lemma string_length_append (a b : string) :
  String.length (a ++ b)%string = (String.length a + String.length b)%nat.
Proof. induction a as [|c a IH]; simpl; [reflexivity | rewrite IH; reflexivity]. Qed.

Lemma string_append_assoc (a b c : string) :
  ((a ++ b) ++ c = a ++ (b ++ c))%string.
Proof. induction a as [|x a IH]; simpl; [reflexivity | rewrite IH; reflexivity]. Qed.

Lemma index_skip (a b p : string) (n : nat) :
  index (String.length a + S n) p (a ++ b)%string
  = option_map (Nat.add (String.length a)) (index (S n) p b).
Proof.
  induction a as [|c a IH].
  - simpl String.length. simpl append. rewrite Nat.add_0_l.
    destruct (index (S n) p b); reflexivity.
  - simpl String.length. simpl append.
    change (S (String.length a) + S n)%nat with (S (String.length a + S n)).
    cbn [index]. rewrite IH. destruct (index (S n) p b); reflexivity.
Qed.

Lemma index_first_char (d : ascii) (a b : string) :
  index 0 (String d "") a = None ->
  index 0 (String d "") (a ++ String d b)%string = Some (String.length a).
Proof.
  induction a as [|c a IH]; intros Hno.
  - cbn [append index String.prefix String.length].
    destruct (ascii_dec d d); [destruct b; reflexivity | congruence].
  - cbn [append index String.prefix String.length] in Hno |- *.
    destruct (ascii_dec d c) as [Heq|Hne].
    + destruct a; discriminate.
    + destruct (index 0 (String d "") a) eqn:E; [discriminate|].
      rewrite (IH eq_refl). reflexivity.
Qed.

Lemma index_first (a b : string) :
  index 0 "-" a = None ->
  index 0 "-" (a ++ String "-" b)%string = Some (String.length a).
Proof. apply (index_first_char "-"). Qed.

Lemma substring_skip (a b : string) (n m : nat) :
  substring (String.length a + n) m (a ++ b)%string = substring n m b.
Proof. induction a as [|c a IH]; simpl; [reflexivity | exact IH]. Qed.

Lemma substring_prefix (a b : string) :
  substring 0 (String.length a) (a ++ b)%string = a.
Proof. induction a as [|c a IH]; simpl; [destruct b | rewrite IH]; reflexivity. Qed.

Lemma substring_all (a : string) : substring 0 (String.length a) a = a.
Proof. induction a as [|c a IH]; simpl; [|rewrite IH]; reflexivity. Qed.

Lemma substr_nat (s : string) (pos len : nat) :
  (pos <= String.length s)%nat ->
  substr s (Z.of_nat pos) (Z.of_nat len) = Ok (substring pos len s).
Proof.
  intros Hpos. unfold substr.
  destruct (Z.ltb_spec (Z.of_nat pos) 0); [lia|].
  destruct (Z.ltb_spec (Z.of_nat (String.length s)) (Z.of_nat pos)); [lia|].
  destruct (Z.ltb_spec (Z.of_nat len) 0); [lia|].
  simpl. rewrite !Nat2Z.id. reflexivity.
Qed.

Lemma find_dash_first (a b : string) :
  index 0 "-" a = None ->
  find_dash (a ++ String "-" b) 0 = Z.of_nat (String.length a).
Proof.
  intros Hno. unfold find_dash. change (Z.to_nat 0) with 0%nat.
  rewrite (index_first a b Hno). reflexivity.
Qed.

(** The search continues behind a dash that was found. *)
Lemma find_dash_next (a b : string) :
  find_dash (a ++ String "-" b) (Z.of_nat (String.length a) + 1)
  = if find_dash b 0 =? -1 then -1
    else Z.of_nat (String.length a) + 1 + find_dash b 0.
Proof.
  unfold find_dash.
  replace (Z.to_nat (Z.of_nat (String.length a) + 1)) with (String.length a + 1)%nat by lia.
  rewrite index_skip. cbn [index]. change (Z.to_nat 0) with 0%nat.
  destruct (index 0 "-" b) as [k|]; simpl option_map; [|reflexivity].
  destruct (Z.eqb_spec (Z.of_nat k) (-1)); lia.
Qed.

(** A field that follows a dash and is followed by [rest]. *)
Lemma field_after (pre field rest : string) :
  substring (String.length pre + 1) (String.length field)
            (pre ++ String "-" (field ++ rest))%string = field.
Proof. rewrite substring_skip. simpl. apply substring_prefix. Qed.

(** X14: The descriptor suite-benchmark-input-parallelism: the profile table is
    chosen by the first two fields, the third is ignored, and all that
    follows the third dash is read by [atoi] as the parallelism, an
    [int], which selects the table entry. *)
Theorem descriptor_fields (suite benchmark input digits : string) :
  index 0 "-" suite = None -> index 0 "-" benchmark = None ->
  index 0 "-" input = None ->
  coreRequirementTranslation
    (suite ++ "-" ++ benchmark ++ "-" ++ input ++ "-" ++ digits)%string
  = (if atoi digits <? 1 then Exit ParallelismBelowOne
     else
       requirements ← requirementsOf suite benchmark;
       if atoi digits - 1 <? Z.of_nat (length requirements)
       then at_index requirements (atoi digits - 1)
       else Exit ProfileMissing).
Proof.
  intros Hs Hb Hi.
  set (r2 := (input ++ "-" ++ digits)%string).
  set (r1 := (benchmark ++ "-" ++ r2)%string).
  set (whole := (suite ++ "-" ++ r1)%string).
  set (n1 := String.length suite). set (n2 := String.length benchmark).
  set (n3 := String.length input). set (n4 := String.length digits).
  assert (Hlen : String.length whole = (n1 + 1 + (n2 + 1 + (n3 + 1 + n4)))%nat).
  { unfold whole, r1, r2. rewrite !string_length_append. simpl String.length.
    unfold n1, n2, n3, n4. lia. }
  assert (Hd1 : find_dash whole 0 = Z.of_nat n1) by (apply find_dash_first; exact Hs).
  assert (Hr1 : find_dash r1 0 = Z.of_nat n2) by (apply find_dash_first; exact Hb).
  assert (Hr2 : find_dash r2 0 = Z.of_nat n3) by (apply find_dash_first; exact Hi).
  assert (Hd2 : find_dash whole (Z.of_nat n1 + 1) = Z.of_nat (n1 + 1 + n2)).
  { unfold whole. simpl append. unfold n1. rewrite find_dash_next. fold r1. rewrite Hr1.
    destruct (Z.eqb_spec (Z.of_nat n2) (-1)); lia. }
  assert (Hwhole2 : whole = ((suite ++ "-" ++ benchmark) ++ String "-" r2)%string).
  { unfold whole, r1. rewrite !string_append_assoc. reflexivity. }
  assert (Hlen2 : String.length (suite ++ "-" ++ benchmark)%string = (n1 + 1 + n2)%nat).
  { rewrite string_length_append. simpl. unfold n1, n2. lia. }
  assert (Hd3 : find_dash whole (Z.of_nat (n1 + 1 + n2) + 1)
                = Z.of_nat (n1 + 1 + n2 + 1 + n3)).
  { rewrite Hwhole2, <- Hlen2, find_dash_next, Hr2.
    destruct (Z.eqb_spec (Z.of_nat n3) (-1)); lia. }
  assert (Hwhole3 : whole
                    = (((suite ++ "-" ++ benchmark) ++ "-" ++ input) ++ String "-" digits)%string).
  { rewrite Hwhole2. unfold r2. rewrite !string_append_assoc. reflexivity. }
  assert (Hlen3 : String.length ((suite ++ "-" ++ benchmark) ++ "-" ++ input)%string
                  = (n1 + 1 + n2 + 1 + n3)%nat).
  { rewrite string_length_append, Hlen2. simpl. unfold n3. lia. }
  unfold coreRequirementTranslation. fold whole. cbv zeta.
  rewrite Hd1, Hd2, Hd3.
  (* the four fields *)
  pose proof (substr_nat whole 0 n1 ltac:(lia)) as E1.
  change (Z.of_nat 0) with 0 in E1. rewrite E1.
  replace (Z.of_nat n1 + 1) with (Z.of_nat (n1 + 1)) by lia.
  replace (Z.of_nat (n1 + 1 + n2) - Z.of_nat n1 - 1) with (Z.of_nat n2) by lia.
  rewrite (substr_nat whole (n1 + 1) n2) by lia.
  replace (Z.of_nat (n1 + 1 + n2) + 1) with (Z.of_nat (n1 + 1 + n2 + 1)) by lia.
  replace (Z.of_nat (n1 + 1 + n2 + 1 + n3) - Z.of_nat (n1 + 1 + n2) - 1)
    with (Z.of_nat n3) by lia.
  rewrite (substr_nat whole (n1 + 1 + n2 + 1) n3) by lia.
  replace (Z.of_nat (n1 + 1 + n2 + 1 + n3) + 1)
    with (Z.of_nat (n1 + 1 + n2 + 1 + n3 + 1)) by lia.
  replace (Z.of_nat (String.length whole) - Z.of_nat (n1 + 1 + n2 + 1 + n3) - 1)
    with (Z.of_nat n4) by lia.
  rewrite (substr_nat whole (n1 + 1 + n2 + 1 + n3 + 1) n4) by lia.
  cbn [mbind outcome_bind].
  assert (F1 : substring 0 n1 whole = suite) by exact (substring_prefix suite _).
  assert (F2 : substring (n1 + 1) n2 whole = benchmark)
    by exact (field_after suite benchmark (String "-" r2)).
  assert (F4 : substring (n1 + 1 + n2 + 1 + n3 + 1) n4 whole = digits).
  { rewrite Hwhole3, <- Hlen3, substring_skip. simpl. apply substring_all. }
  rewrite F1, F2, F4. reflexivity.
Qed.

Lemma descriptor_fields_witness :
  coreRequirementTranslation "splash2-fft-anything-4" = Ok 4 /\
  coreRequirementTranslation "parsec-blackscholes-simsmall-4294967297" = Ok 2.
Proof.
  split.
  - apply (descriptor_fields "splash2" "fft" "anything" "4"); reflexivity.
  - apply (descriptor_fields "parsec" "blackscholes" "simsmall" "4294967297");
      reflexivity.
Defined.

Lemma index_below_length (p : string) (s : string) :
  p <> EmptyString ->
  forall (n m : nat), index n p s = Some m -> (m < String.length s)%nat.
Proof.
  intros Hp. induction s as [|c s IH]; intros n m Hm.
  - destruct n; simpl in Hm; [destruct p; [contradiction | discriminate] | discriminate].
  - cbn [index] in Hm. cbn [String.length]. destruct n as [|n].
    + destruct (String.prefix p (String c s)); [injection Hm as <-; lia|].
      destruct (index 0 p s) as [k|] eqn:E; [|discriminate].
      injection Hm as <-. specialize (IH _ _ E). lia.
    + destruct (index n p s) as [k|] eqn:E; [|discriminate].
      injection Hm as <-. specialize (IH _ _ E). lia.
Qed.

Lemma find_dash_range (s : string) (pos : Z) :
  -1 <= find_dash s pos < Z.of_nat (String.length s) \/ find_dash s pos = -1.
Proof.
  unfold find_dash. destruct (index (Z.to_nat pos) "-" s) as [m|] eqn:E; [|right; reflexivity].
  left. apply index_below_length in E; [lia | discriminate].
Qed.

Lemma substr_returns (s : string) (pos len : Z) :
  0 <= pos <= Z.of_nat (String.length s) -> exists x, substr s pos len = Ok x.
Proof.
  intros Hpos. unfold substr.
  destruct (Z.ltb_spec pos 0); [lia|].
  destruct (Z.ltb_spec (Z.of_nat (String.length s)) pos); [lia|]. simpl. eauto.
Qed.

Lemma requirementsOf_range (suite benchmark : string) (l : list Z) :
  requirementsOf suite benchmark = Ok l -> Forall (fun r => 0 <= r <= 16) l.
Proof.
  unfold requirementsOf, from2To16, upTo16, powersOfTwo.
  destruct (suite =? "parsec")%string.
  - intros [= <-].
    repeat (destruct (benchmark =? _)%string; [repeat constructor; lia|]).
    constructor.
  - destruct (suite =? "splash2")%string; [|discriminate].
    intros [= <-].
    repeat (destruct (benchmark =? _)%string; [repeat constructor; lia|]).
    constructor.
Qed.

(** X15: Whatever the descriptor, [coreRequirementTranslation] reads no string
    and no table outside its bounds: it returns a number of cores from 0
    to 16, or it ends the program with one of its three messages
    (parallelism below 1, unknown suite, no profile). *)
Theorem coreRequirementTranslation_outcomes (compositionString : string) :
  (exists r, coreRequirementTranslation compositionString = Ok r /\ 0 <= r <= 16) \/
  coreRequirementTranslation compositionString = Exit ParallelismBelowOne \/
  coreRequirementTranslation compositionString = Exit UnknownSuite \/
  coreRequirementTranslation compositionString = Exit ProfileMissing.
Proof.
  unfold coreRequirementTranslation.
  set (del1 := find_dash compositionString 0).
  set (del2 := find_dash compositionString (del1 + 1)).
  set (del3 := find_dash compositionString (del2 + 1)).
  pose proof (find_dash_range compositionString 0) as H1. fold del1 in H1.
  pose proof (find_dash_range compositionString (del1 + 1)) as H2. fold del2 in H2.
  pose proof (find_dash_range compositionString (del2 + 1)) as H3. fold del3 in H3.
  cbv zeta.
  destruct (substr_returns compositionString 0 del1 ltac:(lia)) as [suite ->].
  destruct (substr_returns compositionString (del1 + 1) (del2 - del1 - 1) ltac:(lia))
    as [benchmark ->].
  destruct (substr_returns compositionString (del2 + 1) (del3 - del2 - 1) ltac:(lia))
    as [input ->].
  destruct (substr_returns compositionString (del3 + 1)
              (Z.of_nat (String.length compositionString) - del3 - 1) ltac:(lia))
    as [digits ->].
  cbn [mbind outcome_bind].
  destruct (Z.ltb_spec (atoi digits) 1) as [|Hpar]; [right; left; reflexivity|].
  destruct (requirementsOf suite benchmark) as [requirements|e|] eqn:Hreq;
    cbn [mbind outcome_bind].
  - destruct (Z.ltb_spec (atoi digits - 1) (Z.of_nat (length requirements))) as [Hlt|];
      [|right; right; right; reflexivity].
    left. destruct (at_index_in_range requirements (atoi digits - 1) ltac:(lia))
      as [r Hr].
    exists r. split; [exact Hr|].
    apply requirementsOf_range in Hreq. rewrite Forall_forall in Hreq.
    apply Hreq. apply at_index_Ok in Hr as [_ Hl]. apply list_elem_of_lookup. eauto.
  - right. right. left. f_equal.
    unfold requirementsOf in Hreq.
    destruct (suite =? "parsec")%string; [discriminate|].
    destruct (suite =? "splash2")%string; [discriminate|]. congruence.
  - unfold requirementsOf in Hreq.
    destruct (suite =? "parsec")%string; [discriminate|].
    destruct (suite =? "splash2")%string; discriminate.
Qed.

(** ** The task list of the constructor *)

Lemma substring_whole (s : string) (m : nat) :
  (String.length s <= m)%nat -> substring 0 m s = s.
Proof.
  revert m. induction s as [|c s IH]; intros m Hm.
  - destruct m; reflexivity.
  - destruct m as [|m]; simpl in Hm; [lia|]. simpl. rewrite IH by lia. reflexivity.
Qed.

Lemma initTasks_step (name rest : string) (n : nat) (taskIterator : Z) :
  index 0 "+" name = None ->
  initTasks (name ++ "+" ++ rest) (S n) taskIterator
  = (requirement ← coreRequirementTranslation name;
     tasks ← initTasks rest n (taskIterator + 1);
     Ok (newTask taskIterator name requirement :: tasks)).
Proof.
  intros Hno. cbn [initTasks].
  change (name ++ "+" ++ rest)%string with (name ++ String "+" rest)%string.
  rewrite (index_first_char "+" name rest Hno).
  rewrite substring_prefix.
  replace (S (String.length name)) with (String.length name + 1)%nat by lia.
  rewrite substring_skip. cbn [substring].
  rewrite substring_whole; [reflexivity|].
  rewrite string_length_append. simpl. lia.
Qed.

Lemma initTasks_last (name : string) (n : nat) (taskIterator : Z) :
  index 0 "+" name = None ->
  initTasks name (S n) taskIterator
  = (requirement ← coreRequirementTranslation name;
     tasks ← initTasks name n (taskIterator + 1);
     Ok (newTask taskIterator name requirement :: tasks)).
Proof. intros Hno. cbn [initTasks]. rewrite Hno. reflexivity. Qed.

(** X16: The task list built from the "+"-separated descriptors: task k gets
    the k-th descriptor, and every task beyond the last descriptor gets
    the last one again; each task is new, with the core requirement of
    its descriptor. *)
Theorem initTasks_names (n : nat) :
  forall (names : list string) (last : string) (taskIterator : Z) (tasks : list openTask),
    Forall (fun name => index 0 "+" name = None) names -> index 0 "+" last = None ->
    initTasks (joinBenchmarks names last) n taskIterator = Ok tasks ->
    length tasks = n /\
    forall (k : nat) (t : openTask), tasks !! k = Some t ->
      exists requirement,
        coreRequirementTranslation (nth k names last) = Ok requirement /\
        t = newTask (taskIterator + Z.of_nat k) (nth k names last) requirement.
Proof.
  induction n as [|n IH]; intros names last taskIterator tasks Hnames Hlast Hrun.
  - simpl in Hrun. injection Hrun as <-. split; [reflexivity|].
    intros k t Hk. rewrite lookup_nil in Hk. discriminate.
  - assert (Hstep : exists name names',
               index 0 "+" name = None /\
               Forall (fun name => index 0 "+" name = None) names' /\
               nth 0 names last = name /\
               (forall k, nth (S k) names last = nth k names' last) /\
               initTasks (joinBenchmarks names last) (S n) taskIterator
               = (requirement ← coreRequirementTranslation name;
                  tasks ← initTasks (joinBenchmarks names' last) n (taskIterator + 1);
                  Ok (newTask taskIterator name requirement :: tasks))).
    { destruct names as [|name names'].
      - exists last, []. split; [exact Hlast|]. split; [constructor|].
        split; [reflexivity|]. split; [intros [|k]; reflexivity|].
        apply initTasks_last. exact Hlast.
      - apply Forall_cons in Hnames as [Hname Hnames'].
        exists name, names'. split; [exact Hname|]. split; [exact Hnames'|].
        split; [reflexivity|]. split; [reflexivity|].
        apply initTasks_step. exact Hname. }
    destruct Hstep as (name & names' & Hname & Hnames' & Hzero & Hsucc & Heq).
    rewrite Heq in Hrun.
    apply bind_Ok in Hrun as (requirement & Hreq & Hrun).
    apply bind_Ok in Hrun as (rest & Hrest & Hrun). injection Hrun as <-.
    destruct (IH names' last (taskIterator + 1) rest Hnames' Hlast Hrest) as [Hlen Hall].
    split; [simpl; lia|].
    intros [|k] t Hk; simpl in Hk.
    + injection Hk as <-. exists requirement. rewrite Hzero, Z.add_0_r. auto.
    + destruct (Hall k t Hk) as (r & Hr & ->).
      exists r. rewrite Hsucc. split; [exact Hr|]. f_equal. lia.
Qed.

Lemma initTasks_names_witness :
  exists tasks,
    initTasks (joinBenchmarks ["splash2-fft-small-2"%string] "parsec-dedup-simsmall-1") 3 0
    = Ok tasks /\
    length tasks = 3%nat /\
    forall (k : nat) (t : openTask), tasks !! k = Some t ->
      exists requirement,
        coreRequirementTranslation
          (nth k ["splash2-fft-small-2"%string] "parsec-dedup-simsmall-1"%string)
        = Ok requirement /\
        t = newTask (0 + Z.of_nat k)
              (nth k ["splash2-fft-small-2"%string] "parsec-dedup-simsmall-1"%string) requirement.
Proof.
  exists [newTask 0 "splash2-fft-small-2" 2; newTask 1 "parsec-dedup-simsmall-1" 4;
          newTask 2 "parsec-dedup-simsmall-1" 4].
  split; [vm_compute; reflexivity|].
  apply (initTasks_names 3 ["splash2-fft-small-2"%string] "parsec-dedup-simsmall-1" 0).
  - repeat constructor.
  - reflexivity.
  - vm_compute. reflexivity.
Defined.

(** ** The preferred cores of the mapping policy *)



(** ** What the constructor builds *)









(** ** Core numbers and grid coordinates *)

Lemma gridSetup_Ok (N rows cols : Z) :
  gridSetup N = Ok (rows, cols) -> 1 <= rows /\ 1 <= cols /\ rows * cols = N.
Proof.
  unfold gridSetup. intros Hgrid. apply bind_Ok in Hgrid as (r & Hrows & Hgrid).
  destruct (Z.eqb_spec (r * (N ÷ r)) N) as [Heq|]; [|discriminate].
  injection Hgrid as <- <-.
  assert (HN : 1 <= N).
  { destruct (Z_lt_le_dec N 1) as [Hsmall|]; [|assumption].
    replace (Z.sqrt N) with 0 in Hrows; [discriminate|].
    symmetry. destruct (Z.eq_dec N 0) as [->|]; [reflexivity | apply Z.sqrt_neg; lia]. }
  assert (Hfuel : (1 <= Z.to_nat (Z.sqrt N))%nat).
  { pose proof (Z.sqrt_le_mono 1 N HN) as Hs. change (Z.sqrt 1) with 1 in Hs. lia. }
  destruct (shrinkRows_spec N _ HN Hfuel) as (k & Hk & Hb & _).
  assert (k = r) as -> by congruence.
  split; [lia|]. split; [nia | exact Heq].
Qed.

(** X19: On the grid the constructor sets up for N cores, [getCoreNb] numbers
    the cells row by row: it is a one-to-one correspondence between the
    coordinates on the grid and the core numbers 0 .. N-1, and it ends
    the program exactly for coordinates off the grid. *)
Theorem getCoreNb_numbers_the_grid (N rows cols : Z) :
  gridSetup N = Ok (rows, cols) ->
  (forall y x k, getCoreNb rows cols y x = Some k ->
     0 <= k < N /\ y = k / cols /\ x = k mod cols) /\
  (forall k, 0 <= k < N -> getCoreNb rows cols (k / cols) (k mod cols) = Some k) /\
  (forall y x, getCoreNb rows cols y x = None <->
               ~ (0 <= y < rows /\ 0 <= x < cols)).
Proof.
  intros Hgrid. apply gridSetup_Ok in Hgrid as (Hrows & Hcols & Hcells).
  split; [|split].
  - intros y x k. unfold getCoreNb.
    destruct (Z.ltb_spec y 0); [discriminate|].
    destruct (Z.geb_spec y rows); [discriminate|].
    destruct (Z.ltb_spec x 0); [discriminate|].
    destruct (Z.geb_spec x cols); [discriminate|]. simpl.
    intros [= <-]. split; [nia|]. split.
    + rewrite Z.div_add_l by lia. rewrite Z.div_small by lia. lia.
    + rewrite Z.add_comm, Z.mod_add by lia. rewrite Z.mod_small by lia. reflexivity.
  - intros k Hk. unfold getCoreNb.
    pose proof (Z.mod_pos_bound k cols ltac:(lia)) as Hmod.
    pose proof (Z.div_pos k cols ltac:(lia) ltac:(lia)) as Hdiv.
    assert (Hlt : k / cols < rows) by (apply Z.div_lt_upper_bound; lia).
    destruct (Z.ltb_spec (k / cols) 0); [lia|].
    destruct (Z.geb_spec (k / cols) rows); [lia|].
    destruct (Z.ltb_spec (k mod cols) 0); [lia|].
    destruct (Z.geb_spec (k mod cols) cols); [lia|]. simpl.
    f_equal. pose proof (Z.div_mod k cols ltac:(lia)). lia.
  - intros y x. unfold getCoreNb.
    destruct (Z.ltb_spec y 0); [simpl; split; [lia | reflexivity]|].
    destruct (Z.geb_spec y rows); [simpl; split; [lia | reflexivity]|].
    destruct (Z.ltb_spec x 0); [simpl; split; [lia | reflexivity]|].
    destruct (Z.geb_spec x cols); simpl; [split; [lia | reflexivity]|].
    split; [discriminate | lia].
Qed.

Lemma getCoreNb_numbers_the_grid_witness :
  gridSetup 12 = Ok (3, 4) /\
  getCoreNb 3 4 (7 / 4) (7 mod 4) = Some 7 /\ getCoreNb 3 4 3 0 = None.
Proof.
  destruct (getCoreNb_numbers_the_grid 12 3 4 grid_12) as (_ & Hnumber & Hoff).
  split; [exact grid_12|]. split; [apply Hnumber; lia|].
  apply Hoff. lia.
Defined.

(** ** The next core in round-robin order *)

Lemma advanceCore_in_bounds (interleaving N core_id : Z) :
  1 <= interleaving <= N -> 0 <= core_id < N ->
  exists c, advanceCore interleaving N core_id = Ok c /\ 0 <= c < N.
Proof.
  intros HI Hc. unfold advanceCore. cbv zeta.
  destruct (Z.geb_spec (core_id + interleaving) N) as [Hwrap|Hin].
  - destruct (Z.eqb_spec N 0); [lia|]. destruct (Z.eqb_spec interleaving 0); [lia|].
    simpl. eexists. split; [reflexivity|].
    pose proof (Z.rem_bound_pos (core_id + interleaving) N ltac:(lia) ltac:(lia)) as H1.
    pose proof (Z.rem_bound_pos (Z.rem (core_id + interleaving) N + 1) interleaving
                  ltac:(lia) ltac:(lia)) as H2.
    lia.
  - exists (core_id + interleaving). split; [reflexivity | lia].
Qed.

(** X20: With an interleaving between 1 and the number of cores and a start
    inside the mask, [getNextCore] never reads the mask outside its
    bounds: as long as it runs it stays on core numbers below the number
    of cores, and what it returns is a core the mask allows. *)
Theorem getNextCore_in_bounds (fuel : nat) (m_core_mask : list bool)
    (interleaving core_id : Z) :
  1 <= interleaving <= Z.of_nat (length m_core_mask) ->
  0 <= core_id < Z.of_nat (length m_core_mask) ->
  getNextCore fuel m_core_mask interleaving (Z.of_nat (length m_core_mask)) core_id = None \/
  exists c,
    getNextCore fuel m_core_mask interleaving (Z.of_nat (length m_core_mask)) core_id
    = Some (Ok c) /\
    0 <= c < Z.of_nat (length m_core_mask) /\ m_core_mask !! Z.to_nat c = Some true.
Proof.
  intros HI. revert core_id. induction fuel as [|fuel IH]; intros core_id Hc.
  - left. reflexivity.
  - cbn [getNextCore].
    destruct (advanceCore_in_bounds interleaving _ core_id HI Hc) as (c & -> & Hrange).
    destruct (at_index_in_range m_core_mask c Hrange) as [b Hb]. rewrite Hb.
    destruct b; [|apply IH; exact Hrange].
    right. exists c. split; [reflexivity|]. split; [exact Hrange|].
    apply at_index_Ok in Hb as [_ Hl]. exact Hl.
Qed.

Lemma getNextCore_in_bounds_witness :
  getNextCore 4 [true; false; false; true] 2 (Z.of_nat 4) 3 = None \/
  exists c,
    getNextCore 4 [true; false; false; true] 2 (Z.of_nat 4) 3 = Some (Ok c) /\
    0 <= c < Z.of_nat 4 /\ [true; false; false; true] !! Z.to_nat c = Some true.
Proof.
  apply (getNextCore_in_bounds 4 [true; false; false; true] 2 3); simpl; lia.
Defined.

Lemma advanceCore_one (N core_id : Z) :
  0 <= core_id < N -> advanceCore 1 N core_id = Ok ((core_id + 1) mod N).
Proof.
  intros Hc. unfold advanceCore. cbv zeta.
  destruct (Z.geb_spec (core_id + 1) N) as [Hwrap|Hin].
  - destruct (Z.eqb_spec N 0); [lia|]. simpl.
    assert (core_id + 1 = N) as -> by lia.
    rewrite Z.rem_1_r, Z.mod_same by lia. reflexivity.
  - rewrite Z.mod_small by lia. reflexivity.
Qed.

Lemma getNextCore_scan (m_core_mask : list bool) (fuel : nat) :
  let N := Z.of_nat (length m_core_mask) in
  forall core_id, 0 <= core_id < N ->
    (getNextCore fuel m_core_mask 1 N core_id = None /\
     forall d, 1 <= d <= Z.of_nat fuel ->
               m_core_mask !! Z.to_nat ((core_id + d) mod N) = Some false) \/
    (exists d, 1 <= d <= Z.of_nat fuel /\
       m_core_mask !! Z.to_nat ((core_id + d) mod N) = Some true /\
       (forall d', 1 <= d' < d ->
                   m_core_mask !! Z.to_nat ((core_id + d') mod N) = Some false) /\
       forall fuel' : nat, d <= Z.of_nat fuel' ->
         getNextCore fuel' m_core_mask 1 N core_id = Some (Ok ((core_id + d) mod N))).
Proof.
  intros N. induction fuel as [|fuel IH]; intros core_id Hc.
  - left. split; [reflexivity | intros d Hd; lia].
  - pose proof (Z.mod_pos_bound (core_id + 1) N ltac:(lia)) as Hnext.
    destruct (at_index_in_range m_core_mask ((core_id + 1) mod N) Hnext) as [b Hb].
    pose proof Hb as Hl. apply at_index_Ok in Hl as [_ Hl].
    assert (Hshift : forall d, ((core_id + 1) mod N + d) mod N = (core_id + (1 + d)) mod N).
    { intros d. rewrite Z.add_mod_idemp_l by lia. f_equal. lia. }
    destruct b.
    + right. exists 1. split; [lia|]. split; [exact Hl|]. split; [intros d' Hd'; lia|].
      intros [|fuel'] Hfuel; [lia|]. cbn [getNextCore].
      fold N. rewrite (advanceCore_one N core_id Hc), Hb. reflexivity.
    + destruct (IH ((core_id + 1) mod N) Hnext) as [[Hnone Hall]|(d & Hd & Htrue & Hmin & Hfuel)].
      * left. split.
        -- cbn [getNextCore]. fold N. rewrite (advanceCore_one N core_id Hc), Hb.
           exact Hnone.
        -- intros d Hd. destruct (Z.eq_dec d 1) as [->|Hne]; [exact Hl|].
           replace d with (1 + (d - 1)) by lia. rewrite <- Hshift. apply Hall. lia.
      * right. exists (1 + d). split; [lia|]. rewrite <- Hshift.
        split; [exact Htrue|]. split.
        -- intros d' Hd'. destruct (Z.eq_dec d' 1) as [->|Hne]; [exact Hl|].
           replace d' with (1 + (d' - 1)) by lia. rewrite <- Hshift. apply Hmin. lia.
        -- intros [|fuel'] Hfuel'; [lia|]. cbn [getNextCore]. fold N.
           rewrite (advanceCore_one N core_id Hc), Hb. apply Hfuel. lia.
Qed.

(** X21: With interleaving 1, [getNextCore] scans the cores behind [core_id] in
    cyclic order.  If the mask allows some core, it returns, after at
    most one pass per core, the first allowed core of that order (which
    is [core_id] itself when no other is allowed); if the mask allows no
    core, the loop never ends. *)
Theorem getNextCore_round_robin (m_core_mask : list bool) (N core_id : Z) :
  N = Z.of_nat (length m_core_mask) ->
  0 <= core_id < N ->
  ((exists i : nat, m_core_mask !! i = Some true) ->
   exists d, 1 <= d <= N /\
     m_core_mask !! Z.to_nat ((core_id + d) mod N) = Some true /\
     (forall d', 1 <= d' < d ->
                 m_core_mask !! Z.to_nat ((core_id + d') mod N) = Some false) /\
     forall fuel : nat, d <= Z.of_nat fuel ->
       getNextCore fuel m_core_mask 1 N core_id = Some (Ok ((core_id + d) mod N))) /\
  ((forall (i : nat) (b : bool), m_core_mask !! i = Some b -> b = false) ->
   forall fuel : nat, getNextCore fuel m_core_mask 1 N core_id = None).
Proof.
  intros HN Hc. split.
  - intros [i Hi].
    destruct (getNextCore_scan m_core_mask (length m_core_mask) core_id
                ltac:(rewrite <- HN; exact Hc))
      as [[_ Hall]|(d & Hd & Hrest)];
      [|exists d; rewrite HN; split; [exact Hd | exact Hrest]].
    exfalso. apply lookup_lt_Some in Hi as Hlt.
    specialize (Hall ((Z.of_nat i - core_id - 1) mod N + 1)).
    pose proof (Z.mod_pos_bound (Z.of_nat i - core_id - 1) N ltac:(lia)) as Hb.
    rewrite <- HN in Hall. specialize (Hall ltac:(lia)).
    replace ((core_id + ((Z.of_nat i - core_id - 1) mod N + 1)) mod N)
      with (Z.of_nat i) in Hall.
    + rewrite Nat2Z.id in Hall. congruence.
    + rewrite Z.add_assoc, (Z.add_comm core_id), <- Z.add_assoc.
      rewrite Z.add_mod_idemp_l by lia.
      replace (Z.of_nat i - core_id - 1 + (core_id + 1)) with (Z.of_nat i) by lia.
      rewrite Z.mod_small by lia. reflexivity.
  - intros Hnone fuel.
    destruct (getNextCore_scan m_core_mask fuel core_id ltac:(rewrite <- HN; exact Hc))
      as [[Hn _]|(d & Hd & Htrue & _)]; [rewrite HN; exact Hn|].
    specialize (Hnone _ _ Htrue). discriminate.
Qed.

Lemma getNextCore_round_robin_witness :
  exists d, 1 <= d <= 4 /\
    [true; false; false; true] !! Z.to_nat ((3 + d) mod 4) = Some true /\
    (forall d', 1 <= d' < d ->
       [true; false; false; true] !! Z.to_nat ((3 + d') mod 4) = Some false) /\
    forall fuel : nat, d <= Z.of_nat fuel ->
      getNextCore fuel [true; false; false; true] 1 4 3 = Some (Ok ((3 + d) mod 4)).
Proof.
  destruct (getNextCore_round_robin [true; false; false; true] 4 3) as [Hfound _].
  - reflexivity.
  - lia.
  - apply Hfound. exists 0%nat. reflexivity.
Defined.

(** ** Thread creation and exit *)

Section Threads.
Context `{MappingPolicy} `{ThreadManager}.

(** X22: The queuing policy is not checked by the constructor; an unknown one
    ends the program at the first [schedule] of a task that has arrived,
    while a task that has not arrived is still turned away as usual. *)
Theorem unknown_queue_policy_exits (s : SchedulerOpen) (taskID : Z)
    (isInitialCall : bool) (time : Z) (task : openTask) :
  queuePolicy s <> "FIFO"%string ->
  at_index (openTasks s) taskID = Ok task ->
  (taskArrivalTime task <= time ->
   schedule s taskID isInitialCall time = Exit UnknownQueuingPolicy) /\
  (time < taskArrivalTime task ->
   schedule s taskID isInitialCall time = Ok (false, s)).
Proof.
  intros Hpolicy Htask. unfold schedule. rewrite Htask. cbn [mbind outcome_bind].
  split; intros Htime.
  - destruct (Z.gtb_spec (taskArrivalTime task) time); [lia|].
    unfold taskFrontOfQueue. cbn [queuePolicy updateTask withTasks].
    destruct (String.eqb_spec (queuePolicy s) "FIFO"); [contradiction | reflexivity].
  - destruct (Z.gtb_spec (taskArrivalTime task) time); [reflexivity | lia].
Qed.

(** X23: When [threadCreate] returns for thread 0, task 0 is Active and in no
    other phase of waiting, started at the current time and not before
    its arrival, and the core returned is the one the base class found. *)
Theorem threadCreate_zero_starts_task (s r : SchedulerOpen) (time free_core_id core : Z) :
  threadCreate s 0 time free_core_id = Ok (core, r) ->
  core = free_core_id /\
  exists t, at_index (openTasks r) 0 = Ok t /\
    active t = true /\ waitingInQueue t = false /\ waitingToSchedule t = false /\
    taskStartTime t = time /\ taskArrivalTime t <= time.
Proof.
  unfold threadCreate. change (0 =? 0) with true. cbv iota. intros Hrun.
  apply bind_Ok in Hrun as (s1 & Hs1 & Hrun).
  apply bind_Ok in Hs1 as ([b s'] & Hs & Hs1).
  destruct b; [|discriminate]. injection Hs1 as <-.
  assert (Hres : core = free_core_id /\ r = snd (setAffinity s' 0)).
  { destruct (Z.eqb_spec free_core_id INVALID_CORE_ID) as [->|Hne]; simpl in Hrun.
    - destruct (0 >=? numberOfTasks _); [discriminate|]. injection Hrun as <- <-. auto.
    - injection Hrun as <- <-. auto. }
  destruct Hres as [-> ->]. split; [reflexivity|].
  apply schedule_cases in Hs as (task & Htask & Hcases).
  destruct Hcases as [(_ & Hb & _)|[(_ & Hb & _)|(Hle & _ & _ & _ & cores & _ & _ & ->)]];
    try discriminate.
  exists (markStarted (putIntoQueue task) time).
  split; [|simpl; auto].
  apply at_index_Ok. split; [lia|].
  match goal with
  | |- openTasks (snd (setAffinity ?x 0)) !! _ = _ =>
      change (snd (setAffinity x 0)) with (attach false 0 x)
  end.
  rewrite attach_tasks. cbn [openTasks updateTask withTasks].
  rewrite list_lookup_alter_eq, attach_tasks. cbn [openTasks updateTask withTasks withCores].
  rewrite list_lookup_alter_eq.
  apply at_index_Ok in Htask as [_ ->]. reflexivity.
Qed.

Lemma detach_attached (thread_id : Z) (c : systemCore) :
  assignedThreadID c = -1 ->
  detachThread thread_id (setAssignedThreadID c thread_id) = detachThread thread_id c.
Proof.
  intros Hfree. unfold detachThread. destruct c as [id task thread]. simpl in *. subst.
  rewrite Z.eqb_refl. destruct (-1 =? thread_id); reflexivity.
Qed.

Lemma detach_after_setAffinity (s : SchedulerOpen) (thread_id : Z) :
  detachThread thread_id <$> systemCores (snd (setAffinity s thread_id))
  = detachThread thread_id <$> systemCores s.
Proof.
  unfold setAffinity.
  set (found := firstIndex _ (systemCores s)).
  destruct (Z.eqb_spec found (-1)) as [|Hfound]; [reflexivity|]. cbn [snd systemCores withCores].
  destruct (firstIndex_found _ (systemCores s) found eq_refl Hfound) as (c & Hc & Hp & _).
  apply andb_true_iff in Hp as [_ Hthread]. apply Z.eqb_eq in Hthread.
  apply at_index_Ok in Hc as [_ Hc].
  apply list_eq. intros i. rewrite !list_lookup_fmap.
  destruct (decide (Z.to_nat found = i)) as [<-|Hne].
  - rewrite list_lookup_alter_eq, Hc. simpl. rewrite detach_attached by exact Hthread.
    reflexivity.
  - rewrite list_lookup_alter_ne by exact Hne. reflexivity.
Qed.

(** X24: Attaching a thread to a core and then letting it exit is the same as
    letting it exit at once: [threadExit] takes the thread off every
    core, and [setAffinity] changes nothing else. *)
Theorem attach_then_exit (s : SchedulerOpen) (thread_id time : Z) :
  threadExit (snd (setAffinity s thread_id)) thread_id time = threadExit s thread_id time.
Proof.
  assert (Hsame :
    withCores (snd (setAffinity s thread_id))
      (detachThread thread_id <$> systemCores (snd (setAffinity s thread_id)))
    = withCores s (detachThread thread_id <$> systemCores s)).
  { rewrite detach_after_setAffinity. unfold setAffinity.
    destruct (_ =? -1); reflexivity. }
  unfold threadExit. rewrite Hsame. reflexivity.
Qed.

End Threads.

Lemma unknown_queue_policy_exits_witness :
  @schedule firstFour (simpleHost 1 0)
    (mkSched [true] 1000 "LIFO" 1 [newTask 0 "splash2-fft-small-1" 1] [newCore 0])
    0 true 5 = Exit UnknownQueuingPolicy.
Proof.
  apply (@unknown_queue_policy_exits firstFour (simpleHost 1 0)
           (mkSched [true] 1000 "LIFO" 1 [newTask 0 "splash2-fft-small-1" 1] [newCore 0])
           0 true 5 (newTask 0 "splash2-fft-small-1" 1)).
  - discriminate.
  - reflexivity.
  - simpl. lia.
Defined.

Lemma threadCreate_zero_starts_task_witness :
  @threadCreate firstFour (simpleHost 1 0) oneTaskFourCores 0 0 0 = Ok (0, oneTaskStarted) /\
  exists t, at_index (openTasks oneTaskStarted) 0 = Ok t /\
    active t = true /\ waitingInQueue t = false /\ waitingToSchedule t = false /\
    taskStartTime t = 0 /\ taskArrivalTime t <= 0.
Proof.
  assert (E : @threadCreate firstFour (simpleHost 1 0) oneTaskFourCores 0 0 0
              = Ok (0, oneTaskStarted)) by (vm_compute; reflexivity).
  split; [exact E|].
  exact (proj2 (@threadCreate_zero_starts_task firstFour (simpleHost 1 0)
                  oneTaskFourCores oneTaskStarted 0 0 0 E)).
Defined.

(** ** Printed times *)

Lemma digitChar_spec (d : Z) :
  0 <= d <= 9 ->
  isDigit (digitChar d) = true /\ Z.of_nat (nat_of_ascii (digitChar d)) - 48 = d /\
  Ascii.eqb (digitChar d) "." = false /\
  forall r, decimalValue (String (digitChar d) r)
            = readDigits (String (digitChar d) r) 0.
Proof.
  intros Hd.
  assert (d = 0 \/ d = 1 \/ d = 2 \/ d = 3 \/ d = 4 \/ d = 5 \/ d = 6 \/ d = 7
          \/ d = 8 \/ d = 9) as Hcases by lia.
  repeat (destruct Hcases as [->|Hcases]); try subst d;
    (split; [reflexivity|]; split; [reflexivity|]; split; [reflexivity|];
     intros r; reflexivity).
Qed.

Lemma readDigits_digit (d : Z) (r : string) (acc : Z) :
  0 <= d <= 9 -> readDigits (String (digitChar d) r) acc = readDigits r (10 * acc + d).
Proof.
  intros Hd. destruct (digitChar_spec d Hd) as (Hdigit & Hval & _).
  cbn [readDigits]. rewrite Hdigit, Hval. reflexivity.
Qed.

Lemma digitsOf_append (fuel : nat) :
  forall (n : Z) (tail rest : string),
    (digitsOf fuel n tail ++ rest)%string = digitsOf fuel n (tail ++ rest)%string.
Proof.
  induction fuel as [|fuel IH]; intros n tail rest; cbn [digitsOf]; [reflexivity|].
  destruct (n <? 10); [reflexivity|]. rewrite IH. reflexivity.
Qed.

Lemma digitsOf_value (fuel : nat) :
  forall (n : Z) (tail : string),
    0 <= n < 10 ^ Z.of_nat fuel ->
    readDigits (digitsOf fuel n tail) 0 = readDigits tail n.
Proof.
  induction fuel as [|fuel IH]; intros n tail Hn.
  - simpl in Hn. assert (n = 0) as -> by lia. reflexivity.
  - cbn [digitsOf].
    pose proof (Z.mod_pos_bound n 10 ltac:(lia)) as Hmod.
    pose proof (Z.div_mod n 10 ltac:(lia)) as Hdm.
    destruct (Z.ltb_spec n 10) as [Hsmall|Hbig].
    + rewrite readDigits_digit by lia. rewrite Z.mod_small by lia. reflexivity.
    + rewrite IH.
      * rewrite readDigits_digit by lia. f_equal. lia.
      * split; [apply Z.div_pos; lia|].
        apply Z.div_lt_upper_bound; [lia|].
        rewrite Nat2Z.inj_succ, Z.pow_succ_r in Hn by lia. lia.
Qed.

Lemma digitsOf_no_dots (fuel : nat) :
  forall (n : Z) (tail : string),
    withoutDots (digitsOf fuel n tail) = digitsOf fuel n (withoutDots tail).
Proof.
  induction fuel as [|fuel IH]; intros n tail; cbn [digitsOf]; [reflexivity|].
  pose proof (Z.mod_pos_bound n 10 ltac:(lia)) as Hmod.
  destruct (digitChar_spec (n mod 10) ltac:(lia)) as (_ & _ & Hdot & _).
  destruct (n <? 10).
  - cbn [withoutDots]. rewrite Hdot. reflexivity.
  - rewrite IH. cbn [withoutDots]. rewrite Hdot. reflexivity.
Qed.

Lemma digitsOf_starts_with_digit (fuel : nat) :
  forall (n : Z) (tail : string),
    exists d r, 0 <= d <= 9 /\ digitsOf (S fuel) n tail = String (digitChar d) r.
Proof.
  induction fuel as [|fuel IH]; intros n tail.
  - pose proof (Z.mod_pos_bound n 10 ltac:(lia)) as Hmod.
    exists (n mod 10), tail. split; [lia|]. cbn [digitsOf]. destruct (n <? 10); reflexivity.
  - pose proof (Z.mod_pos_bound n 10 ltac:(lia)) as Hmod.
    change (digitsOf (S (S fuel)) n tail)
      with (if n <? 10 then String (digitChar (n mod 10)) tail
            else digitsOf (S fuel) (n / 10) (String (digitChar (n mod 10)) tail)).
    destruct (n <? 10); [exists (n mod 10), tail; split; [lia | reflexivity]|].
    apply IH.
Qed.

Lemma withoutDots_append (a b : string) :
  withoutDots (a ++ b) = (withoutDots a ++ withoutDots b)%string.
Proof.
  induction a as [|c a IH]; [reflexivity|]. simpl.
  destruct (Ascii.eqb c "."); [exact IH | simpl; rewrite IH; reflexivity].
Qed.

Lemma padThree_digits (curr : Z) :
  0 <= curr < 1000 ->
  padThree curr
  = String (digitChar (curr / 100))
      (String (digitChar (curr / 10 mod 10)) (String (digitChar (curr mod 10)) "")).
Proof.
  intros Hc. unfold padThree, showLong.
  destruct (Z.ltb_spec curr 0) as [|_]; [lia|].
  change (digitsOf 19 curr "")
    with (if curr <? 10 then String (digitChar (curr mod 10)) ""
          else if curr / 10 <? 10
               then String (digitChar (curr / 10 mod 10)) (String (digitChar (curr mod 10)) "")
               else if curr / 10 / 10 <? 10
                    then String (digitChar (curr / 10 / 10 mod 10))
                           (String (digitChar (curr / 10 mod 10))
                              (String (digitChar (curr mod 10)) ""))
                    else digitsOf 16 (curr / 10 / 10 / 10)
                           (String (digitChar (curr / 10 / 10 mod 10))
                              (String (digitChar (curr / 10 mod 10))
                                 (String (digitChar (curr mod 10)) "")))).
  destruct (Z.ltb_spec curr 10) as [H1|H1].
  - cbn [String.length]. rewrite (Z.div_small curr 100) by lia.
    rewrite (Z.div_small curr 10) by lia. reflexivity.
  - assert (Hd10 : 1 <= curr / 10 < 100).
    { split; [apply Z.div_le_lower_bound; lia | apply Z.div_lt_upper_bound; lia]. }
    destruct (Z.ltb_spec (curr / 10) 10) as [H2|H2].
    + assert (Hlt : curr < 100) by (Z.to_euclidean_division_equations; lia).
      cbn [String.length]. rewrite (Z.div_small curr 100) by lia. reflexivity.
    + assert (Hd100 : curr / 10 / 10 = curr / 100) by (rewrite Z.div_div by lia; reflexivity).
      assert (Hr : 1 <= curr / 100 < 10) by (Z.to_euclidean_division_equations; lia).
      rewrite Hd100. destruct (Z.ltb_spec (curr / 100) 10) as [_|]; [|lia].
      cbn [String.length]. rewrite (Z.mod_small (curr / 100)) by lia. reflexivity.
Qed.

Lemma padThree_value (curr acc : Z) (rest : string) :
  0 <= curr < 1000 ->
  readDigits (withoutDots (padThree curr) ++ rest) acc = readDigits rest (1000 * acc + curr).
Proof.
  intros Hc. rewrite padThree_digits by exact Hc.
  assert (H100 : 0 <= curr / 100 <= 9).
  { split; [apply Z.div_pos; lia|].
    assert (curr / 100 < 10) by (apply Z.div_lt_upper_bound; lia). lia. }
  pose proof (Z.mod_pos_bound (curr / 10) 10 ltac:(lia)) as H10.
  pose proof (Z.mod_pos_bound curr 10 ltac:(lia)) as H1.
  destruct (digitChar_spec (curr / 100) H100) as (_ & _ & D1 & _).
  destruct (digitChar_spec (curr / 10 mod 10) ltac:(lia)) as (_ & _ & D2 & _).
  destruct (digitChar_spec (curr mod 10) ltac:(lia)) as (_ & _ & D3 & _).
  cbn [withoutDots]. rewrite D1, D2, D3. cbn [append].
  rewrite !readDigits_digit by lia. f_equal.
  pose proof (Z.div_mod curr 10 ltac:(lia)).
  pose proof (Z.div_mod (curr / 10) 10 ltac:(lia)).
  assert (curr / 10 / 10 = curr / 100) by (rewrite Z.div_div by lia; reflexivity).
  lia.
Qed.

Lemma showLong_value (l : Z) (rest : string) :
  0 <= l < 10 ^ 19 ->
  readDigits (withoutDots (showLong l) ++ rest) 0 = readDigits rest l /\
  exists d r, 0 <= d <= 9 /\ withoutDots (showLong l) = String (digitChar d) r.
Proof.
  intros Hl. unfold showLong. destruct (Z.ltb_spec l 0) as [|_]; [lia|].
  rewrite digitsOf_no_dots. cbn [withoutDots]. split.
  - rewrite digitsOf_append. apply digitsOf_value. exact Hl.
  - destruct (digitsOf_starts_with_digit 18 l "") as (d & r & Hd & E). eauto.
Qed.

Lemma formatLongGroups_value (fuel : nat) :
  forall (l : Z) (rest : string),
    0 <= l < 1000 ^ Z.of_nat (S fuel) -> l < 10 ^ 19 ->
    readDigits (withoutDots (formatLongGroups fuel l) ++ rest) 0 = readDigits rest l /\
    exists d r, 0 <= d <= 9 /\
                withoutDots (formatLongGroups fuel l) = String (digitChar d) r.
Proof.
  induction fuel as [|fuel IH]; intros l rest Hl Hlong.
  - cbn [formatLongGroups]. change (1000 ^ Z.of_nat 1) with 1000 in Hl.
    destruct (Z.ltb_spec l 1000) as [_|]; [|lia].
    apply showLong_value. lia.
  - cbn [formatLongGroups]. destruct (Z.ltb_spec l 1000) as [Hsmall|Hbig].
    { apply showLong_value. lia. }
    rewrite Z.quot_div_nonneg, Z.rem_mod_nonneg by lia.
    pose proof (Z.mod_pos_bound l 1000 ltac:(lia)) as Hmod.
    pose proof (Z.div_mod l 1000 ltac:(lia)) as Hdm.
    assert (Hq : 0 <= l / 1000 < 1000 ^ Z.of_nat (S fuel)).
    { split; [apply Z.div_pos; lia|]. apply Z.div_lt_upper_bound; [lia|].
      rewrite (Nat2Z.inj_succ (S fuel)), Z.pow_succ_r in Hl by lia. lia. }
    assert (Hq19 : l / 1000 < 10 ^ 19).
    { apply Z.div_lt_upper_bound; lia. }
    rewrite !withoutDots_append. change (withoutDots ".") with EmptyString.
    cbn [append]. rewrite string_append_assoc.
    destruct (IH (l / 1000) (withoutDots (padThree (l mod 1000)) ++ rest)%string Hq Hq19)
      as [Hval (d & r & Hd & Hstart)].
    split.
    + rewrite Hval, padThree_value by lia. f_equal. lia.
    + rewrite Hstart. exists d. eexists. split; [exact Hd | reflexivity].
Qed.

(** X25: [formatLong] keeps the number: for a nonnegative [long], the text
    read as a decimal number once the separating dots are taken out is
    the number again.  A negative number is below 1000 and is printed
    plainly, without separators. *)
Theorem formatLong_keeps_the_number (l : Z) :
  (0 <= l < 2 ^ 63 -> decimalValue (withoutDots (formatLong l)) = l) /\
  (l < 0 -> formatLong l = showLong l).
Proof.
  split.
  - intros Hl. unfold formatLong.
    destruct (formatLongGroups_value 6 l EmptyString) as [Hval (d & r & Hd & Hstart)];
      [simpl; lia | lia |].
    destruct (digitChar_spec d Hd) as (_ & _ & _ & Hatoi).
    rewrite Hstart, Hatoi, <- Hstart.
    assert (Hnil : forall s : string, (s ++ "")%string = s).
    { induction s as [|c s IH]; simpl; [|rewrite IH]; reflexivity. }
    rewrite <- (Hnil (withoutDots (formatLongGroups 6 l))). exact Hval.
  - intros Hneg. unfold formatLong. cbn [formatLongGroups].
    destruct (Z.ltb_spec l 1000); [reflexivity | lia].
Qed.

Lemma formatLong_keeps_the_number_witness :
  formatLong 1234567 = "1.234.567"%string /\
  decimalValue (withoutDots (formatLong 1234567)) = 1234567.
Proof.
  split; [vm_compute; reflexivity|].
  apply (proj1 (formatLong_keeps_the_number 1234567)). lia.
Defined.

(** ** The core mask *)

Section Mask.
Context `{MappingPolicy} `{ThreadManager}.

Lemma maskedFree_step (s s' : SchedulerOpen) :
  m_core_mask s' = m_core_mask s ->
  (forall (i : nat) (c' : systemCore), systemCores s' !! i = Some c' ->
     exists c, systemCores s !! i = Some c /\
       (assignedTaskID c' = assignedTaskID c \/ assignedTaskID c' = -1
        \/ m_core_mask s !! i = Some true)) ->
  maskedFree s -> maskedFree s'.
Proof.
  intros Hmask Hback Hinv i c' Hc' Hoff. rewrite Hmask in Hoff.
  destruct (Hback i c' Hc') as (c & Hc & [Hsame|[Hfree|Hon]]).
  - rewrite Hsame. exact (Hinv i c Hc Hoff).
  - exact Hfree.
  - contradiction.
Qed.

Lemma maskedFree_same (s s' : SchedulerOpen) :
  m_core_mask s' = m_core_mask s -> systemCores s' = systemCores s ->
  maskedFree s -> maskedFree s'.
Proof.
  intros Hmask Hcores. apply maskedFree_step; [exact Hmask|].
  intros i c' Hc'. exists c'. rewrite <- Hcores. auto.
Qed.

Lemma maskedFree_fmap (s : SchedulerOpen) (g : systemCore -> systemCore) :
  (forall c, assignedTaskID (g c) = assignedTaskID c \/ assignedTaskID (g c) = -1) ->
  maskedFree s -> maskedFree (withCores s (g <$> systemCores s)).
Proof.
  intros Hg. apply maskedFree_step; [reflexivity|].
  intros i c'. simpl. rewrite list_lookup_fmap.
  destruct (systemCores s !! i) as [c|]; [|discriminate]. simpl. intros [= <-].
  exists c. split; [reflexivity|]. destruct (Hg c); auto.
Qed.

Lemma setAffinity_maskedFree (s : SchedulerOpen) (thread_id : Z) :
  maskedFree s -> maskedFree (snd (setAffinity s thread_id)).
Proof.
  apply maskedFree_step.
  - unfold setAffinity. destruct (_ =? -1); reflexivity.
  - intros i c' Hc'.
    destruct (attach_cores false thread_id s i c' Hc') as (c & Hc & _ & Htask). eauto.
Qed.

Lemma schedule_maskedFree (s : SchedulerOpen) (taskID : Z) (isInitialCall : bool)
    (time : Z) (b : bool) (s' : SchedulerOpen) :
  policyAvailable -> schedule s taskID isInitialCall time = Ok (b, s') ->
  maskedFree s -> maskedFree s'.
Proof.
  intros Hpolicy Hs. apply maskedFree_step.
  - apply schedule_sameFrame in Hs as (Hmask & _). exact Hmask.
  - intros i c' Hc'.
    destruct (schedule_core_back s taskID isInitialCall time b s' Hpolicy Hs i c' Hc')
      as (c & Hc & _ & [Hsame|(_ & _ & Hon & _)]); eauto.
Qed.

Lemma scheduleFront_maskedFree (s : SchedulerOpen) (time : Z) (r : SchedulerOpen) :
  policyAvailable ->
  (front ← taskFrontOfQueue s; '(_, s') ← schedule s front false time; Ok s') = Ok r ->
  maskedFree s -> maskedFree r.
Proof.
  intros Hpolicy Hrun.
  apply bind_Ok in Hrun as (front & Hfront & Hrun).
  apply bind_Ok in Hrun as ([b s'] & Hs & Hrun). injection Hrun as <-.
  eapply schedule_maskedFree; eauto.
Qed.

Lemma prefetch_maskedFree (s : SchedulerOpen) (time : Z) (r : SchedulerOpen) :
  policyAvailable -> prefetch s time = Ok r -> maskedFree s -> maskedFree r.
Proof.
  intros Hpolicy. unfold prefetch.
  destruct ((numberOfFreeCores s =? numberOfCores s)
            && negb (numberOfTasksWaitingToSchedule s =? 0));
    [|intros [= <-]; auto].
  destruct (negb (numberOfTasksInQueue s =? 0)).
  { apply scheduleFront_maskedFree. exact Hpolicy. }
  destruct (negb (numberOfTasksWaitingToSchedule s =? 0)); [|intros [= <-]; auto].
  intros Hrun Hinv. apply bind_Ok in Hrun as (tasks & Hjump & Hrun).
  eapply scheduleFront_maskedFree; [exact Hpolicy | exact Hrun|].
  eapply maskedFree_same; [| |exact Hinv]; reflexivity.
Qed.

Lemma threadExit_maskedFree (s : SchedulerOpen) (thread_id time : Z) (r : SchedulerOpen) :
  policyAvailable -> threadExit s thread_id time = Ok r -> maskedFree s -> maskedFree r.
Proof.
  intros Hpolicy. unfold threadExit. intros Hrun Hinv.
  apply bind_Ok in Hrun as (s2 & Hs2 & Hrun).
  apply bind_Ok in Hrun as (s3 & Hs3 & Hrun).
  assert (r = s3) as ->.
  { destruct ((numberOfTasksCompleted s3 =? numberOfTasks s3) && (numberOfTasks s3 =? 0));
      [discriminate | congruence]. }
  eapply prefetch_maskedFree; [exact Hpolicy | exact Hs3|].
  assert (Hd : maskedFree (withCores s (detachThread thread_id <$> systemCores s))).
  { apply maskedFree_fmap; [|exact Hinv]. intros c. unfold detachThread.
    destruct (assignedThreadID c =? thread_id); auto. }
  destruct (thread_id <? _); [|injection Hs2 as <-; exact Hd].
  apply bind_Ok in Hs2 as (task & _ & Hs2). injection Hs2 as <-.
  set (s0 := withCores s (detachThread thread_id <$> systemCores s)) in *.
  apply (maskedFree_same
           (withCores s0 (releaseTask (getAppId thread_id) <$> systemCores s0)));
    [reflexivity | reflexivity|].
  apply (maskedFree_fmap s0); [|exact Hd].
  intros c. unfold releaseTask.
  destruct (assignedTaskID c =? getAppId thread_id); auto.
Qed.

Lemma drainQueue_maskedFree (fuel : nat) (s : SchedulerOpen) (time : Z) (r : SchedulerOpen) :
  policyAvailable -> drainQueue fuel s time = Ok r -> maskedFree s -> maskedFree r.
Proof.
  intros Hpolicy. revert s. induction fuel as [|fuel IH]; intros s; simpl.
  - destruct (numberOfTasksInQueue s =? 0); [intros [= <-]; auto | discriminate].
  - destruct (numberOfTasksInQueue s =? 0); [intros [= <-]; auto|].
    intros Hrun Hinv. apply bind_Ok in Hrun as (front & Hfront & Hrun).
    apply bind_Ok in Hrun as ([b s'] & Hs & Hrun).
    pose proof (schedule_maskedFree _ _ _ _ _ _ Hpolicy Hs Hinv) as Hinv'.
    destruct b; [eapply IH; eauto | injection Hrun as <-; exact Hinv'].
Qed.

Lemma periodic_maskedFree (s : SchedulerOpen) (time : Z) (r : SchedulerOpen) :
  policyAvailable -> periodic s time = Ok r -> maskedFree s -> maskedFree r.
Proof.
  intros Hpolicy. unfold periodic. intros Hrun Hinv.
  apply bind_Ok in Hrun as (u & _ & Hrun).
  destruct (u64 (mappingEpoch s) =? 0); [discriminate|].
  destruct (time mod u64 (mappingEpoch s) =? 0); [|injection Hrun as <-; exact Hinv].
  eapply drainQueue_maskedFree; [exact Hpolicy | exact Hrun|].
  eapply maskedFree_same; [| |exact Hinv]; reflexivity.
Qed.

Lemma threadCreate_maskedFree (s : SchedulerOpen) (thread_id time free_core_id : Z)
    (core : Z) (r : SchedulerOpen) :
  policyAvailable -> threadCreate s thread_id time free_core_id = Ok (core, r) ->
  maskedFree s -> maskedFree r.
Proof.
  intros Hpolicy. unfold threadCreate. intros Hrun Hinv.
  apply bind_Ok in Hrun as (s1 & Hs1 & Hrun).
  assert (Hinv1 : maskedFree s1).
  { destruct (thread_id =? 0).
    - apply bind_Ok in Hs1 as ([b s'] & Hs & Hs1).
      destruct b; [|discriminate]. injection Hs1 as <-.
      eapply schedule_maskedFree; eauto.
    - destruct ((0 <? thread_id) && (thread_id <? numberOfTasks s)).
      + apply bind_Ok in Hs1 as ([b s'] & Hs & Hs1). injection Hs1 as <-.
        eapply schedule_maskedFree; eauto.
      + injection Hs1 as <-. exact Hinv. }
  assert (r = snd (setAffinity s1 thread_id)) as ->.
  { destruct (negb (free_core_id =? INVALID_CORE_ID)); [congruence|].
    destruct (thread_id >=? numberOfTasks _); [discriminate | congruence]. }
  apply setAffinity_maskedFree. exact Hinv1.
Qed.

Lemma runHook_maskedFree (s : SchedulerOpen) (h : hook) (r : SchedulerOpen) :
  policyAvailable -> runHook s h = Ok r -> maskedFree s -> maskedFree r.
Proof.
  intros Hpolicy. destruct h; simpl runHook; intros Hrun Hinv.
  - apply bind_Ok in Hrun as ([b s'] & Hs & Hrun). injection Hrun as <-.
    eapply schedule_maskedFree; eauto.
  - injection Hrun as <-. apply setAffinity_maskedFree. exact Hinv.
  - apply bind_Ok in Hrun as ([c s'] & Hs & Hrun). injection Hrun as <-.
    eapply threadCreate_maskedFree; eauto.
  - eapply threadExit_maskedFree; eauto.
  - eapply periodic_maskedFree; eauto.
Qed.

Lemma runHooks_maskedFree (hs : list hook) :
  forall (s r : SchedulerOpen),
    policyAvailable -> runHooks s hs = Ok r -> maskedFree s -> maskedFree r.
Proof.
  induction hs as [|h rest IH]; intros s r Hpolicy; simpl.
  - intros [= <-]. auto.
  - intros Hrun Hinv. apply bind_Ok in Hrun as (s' & Hh & Hrun).
    eapply IH; [exact Hpolicy | exact Hrun|].
    eapply runHook_maskedFree; eauto.
Qed.

(** X26: With a mapping policy that only returns available cores, a core the
    mask does not allow is never assigned to a task: from the state the
    constructor leaves, whatever hooks are called in whatever order, such
    a core is still unassigned. *)
Theorem masked_cores_stay_free (init s : SchedulerOpen) (hs : list hook)
    (i : nat) (c : systemCore) :
  policyAvailable -> initialState init -> runHooks init hs = Ok s ->
  systemCores s !! i = Some c -> m_core_mask init !! i <> Some true ->
  assignedTaskID c = -1.
Proof.
  intros Hpolicy [Hcores _] Hrun Hc Hoff.
  assert (Hinit : maskedFree init).
  { intros j cj Hj _. rewrite Forall_forall in Hcores.
    apply (Hcores cj). apply list_elem_of_lookup. eauto. }
  pose proof (runHooks_maskedFree hs init s Hpolicy Hrun Hinit) as Hinv.
  apply runHooks_sameFrame in Hrun as (Hmask & _).
  apply (Hinv i c Hc). rewrite Hmask. exact Hoff.
Qed.

Lemma arrivalsFetched_updateTask (s : SchedulerOpen) (k : Z) (f : openTask -> openTask)
    (time : Z) :
  (forall t, waitingToSchedule (f t) = false) ->
  arrivalsFetched time (openTasks s) -> arrivalsFetched time (openTasks (updateTask s k f)).
Proof.
  intros Hf Hinv i t. simpl. rewrite list_lookup_alter. case_decide as Hi.
  - destruct (openTasks s !! Z.to_nat k) as [t0|]; [|discriminate]. simpl.
    intros [= <-]. rewrite Hf. discriminate.
  - apply Hinv.
Qed.

Lemma schedule_arrivalsFetched (s : SchedulerOpen) (taskID : Z) (isInitialCall : bool)
    (now time : Z) (b : bool) (s' : SchedulerOpen) :
  schedule s taskID isInitialCall now = Ok (b, s') ->
  arrivalsFetched time (openTasks s) -> arrivalsFetched time (openTasks s').
Proof.
  intros Hs Hinv.
  apply schedule_cases in Hs as (task & Htask & Hcases).
  destruct Hcases as [(_ & _ & ->)|[(_ & _ & ->)|(_ & _ & _ & _ & cores & _ & _ & ->)]].
  - exact Hinv.
  - apply arrivalsFetched_updateTask; [reflexivity | exact Hinv].
  - apply arrivalsFetched_updateTask; [reflexivity|].
    rewrite attach_tasks. apply (arrivalsFetched_updateTask s); [reflexivity | exact Hinv].
Qed.

Lemma drainQueue_arrivalsFetched (fuel : nat) (s : SchedulerOpen) (now time : Z)
    (r : SchedulerOpen) :
  drainQueue fuel s now = Ok r ->
  arrivalsFetched time (openTasks s) -> arrivalsFetched time (openTasks r).
Proof.
  revert s. induction fuel as [|fuel IH]; intros s; simpl.
  - destruct (numberOfTasksInQueue s =? 0); [intros [= <-]; auto | discriminate].
  - destruct (numberOfTasksInQueue s =? 0); [intros [= <-]; auto|].
    intros Hrun Hinv. apply bind_Ok in Hrun as (front & Hfront & Hrun).
    apply bind_Ok in Hrun as ([b s'] & Hs & Hrun).
    pose proof (schedule_arrivalsFetched _ _ _ _ time _ _ Hs Hinv) as Hinv'.
    destruct b; [eapply IH; eauto | injection Hrun as <-; exact Hinv'].
Qed.

Lemma fetch_arrivalsFetched (s : SchedulerOpen) (time : Z) :
  arrivalsFetched time (openTasks (fetchTasksIntoQueue s time)).
Proof.
  intros i t'. simpl. rewrite list_lookup_fmap.
  destruct (openTasks s !! i) as [t|]; [|discriminate]. simpl. intros [= <-].
  destruct (waitingToSchedule t) eqn:Hw; simpl.
  - destruct (Z.leb_spec (taskArrivalTime t) time); simpl; [discriminate|].
    intros _. lia.
  - rewrite Hw. discriminate.
Qed.

(** X27: After a tick of [periodic] at a multiple of the mapping epoch, no task
    that has arrived is still WaitingToSchedule: each task that still
    waits to be scheduled arrives later than the time of the tick. *)
Theorem epoch_tick_fetches_arrivals (s r : SchedulerOpen) (time : Z) (i : nat)
    (t : openTask) :
  periodic s time = Ok r -> time mod u64 (mappingEpoch s) = 0 ->
  openTasks r !! i = Some t -> waitingToSchedule t = true ->
  time < taskArrivalTime t.
Proof.
  unfold periodic. intros Hrun Hepoch Hi Hw.
  apply bind_Ok in Hrun as (u & _ & Hrun).
  destruct (u64 (mappingEpoch s) =? 0); [discriminate|].
  rewrite Hepoch in Hrun. change (0 =? 0) with true in Hrun. cbv iota in Hrun.
  exact (drainQueue_arrivalsFetched _ _ _ time _ Hrun (fetch_arrivalsFetched s time)
           i t Hi Hw).
Qed.

(** X28: When the configured number of tasks is 0, so that the task vector
    is empty, [threadExit] never returns: for a thread id that is not
    negative the number of completed tasks, 0, equals the configured
    number, and the average response time at the end divides by that
    number; for a negative thread id the empty task vector is read. *)
Theorem threadExit_without_tasks (s : SchedulerOpen) (thread_id time : Z) :
  numberOfTasks s = 0 -> openTasks s = [] -> threadExit s thread_id time = Fault.
Proof.
  intros Hcount Hnone. destruct s as [mask epoch policy count tasks cores].
  simpl in Hcount, Hnone. subst count tasks.
  unfold threadExit. cbn [openTasks numberOfTasks withCores length].
  destruct (Z.ltb_spec thread_id 0) as [Hneg|Hpos].
  - unfold at_index. destruct (getAppId thread_id <? 0); reflexivity.
  - cbn [mbind outcome_bind]. unfold prefetch, numberOfTasksWaitingToSchedule.
    cbn [openTasks withCores sumOver]. change (negb (0 =? 0)) with false.
    rewrite andb_false_r. reflexivity.
Qed.

End Mask.

Lemma masked_cores_stay_free_witness :
  @runHooks (MapFirstUnused [0; 1]) (simpleHost 1 0) maskedOneTask [ThreadCreate 0 0 0]
    = Ok maskedOneTaskStarted /\
  systemCores maskedOneTaskStarted !! 0%nat = Some (newCore 0) /\
  assignedTaskID (newCore 0) = -1.
Proof.
  split; [vm_compute; reflexivity|]. split; [reflexivity|].
  apply (@masked_cores_stay_free (MapFirstUnused [0; 1]) (simpleHost 1 0)
           maskedOneTask maskedOneTaskStarted [ThreadCreate 0 0 0] 0%nat (newCore 0)).
  - apply MapFirstUnused_available.
  - split; repeat (constructor; [simpl; repeat split; lia|]); constructor.
  - vm_compute. reflexivity.
  - reflexivity.
  - discriminate.
Defined.

Lemma epoch_tick_fetches_arrivals_witness :
  @periodic (MapFirstUnused [0; 1]) (simpleHost 2 0) twoTasksFirstRunning 2000000
    = Ok twoTasksAfterTick /\
  forall (i : nat) (t : openTask),
    openTasks twoTasksAfterTick !! i = Some t -> waitingToSchedule t = true ->
    2000000 < taskArrivalTime t.
Proof.
  assert (E : @periodic (MapFirstUnused [0; 1]) (simpleHost 2 0) twoTasksFirstRunning
                2000000 = Ok twoTasksAfterTick) by (vm_compute; reflexivity).
  split; [exact E|]. intros i t.
  apply (@epoch_tick_fetches_arrivals (MapFirstUnused [0; 1]) (simpleHost 2 0)
           twoTasksFirstRunning twoTasksAfterTick 2000000 i t E).
  reflexivity.
Defined.

Lemma threadExit_without_tasks_witness :
  @threadExit firstFour (simpleHost 0 0) (mkSched [true] 1000 "FIFO" 0 [] [newCore 0]) 5 100
  = Fault.
Proof.
  apply (@threadExit_without_tasks firstFour (simpleHost 0 0)
           (mkSched [true] 1000 "FIFO" 0 [] [newCore 0]) 5 100);
    reflexivity.
Defined.

(** ** A negative number of tasks *)





